(** * SlypStream: upload edge function and vision webhook

    A shallow embedding of [src/uploadSlip.ts] (the upload edge function) and
    of the webhook handler kept in [src/README.md] (payload validation, the
    download from storage, the BuildShip relay and the request handler), with
    the properties of the repository's specification stated and settled over
    it, and further properties of the code after them.

    Conventions of the embedding.
    - A JavaScript string is a [string]: a sequence of code units, each an
      [ascii] read as the code unit U+0000..U+00FF.  The library functions
      ([trim], [toLowerCase], the character classes of regular expressions)
      follow ECMAScript on that range.
    - Numbers that the code uses as integers (instants in milliseconds, HTTP
      statuses, byte lengths) are [Z].
    - [Date.now()], [crypto.randomUUID()], [fetch] and the storage client are
      inputs of the functions that call them; what the code does to the world
      (requests sent, pauses, storage writes) is returned as a list of events.
    - The mutable [rateLimitStore] is passed in and returned. *)

From Stdlib Require Import ZArith Ascii String List Bool Lia.
From stdpp Require Import base option list strings gmap fin_maps pretty.

Local Open Scope Z_scope.

(** ** The JavaScript string and regular-expression operations the code uses *)
Module JS.

Definition code (c : ascii) : N := N_of_ascii c.

Definition inRange (lo hi : N) (c : ascii) : bool :=
  ((lo <=? code c) && (code c <=? hi))%N.

(** [\d], [a-z], [A-Z]. *)
Definition isDigit : ascii → bool := inRange 48 57.
Definition isLower : ascii → bool := inRange 97 122.
Definition isUpper : ascii → bool := inRange 65 90.

(** ECMAScript WhiteSpace and LineTerminator below U+0100: TAB, LF, VT, FF,
    CR, SP and NBSP.  [trim] strips them and [\s] matches them. *)
Definition isSpace (c : ascii) : bool :=
  inRange 9 13 c || (code c =? 32)%N || (code c =? 160)%N.

(** [String.prototype.toLowerCase] on one code unit: A-Z, and the Latin-1
    capitals U+00C0..U+00DE except the multiplication sign U+00D7. *)
Definition toLowerChar (c : ascii) : ascii :=
  if isUpper c || (inRange 192 222 c && negb (code c =? 215)%N)
  then ascii_of_N (code c + 32) else c.

(** ASCII-only case folding, as used by the [i] flag on ASCII patterns. *)
Definition asciiLower (c : ascii) : ascii :=
  if isUpper c then ascii_of_N (code c + 32) else c.
Definition asciiUpper (c : ascii) : ascii :=
  if isLower c then ascii_of_N (code c - 32) else c.

Fixpoint smap (f : ascii → ascii) (s : string) : string :=
  match s with
  | EmptyString => EmptyString
  | String c s' => String (f c) (smap f s')
  end.

Fixpoint sforall (p : ascii → bool) (s : string) : bool :=
  match s with
  | EmptyString => true
  | String c s' => p c && sforall p s'
  end.

Definition toLowerCase : string → string := smap toLowerChar.

Definition isEmpty (s : string) : bool :=
  match s with EmptyString => true | _ => false end.

Fixpoint trimStart (s : string) : string :=
  match s with
  | EmptyString => EmptyString
  | String c s' => if isSpace c then trimStart s' else s
  end.

Fixpoint trimEnd (s : string) : string :=
  match s with
  | EmptyString => EmptyString
  | String c s' =>
      let r := trimEnd s' in
      if isSpace c && isEmpty r then EmptyString else String c r
  end.

Definition trim (s : string) : string := trimEnd (trimStart s).

(** [s.replace(/[cls]+/g, by)]: every maximal run of characters of the class
    becomes one copy of [by]; [inRun] tells that the previous character was
    already part of the run being replaced. *)
Fixpoint replaceRuns (cls : ascii → bool) (by_ : string) (inRun : bool)
    (s : string) : string :=
  match s with
  | EmptyString => EmptyString
  | String c s' =>
      if cls c
      then (if inRun then replaceRuns cls by_ true s'
            else by_ +:+ replaceRuns cls by_ true s')
      else String c (replaceRuns cls by_ false s')
  end.

(** [s.replace(/[cls]/g, '')]: every character of the class is dropped. *)
Fixpoint removeAll (cls : ascii → bool) (s : string) : string :=
  match s with
  | EmptyString => EmptyString
  | String c s' =>
      if cls c then removeAll cls s' else String c (removeAll cls s')
  end.

Fixpoint startsWith (p s : string) : bool :=
  match p, s with
  | EmptyString, _ => true
  | String a p', String b s' => Ascii.eqb a b && startsWith p' s'
  | String _ _, EmptyString => false
  end.

(** [s.includes(p)]. *)
Fixpoint includes (p s : string) : bool :=
  startsWith p s ||
  match s with
  | EmptyString => false
  | String _ s' => includes p s'
  end.

(** [s.endsWith(p)]. *)
Fixpoint endsWith (p s : string) : bool :=
  String.eqb p s ||
  match s with
  | EmptyString => false
  | String _ s' => endsWith p s'
  end.

(** [s.substring(0, n)] and [s.slice(0, n)] for [n >= 0]. *)
Fixpoint take (n : nat) (s : string) : string :=
  match n, s with
  | S n', String c s' => String c (take n' s')
  | _, _ => EmptyString
  end.

(** [s.split(sep)] for a one-character separator; [cur] is the piece being
    read, kept reversed. *)
Fixpoint rev_onto (acc s : string) : string :=
  match acc with
  | EmptyString => s
  | String c acc' => rev_onto acc' (String c s)
  end.

Fixpoint splitGo (sep : ascii) (cur : string) (s : string) : list string :=
  match s with
  | EmptyString => [rev_onto cur EmptyString]
  | String c s' =>
      if Ascii.eqb c sep
      then rev_onto cur EmptyString :: splitGo sep EmptyString s'
      else splitGo sep (String c cur) s'
  end.

Definition split (sep : ascii) (s : string) : list string :=
  splitGo sep EmptyString s.

(** [xs.join(sep)]. *)
Fixpoint join (sep : string) (xs : list string) : string :=
  match xs with
  | [] => EmptyString
  | [x] => x
  | x :: rest => x +:+ sep +:+ join sep rest
  end.

(** [[...new Set(xs)]]: duplicates dropped, first occurrences kept in
    order. *)
Fixpoint dedupeGo (seen : list string) (xs : list string) : list string :=
  match xs with
  | [] => []
  | x :: rest =>
      if existsb (String.eqb x) seen then dedupeGo seen rest
      else x :: dedupeGo (x :: seen) rest
  end.

Definition dedupe (xs : list string) : list string := dedupeGo [] xs.

(** Template-literal rendering of an integer. *)
Definition showZ (n : Z) : string := pretty n.

(** *** Regular expressions

    The patterns of the source are all of the shape [/^r$/]; [test r s]
    decides whether the whole of [s] matches [r], by derivatives. *)
Inductive regex : Type :=
| Void
| Eps
| Cls (p : ascii → bool)
| Seq (r1 r2 : regex)
| Alt (r1 r2 : regex)
| Star (r : regex).

Fixpoint nullable (r : regex) : bool :=
  match r with
  | Void => false
  | Eps => true
  | Cls _ => false
  | Seq r1 r2 => nullable r1 && nullable r2
  | Alt r1 r2 => nullable r1 || nullable r2
  | Star _ => true
  end.

Fixpoint deriv (c : ascii) (r : regex) : regex :=
  match r with
  | Void => Void
  | Eps => Void
  | Cls p => if p c then Eps else Void
  | Seq r1 r2 =>
      if nullable r1
      then Alt (Seq (deriv c r1) r2) (deriv c r2)
      else Seq (deriv c r1) r2
  | Alt r1 r2 => Alt (deriv c r1) (deriv c r2)
  | Star r1 => Seq (deriv c r1) (Star r1)
  end.

Fixpoint test (r : regex) (s : string) : bool :=
  match s with
  | EmptyString => nullable r
  | String c s' => test (deriv c r) s'
  end.

Definition chr (c : ascii) : regex := Cls (Ascii.eqb c).

Fixpoint lit (s : string) : regex :=
  match s with
  | EmptyString => Eps
  | String c s' => Seq (chr c) (lit s')
  end.

Definition plus (r : regex) : regex := Seq r (Star r).

Fixpoint rep (n : nat) (r : regex) : regex :=
  match n with
  | O => Eps
  | S n' => Seq r (rep n' r)
  end.

Fixpoint alts (rs : list regex) : regex :=
  match rs with
  | [] => Void
  | [r] => r
  | r :: rest => Alt r (alts rest)
  end.

Definition anyOf (ps : list (ascii → bool)) (c : ascii) : bool :=
  existsb (λ p, p c) ps.

(** The [i] flag: a class matches a character when it matches one of its
    two ASCII cases. *)
Fixpoint icase (r : regex) : regex :=
  match r with
  | Cls p => Cls (λ c, p (asciiLower c) || p (asciiUpper c))
  | Seq r1 r2 => Seq (icase r1) (icase r2)
  | Alt r1 r2 => Alt (icase r1) (icase r2)
  | Star r1 => Star (icase r1)
  | Void => Void
  | Eps => Eps
  end.

(** [s.replace(/r$/, by)]: the match is the leftmost position from which
    the rest of the string matches [r]; without a match [s] is returned. *)
Fixpoint replaceAtEnd (r : regex) (by_ : string) (s : string) : string :=
  if test r s then by_
  else match s with
       | EmptyString => EmptyString
       | String c s' => String c (replaceAtEnd r by_ s')
       end.

End JS.

(** ** [uploadSlip.ts]: constants and utility functions *)

Definition RATE_LIMIT_WINDOW : Z := 60000.
Definition RATE_LIMIT_MAX_REQUESTS : nat := 30.

(** The class [[^a-z0-9\-]] of the last replacement of [normalize], and its
    complement [[a-z0-9-]]. *)
Definition isSlugChar (c : ascii) : bool :=
  JS.isLower c || JS.isDigit c || Ascii.eqb c "-".

Definition normalize (str : string) : string :=
  JS.removeAll (λ c, negb (isSlugChar c))
    (JS.replaceRuns JS.isSpace "-" false
       (JS.toLowerCase (JS.trim str))).

(** [/^[a-z0-9-]*$/] *)
Definition slugRegex : JS.regex := JS.Star (JS.Cls isSlugChar).

(** A computation of the platform that may throw: [Throws m] carries the
    message of the error ([error.message]). *)
Inductive Try (A : Type) : Type :=
| Ok (a : A)
| Throws (message : string).
Arguments Ok {A} a.
Arguments Throws {A} message.

Definition maskSensitiveData (data : string) : string :=
  if JS.includes "Bearer" data then JS.take 10 data +:+ "***"
  else if JS.includes "http" data then JS.take 30 data +:+ "***"
  else if (50 <? String.length data)%nat then JS.take 20 data +:+ "***"
  else data.

(** *** HTTP responses as the code reads them *)
Record Response : Type := {
  status : Z;
  statusText : string;
  resp_url : string;                       (* [response.url] *)
  hdr_getSetCookie : option (list string); (* [headers.getSetCookie?.()];
                                              [None]: unavailable or throwing *)
  hdr_setCookie : option string;           (* [headers.get('Set-Cookie')] *)
  hdr_location : option string;            (* [headers.get('Location')] *)
  hdr_contentType : option string;         (* [headers.get('Content-Type')] *)
  body : option (Try string)               (* what reading the body gives;
                                              [None]: the response has no
                                              body (204, 205, 304) *)
}.

(** [response.ok] *)
Definition ok (r : Response) : bool := (200 <=? status r) && (status r <=? 299).

(** Truthiness of a possibly missing string: [undefined], [null] and [''] are
    falsy. *)
Definition truthy (o : option string) : bool :=
  match o with
  | Some s => negb (JS.isEmpty s)
  | None => false
  end.

(** The first piece of a split: [x.split(sep)[0]]. *)
Definition firstPiece (sep : ascii) (x : string) : string :=
  match JS.split sep x with
  | p :: _ => p
  | [] => EmptyString
  end.

Definition nonEmpty (xs : list string) : list string :=
  List.filter (λ x, negb (JS.isEmpty x)) xs.

Definition extractCookies (response : Response) : list string :=
  let cookies :=
    nonEmpty (List.map (firstPiece ";")
                (default [] (hdr_getSetCookie response))) in
  match cookies with
  | [] =>
      match hdr_setCookie response with
      | Some setCookieHeader =>
          if JS.isEmpty setCookieHeader then []
          else nonEmpty (List.map (λ cookie, firstPiece ";" (JS.trim cookie))
                           (JS.split "," setCookieHeader))
      | None => []
      end
  | _ => cookies
  end.

(** *** Rate limiting *)
Record ClientData : Type := {
  requests : list Z;
  lastCleanup : Z
}.

Inductive RateLimitResult : Type :=
| Allowed
| Denied (resetTime : option Z).  (* [requests[0] + WINDOW]; [None] when
                                     [requests[0]] is undefined *)

Definition inWindow (now timestamp : Z) : bool :=
  now - timestamp <? RATE_LIMIT_WINDOW.

Definition stale (now : Z) (data : ClientData) : bool :=
  RATE_LIMIT_WINDOW * 2 <? now - lastCleanup data.

(** [checkRateLimit clientIP now store]: [now] is the value of [Date.now()],
    [store] the contents of [rateLimitStore] before the call; the result is
    paired with its contents after the call.  [clientData] is the object held
    by the store when the key is present, so assignments to its fields show
    in the store; a fresh object is only stored by [rateLimitStore.set]. *)
Definition checkRateLimit (clientIP : string) (now : Z)
    (store : gmap string ClientData) : RateLimitResult * gmap string ClientData :=
  let clientData :=
    default {| requests := []; lastCleanup := now |} (store !! clientIP) in
  let kept := List.filter (inWindow now) (requests clientData) in
  let cleaned := {| requests := kept; lastCleanup := lastCleanup clientData |} in
  let store1 :=
    match store !! clientIP with
    | Some _ => <[clientIP := cleaned]> store
    | None => store
    end in
  if (RATE_LIMIT_MAX_REQUESTS <=? length kept)%nat then
    (Denied ((λ t, t + RATE_LIMIT_WINDOW) <$> head kept), store1)
  else
    let pushed :=
      {| requests := kept ++ [now]; lastCleanup := lastCleanup clientData |} in
    let store2 := <[clientIP := pushed]> store1 in
    if RATE_LIMIT_WINDOW <? now - lastCleanup clientData then
      let store3 := filter (λ kv, stale now kv.2 = false) store2 in
      let store4 :=
        match store3 !! clientIP with
        | Some _ =>
            <[clientIP := {| requests := kept ++ [now]; lastCleanup := now |}]>
              store3
        | None => store3
        end in
      (Allowed, store4)
    else (Allowed, store2).

(** What the caller reports as the time to wait: [resetTime - now]. *)
Definition retryAfter (now : Z) (r : RateLimitResult) : option Z :=
  match r with
  | Denied (Some resetTime) => Some (resetTime - now)
  | _ => None
  end.

(** *** Validation *)
Record UploadData : Type := {
  branch : option string;
  date : option string;
  filename : option string;
  imageUrl : option string
}.

Definition seqs (rs : list JS.regex) : JS.regex :=
  fold_right JS.Seq JS.Eps rs.

(** [/^\d{4}-\d{2}-\d{2}$/] *)
Definition dateRegex : JS.regex :=
  seqs [JS.rep 4 (JS.Cls JS.isDigit); JS.chr "-";
        JS.rep 2 (JS.Cls JS.isDigit); JS.chr "-";
        JS.rep 2 (JS.Cls JS.isDigit)].

(** [/^[a-zA-Z0-9\-_]+\.(jpg|jpeg|png|gif|webp)$/i] *)
Definition validFilenamePattern : JS.regex :=
  JS.icase
    (seqs [JS.plus (JS.Cls (JS.anyOf [JS.isLower; JS.isUpper; JS.isDigit;
                                      Ascii.eqb "-"; Ascii.eqb "_"]));
           JS.chr ".";
           JS.alts [JS.lit "jpg"; JS.lit "jpeg"; JS.lit "png"; JS.lit "gif";
                    JS.lit "webp"]]).

Definition requiredError (field : option string) (msg : string) : list string :=
  if truthy field then [] else [msg].

Definition patternError (field : option string) (r : JS.regex) (msg : string)
    : list string :=
  match field with
  | Some s => if negb (JS.isEmpty s) && negb (JS.test r s) then [msg] else []
  | None => []
  end.

Definition filenameFormatError : string :=
  "Filename format invalid. Only alphanumeric characters, dashes, and underscores allowed with valid image extensions (jpg, jpeg, png, gif, webp).".

Definition validateUploadData (uploadData : UploadData) : list string :=
  requiredError (branch uploadData) "branch is required"
  ++ requiredError (date uploadData) "date is required"
  ++ requiredError (filename uploadData) "filename is required"
  ++ patternError (date uploadData) dateRegex "Date must be in YYYY-MM-DD format"
  ++ patternError (filename uploadData) validFilenamePattern filenameFormatError.

Definition DEFAULT_MAX_SIZE_BYTES : Z := 10 * 1024 * 1024.

(** [validateImageSize(imageData, maxSizeBytes)]; the quotient in the message
    is exact for the whole numbers of MiB the code passes. *)
Definition validateImageSize (imageData : list Byte.byte) (maxSizeBytes : Z)
    : option string :=
  if maxSizeBytes <? Z.of_nat (length imageData)
  then Some ("Image too large. Maximum size is "
             +:+ JS.showZ (maxSizeBytes / 1024 / 1024) +:+ "MB")
  else None.

(** [/\.[^/.]+$/] and [/\.jpg$/], without their final [$]. *)
Definition extensionRegex : JS.regex :=
  JS.Seq (JS.chr ".")
         (JS.plus (JS.Cls (λ c, negb (Ascii.eqb c "/" || Ascii.eqb c ".")))).
Definition dotJpgRegex : JS.regex := JS.lit ".jpg".

(** [generateFinalFilename uuid originalFilename]: [uuid] is the value
    [crypto.randomUUID()] returns in the call. *)
Definition generateFinalFilename (uuid : string) (originalFilename : string)
    : string :=
  let finalFilename :=
    if negb (JS.endsWith ".jpg" (JS.toLowerCase originalFilename))
    then JS.replaceAtEnd extensionRegex "" originalFilename +:+ ".jpg"
    else originalFilename in
  let uniqueSuffix := JS.take 8 uuid in
  JS.replaceAtEnd dotJpgRegex ("_" +:+ uniqueSuffix +:+ ".jpg") finalFilename.

(** *** The world the upload function talks to *)
Inductive RedirectMode : Type := Follow | Manual.

(** The four requests of one fetch attempt. *)
Inductive Step : Type := OriginVisit | Probe | Verification | FinalFetch.

(** A request, by the fields that vary between the calls of [fetch] (the
    browser-like header sets are constants of the source). *)
Record Request : Type := {
  req_url : string;
  req_redirect : RedirectMode;
  req_referer : option string;
  req_cookie : option string
}.

Inductive Event : Type :=
| AttemptStarted (attempt : nat)
| Fetched (step : Step) (req : Request)
| Slept (ms : Z)
| StorageUploaded (path : string) (data : list Byte.byte) (contentType : string).

Record World : Type := {
  url_origin : string → Try string;           (* [new URL(url).origin] *)
  url_resolve : string → string → Try string; (* [new URL(loc, base).href] *)
  net : nat → Step → Request → Try Response;  (* [fetch], per attempt and step *)
  randomUUID : string;                        (* [crypto.randomUUID()] *)
  storage_upload : string → list Byte.byte → string → option string;
                                              (* the [error.message] of
                                                 [upload], if any *)
  storage_publicUrl : string → string         (* [getPublicUrl(..).publicUrl] *)
}.

(** Effectful code: a result or a thrown error, with the events performed up
    to that point. *)
Definition M (A : Type) : Type := Try A * list Event.

Definition ret {A} (a : A) : M A := (Ok a, []).
Definition emit (e : Event) : M unit := (Ok tt, [e]).
Definition lift {A} (t : Try A) : M A := (t, []).

Definition bind {A B} (m : M A) (f : A → M B) : M B :=
  match m with
  | (Ok a, t) => let '(r, t') := f a in (r, t ++ t')
  | (Throws e, t) => (Throws e, t)
  end.

Notation "'let*' x ':=' m 'in' k" := (bind m (λ x, k))
  (at level 10, x name, m at level 100, k at level 200).

Definition fetch (w : World) (attempt : nat) (step : Step) (req : Request)
    : M Response :=
  let* _ := emit (Fetched step req) in lift (net w attempt step req).

(** The first read of a response body ([text()], [arrayBuffer()]), and a read
    after the body was already consumed, which rejects.  A response without a
    body reads as empty every time. *)
Definition bodyUsedMessage : string := "Body already consumed.".

Definition readBody (r : Response) : Try string :=
  match body r with
  | Some content => content
  | None => Ok EmptyString
  end.

Definition readBodyAgain (r : Response) : Try string :=
  match body r with
  | Some (Ok _) => Throws bodyUsedMessage
  | Some (Throws m) => Throws m
  | None => Ok EmptyString
  end.

Inductive FetchResult : Type :=
| FetchOk (data : list Byte.byte) (contentType : string)
| FetchFail (error : string) (details : string) (finalUrl : option string).

Definition botProtectionError : string :=
  "Unable to bypass bot protection after multiple attempts".
Definition networkError : string := "Network error while fetching image".

(** How one pass through the loop body ends. *)
Inductive Flow : Type :=
| Return (r : FetchResult)
| Continue       (* [continue]: straight to the next attempt *)
| EndOfBody.     (* the end of the [try] statement: on to the backoff wait *)

Definition isImageType (contentType : option string) : bool :=
  match contentType with
  | Some ct => JS.startsWith "image/" ct
  | None => false
  end.

Definition looksLikeHtml (text : string) : bool :=
  JS.includes "<!DOCTYPE html" text || JS.includes "<html" text.

(** Lines 254-293: what is done with the final response. *)
Definition handleFinal (finalResponse : Response) (attempt maxRetries : nat)
    : M Flow :=
  if ok finalResponse then
    let contentType := hdr_contentType finalResponse in
    let succeed (read : Response → Try string) : M Flow :=
      let* imageData := lift (read finalResponse) in
      ret (Return (FetchOk (list_byte_of_string imageData)
                     (if isImageType contentType
                      then default EmptyString contentType
                      else "application/octet-stream"))) in
    if negb (isImageType contentType) then
      let* responseText := lift (readBody finalResponse) in
      if looksLikeHtml responseText then
        if (attempt =? maxRetries)%nat then
          ret (Return (FetchFail botProtectionError
                         (JS.take 300 responseText)
                         (Some (maskSensitiveData (resp_url finalResponse)))))
        else ret Continue
      else succeed readBodyAgain
    else succeed readBody
  else
    if (attempt =? maxRetries)%nat then
      let responseText :=
        match readBody finalResponse with
        | Ok t => t
        | Throws _ => "Unable to read response body"
        end in
      ret (Return (FetchFail
                     ("Failed to fetch image: "
                      +:+ JS.showZ (status finalResponse) +:+ " "
                      +:+ statusText finalResponse)
                     (JS.take 300 responseText)
                     (Some (maskSensitiveData (resp_url finalResponse)))))
    else ret EndOfBody.

(** Lines 139-252: the session steps, up to the final response. *)
Definition sessionSteps (w : World) (url : string) (attempt : nat)
    : M Response :=
  let* baseDomain := lift (url_origin w url) in
  let* domainResponse :=
    fetch w attempt OriginVisit
      {| req_url := baseDomain; req_redirect := Follow;
         req_referer := None; req_cookie := None |} in
  let sessionCookies := extractCookies domainResponse in
  let* initialResponse :=
    fetch w attempt Probe
      {| req_url := url; req_redirect := Manual;
         req_referer := Some baseDomain;
         req_cookie := Some (JS.join "; " sessionCookies) |} in
  let additionalCookies := extractCookies initialResponse in
  let allCookies := JS.dedupe (sessionCookies ++ additionalCookies) in
  let* allCookies' :=
    (if (status initialResponse =? 301) || (status initialResponse =? 302) then
       match hdr_location initialResponse with
       | Some location =>
           if JS.isEmpty location then ret allCookies
           else
             let* targetUrl :=
               (if JS.startsWith "http" location then ret location
                else lift (url_resolve w location url)) in
             if JS.includes "gog/redirect" targetUrl
                || JS.includes "redirect" targetUrl
             then
               let* verificationResponse :=
                 fetch w attempt Verification
                   {| req_url := targetUrl; req_redirect := Follow;
                      req_referer := Some baseDomain;
                      req_cookie := Some (JS.join "; " allCookies) |} in
               let* _ := emit (Slept 1500) in
               ret (allCookies ++ extractCookies verificationResponse)
             else ret allCookies
       | None => ret allCookies
       end
     else ret allCookies) in
  fetch w attempt FinalFetch
    {| req_url := url; req_redirect := Follow;
       req_referer := Some baseDomain;
       req_cookie := Some (JS.join "; " (JS.dedupe allCookies')) |}.

(** Lines 294-303: the [catch] of the loop body. *)
Definition caught (attempt maxRetries : nat) (message : string) : Flow :=
  if (attempt =? maxRetries)%nat
  then Return (FetchFail networkError message None)
  else EndOfBody.

(** One pass through the body of the [for] loop. *)
Definition runAttempt (w : World) (url : string) (attempt maxRetries : nat)
    : Flow * list Event :=
  let '(r, t) :=
    let* _ := emit (AttemptStarted attempt) in
    let* finalResponse := sessionSteps w url attempt in
    handleFinal finalResponse attempt maxRetries in
  match r with
  | Ok flow => (flow, t)
  | Throws message => (caught attempt maxRetries message, t)
  end.

(** The [for] loop from [attempt] on; [remaining] counts the values of
    [attempt] still within [attempt <= maxRetries].  [None] is the
    [undefined] returned when the loop ends without a [return]. *)
Fixpoint attemptsFrom (w : World) (url : string) (maxRetries : nat)
    (remaining attempt : nat) : option FetchResult * list Event :=
  match remaining with
  | O => (None, [])
  | S remaining' =>
      let '(flow, t) := runAttempt w url attempt maxRetries in
      match flow with
      | Return r => (Some r, t)
      | Continue =>
          let '(r, t') := attemptsFrom w url maxRetries remaining' (S attempt) in
          (r, t ++ t')
      | EndOfBody =>
          let wait :=
            if (attempt <? maxRetries)%nat
            then [Slept (1000 * Z.of_nat attempt)] else [] in
          let '(r, t') := attemptsFrom w url maxRetries remaining' (S attempt) in
          (r, t ++ wait ++ t')
      end
  end.

Definition fetchImageWithSessionHandling (w : World) (url : string)
    (maxRetries : nat) : option FetchResult * list Event :=
  attemptsFrom w url maxRetries maxRetries 1.

Definition DEFAULT_MAX_RETRIES : nat := 3.

(** The number of attempts begun in a run. *)
Definition attemptsMade (t : list Event) : nat :=
  length (List.filter
            (λ e, match e with AttemptStarted _ => true | _ => false end) t).

(** *** The upload itself *)
Record ImageFile : Type := {
  file_data : list Byte.byte;  (* [arrayBuffer()] *)
  file_type : string;          (* [type] *)
  file_name : string           (* [name] *)
}.

Inductive UploadResult : Type :=
| UploadOk (publicUrl finalFilename storagePath : string)
    (imageSizeBytes : Z) (uploadMode : string)
| UploadBotProtection (originalError : string)
| UploadFail (error : string) (details : option string)
    (finalUrl : option string).

(** Reading a property of [undefined] or [null] throws. *)
Definition required {A} (value : option A) : Try A :=
  match value with
  | Some x => Ok x
  | None => Throws "Cannot read properties of undefined"
  end.

(** Lines 356-398: the part common to both upload modes.  In the template
    literal of [storagePath] a missing date reads ['undefined']. *)
Definition storeImage (w : World) (uploadData : UploadData)
    (imageData : list Byte.byte) (contentTypeHeader uploadMode : string)
    : M UploadResult :=
  match validateImageSize imageData DEFAULT_MAX_SIZE_BYTES with
  | Some sizeError => ret (UploadFail sizeError None None)
  | None =>
      let* name := lift (required (filename uploadData)) in
      let finalFilename := generateFinalFilename (randomUUID w) name in
      let* rawBranch := lift (required (branch uploadData)) in
      let normalizedBranch := normalize rawBranch in
      let storagePath :=
        normalizedBranch +:+ "/" +:+ default "undefined" (date uploadData)
        +:+ "/" +:+ finalFilename in
      let* _ := emit (StorageUploaded storagePath imageData contentTypeHeader) in
      match storage_upload w storagePath imageData contentTypeHeader with
      | Some message =>
          ret (UploadFail "Failed to upload image to storage" (Some message) None)
      | None =>
          ret (UploadOk (storage_publicUrl w storagePath) finalFilename
                 storagePath (Z.of_nat (length imageData)) uploadMode)
      end
  end.

Definition processImageUpload (w : World) (uploadData : UploadData)
    (imageFile : option ImageFile) : M UploadResult :=
  match imageFile with
  | Some file =>
      storeImage w uploadData (file_data file)
        (if JS.isEmpty (file_type file) then "application/octet-stream"
         else file_type file)
        "direct-upload"
  | None =>
      if truthy (imageUrl uploadData) then
        let* fetchResult :=
          (let '(r, t) :=
             fetchImageWithSessionHandling w
               (default EmptyString (imageUrl uploadData)) DEFAULT_MAX_RETRIES in
           (required r, t)) in
        match fetchResult with
        | FetchFail error details finalUrl =>
            if looksLikeHtml details
            then ret (UploadBotProtection error)
            else ret (UploadFail error (Some details) finalUrl)
        | FetchOk data contentType =>
            storeImage w uploadData data contentType "url-upload"
        end
      else
        ret (UploadFail "Either imageUrl or image file must be provided"
               None None)
  end.

(** Lines 592-638 of the request handler: validation, then the upload, with
    the handler's outer [catch]. *)
Inductive UploadReply : Type :=
| ValidationFailed (details : list string)   (* 400, 'Validation failed' *)
| UploadRejected (result : UploadResult)     (* 400 *)
| UploadAccepted (result : UploadResult)     (* 200, 'Upload successful' *)
| InternalError (details : string).          (* 500 *)

Definition handleUpload (w : World) (uploadData : UploadData)
    (imageFile : option ImageFile) : UploadReply * list Event :=
  let validationErrors := validateUploadData uploadData in
  if (0 <? length validationErrors)%nat then
    (ValidationFailed validationErrors, [])
  else
    match processImageUpload w uploadData imageFile with
    | (Ok (UploadOk u f p n m), t) => (UploadAccepted (UploadOk u f p n m), t)
    | (Ok result, t) => (UploadRejected result, t)
    | (Throws message, t) => (InternalError message, t)
    end.

(** ** The vision webhook ([src/README.md], second document) *)
Module Webhook.

Record Config : Type := {
  MAX_RETRIES : nat;
  INITIAL_DELAY : Z;
  RETRY_DELAY_BASE : Z;
  MAX_IMAGE_SIZE : Z;
  BUILDSHIP_TIMEOUT : Z;
  STORAGE_PROPAGATION_DELAY : Z
}.

Definition CONFIG : Config := {|
  MAX_RETRIES := 2;
  INITIAL_DELAY := 1000;
  RETRY_DELAY_BASE := 1000;
  MAX_IMAGE_SIZE := 10 * 1024 * 1024;
  BUILDSHIP_TIMEOUT := 120000;
  STORAGE_PROPAGATION_DELAY := 5000
|}.

(** The webhook payload, when it is an object, by the fields the code
    reads. *)
Record Payload : Type := {
  public_url : option string;
  filename : option string;
  branch : option string;
  date : option string;
  metadataId : option string
}.

Definition hexDigit : ascii → bool :=
  JS.anyOf [JS.isDigit; JS.inRange 97 102].

(** [/^[0-9a-f]{8}-[0-9a-f]{4}-[0-9a-f]{4}-[0-9a-f]{4}-[0-9a-f]{12}$/i] *)
Definition uuidRegex : JS.regex :=
  JS.icase
    (seqs [JS.rep 8 (JS.Cls hexDigit); JS.chr "-";
           JS.rep 4 (JS.Cls hexDigit); JS.chr "-";
           JS.rep 4 (JS.Cls hexDigit); JS.chr "-";
           JS.rep 4 (JS.Cls hexDigit); JS.chr "-";
           JS.rep 12 (JS.Cls hexDigit)]).

Definition missingField (name : string) (field : option string)
    : list string :=
  if truthy field then [] else ["Missing required field: " +:+ name].

(** [validatePayload url_valid payload]: [url_valid s] tells whether
    [new URL(s)] returns; [payload] is [None] when the parsed body is not
    an object. *)
Definition validatePayload (url_valid : string → bool)
    (payload : option Payload) : list string :=
  match payload with
  | None => ["Payload must be a valid object"]
  | Some payload =>
      missingField "public_url" (public_url payload)
      ++ missingField "filename" (filename payload)
      ++ missingField "branch" (branch payload)
      ++ missingField "date" (date payload)
      ++ missingField "metadataId" (metadataId payload)
      ++ match public_url payload with
         | Some u =>
             if JS.isEmpty u then []
             else if url_valid u then
               if negb (JS.includes "supabase.co" u)
                  && negb (JS.includes "storage" u)
               then ["public_url must be a valid Supabase storage URL"]
               else []
             else ["public_url must be a valid URL"]
         | None => []
         end
      ++ patternError (date payload) dateRegex
           "date must be in YYYY-MM-DD format"
      ++ patternError (filename payload) validFilenamePattern
           "filename must be alphanumeric with valid image extension"
      ++ patternError (metadataId payload) uuidRegex
           "metadataId must be a valid UUID"
  end.

(** Lines 189-203 of [fetchImageWithSupabaseClient]: the two size checks on
    the downloaded image, each returning a failure; [None] lets the
    download through. *)
Inductive SizeFailure : Type :=
| ImageTooLarge       (* 'Image too large: ...MB (max: ...MB)' *)
| DownloadedEmpty.    (* 'Downloaded file is empty' *)

Definition downloadedSizeFailure (cfg : Config) (imageSize : Z)
    : option SizeFailure :=
  if MAX_IMAGE_SIZE cfg <? imageSize then Some ImageTooLarge
  else if imageSize =? 0 then Some DownloadedEmpty
  else None.

(** *** The relay to BuildShip *)
Record ImageData : Type := {
  base64 : string;
  contentType : string;
  sizeBytes : Z
}.

Record BuildShipPayload : Type := {
  bs_imageUrl_file : option string;
  bs_imageBase64_file : string;
  bs_imageBase64_name : option string;
  bs_imageBase64_mimeType : string;
  bs_filename : option string;
  bs_branch : option string;
  bs_date : option string;
  bs_slip_id : option string;
  bs_imageSizeBytes : Z;
  bs_contentType : string;
  bs_uploadTimestamp : string;
  bs_metadataId : option string
}.

Record RelayResponse : Type := {
  r_status : Z;
  r_statusText : string;
  r_text : Try string   (* [response.text()] *)
}.

Definition r_ok (r : RelayResponse) : bool :=
  (200 <=? r_status r) && (r_status r <=? 299).

(** What one call of [fetch] comes to: a response, or a thrown error with
    its [name] and [message]. *)
Inductive RelayOutcome : Type :=
| Responded (r : RelayResponse)
| Failed (name message : string).

Record RelayWorld : Type := {
  relay : nat → BuildShipPayload → RelayOutcome; (* [fetch], per attempt *)
  elapsed : nat → Z;      (* [Date.now() - attemptStart], per attempt *)
  timestampISO : string   (* [new Date().toISOString()] *)
}.

Inductive RelayEvent : Type :=
| Posted (attempt : nat) (request : BuildShipPayload)
| Waited (ms : Z).

Inductive RelayResult : Type :=
| RelayOk (status : Z) (response : string) (attempts : nat) (duration : Z)
| RelayFail (status : option Z) (error : string) (details : option string)
    (attempts : nat) (duration : option Z).

Definition buildShipPayload (w : RelayWorld) (payload : Payload)
    (imageData : ImageData) : BuildShipPayload := {|
  bs_imageUrl_file := public_url payload;
  bs_imageBase64_file := base64 imageData;
  bs_imageBase64_name := filename payload;
  bs_imageBase64_mimeType := contentType imageData;
  bs_filename := filename payload;
  bs_branch := branch payload;
  bs_date := date payload;
  bs_slip_id := metadataId payload;
  bs_imageSizeBytes := sizeBytes imageData;
  bs_contentType := contentType imageData;
  bs_uploadTimestamp := timestampISO w;
  bs_metadataId :=
    if truthy (metadataId payload) then metadataId payload else None
|}.

Definition isClientError (status : Z) : bool :=
  (400 <=? status) && (status <? 500) && negb (status =? 429).

Definition isAbort (name message : string) : bool :=
  String.eqb name "AbortError" || JS.includes "aborted" message.

(** The [for] loop of [sendToBuildShip] from [attempt] on; [remaining]
    counts the values of [attempt] still within
    [attempt <= CONFIG.MAX_RETRIES]. *)
Fixpoint relayFrom (cfg : Config) (w : RelayWorld) (request : BuildShipPayload)
    (remaining attempt : nat) : RelayResult * list RelayEvent :=
  match remaining with
  | O =>
      (RelayFail None "All BuildShip attempts failed" None (MAX_RETRIES cfg)
         None, [])
  | S remaining' =>
      let attemptDuration := elapsed w attempt in
      let retryAfter (delay : Z) :=
        let '(r, t) := relayFrom cfg w request remaining' (S attempt) in
        (r, Posted attempt request :: Waited delay :: t) in
      let finish (r : RelayResult) := (r, [Posted attempt request]) in
      match relay w attempt request with
      | Responded response =>
          if r_ok response then
            let responseText :=
              match r_text response with
              | Ok t => t
              | Throws _ => "Unable to read response body"
              end in
            finish (RelayOk (r_status response) responseText attempt
                      attemptDuration)
          else
            let errorText :=
              match r_text response with
              | Ok t => t
              | Throws _ => "Unable to read error response"
              end in
            if isClientError (r_status response) then
              finish (RelayFail (Some (r_status response))
                        ("BuildShip client error: "
                         +:+ JS.showZ (r_status response) +:+ " "
                         +:+ r_statusText response)
                        (Some errorText) attempt (Some attemptDuration))
            else if (attempt <? MAX_RETRIES cfg)%nat then
              retryAfter (RETRY_DELAY_BASE cfg * Z.of_nat attempt)
            else
              finish (RelayFail (Some (r_status response))
                        ("BuildShip error: "
                         +:+ JS.showZ (r_status response) +:+ " "
                         +:+ r_statusText response)
                        (Some errorText) attempt (Some attemptDuration))
      | Failed name message =>
          if isAbort name message then
            if (attempt <? MAX_RETRIES cfg)%nat then
              retryAfter (RETRY_DELAY_BASE cfg)
            else
              finish (RelayFail None
                        ("BuildShip timeout after "
                         +:+ JS.showZ (BUILDSHIP_TIMEOUT cfg) +:+ "ms")
                        None attempt (Some attemptDuration))
          else if (attempt =? MAX_RETRIES cfg)%nat then
            finish (RelayFail None
                      ("BuildShip request failed: " +:+ message)
                      None attempt (Some attemptDuration))
          else retryAfter (RETRY_DELAY_BASE cfg * Z.of_nat attempt)
      end
  end.

Definition sendToBuildShipWith (cfg : Config) (w : RelayWorld)
    (payload : Payload) (imageData : ImageData)
    : RelayResult * list RelayEvent :=
  relayFrom cfg w (buildShipPayload w payload imageData) (MAX_RETRIES cfg) 1.

Definition sendToBuildShip : RelayWorld → Payload → ImageData →
    RelayResult * list RelayEvent :=
  sendToBuildShipWith CONFIG.

(** The number of times the relay was called in a run. *)
Definition posts (t : list RelayEvent) : nat :=
  length (List.filter (λ e, match e with Posted _ _ => true | _ => false end) t).

(** *** The classification of the specification

    Terminal: any 4xx other than 429.  Transient: 429, any 5xx, and any
    transport-level error or timeout. *)
Definition terminalFailure (o : RelayOutcome) : Prop :=
  match o with
  | Responded r => 400 <= r_status r <= 499 ∧ r_status r ≠ 429
  | Failed _ _ => False
  end.

Definition transientFailure (o : RelayOutcome) : Prop :=
  match o with
  | Responded r => r_status r = 429 ∨ 500 <= r_status r <= 599
  | Failed _ _ => True
  end.

(** The attempt count a result reports. *)
Definition attemptsOf (r : RelayResult) : nat :=
  match r with
  | RelayOk _ _ attempts _ => attempts
  | RelayFail _ _ _ attempts _ => attempts
  end.

Definition isFailure (r : RelayResult) : Prop :=
  match r with
  | RelayOk _ _ _ _ => False
  | RelayFail _ _ _ _ _ => True
  end.

(** That a failed result carries the error of the outcome [o]: the status,
    status text and body of a response, the message of a thrown error, or
    for an abort the timeout that caused it. *)
Definition carriesError (cfg : Config) (o : RelayOutcome) (r : RelayResult)
    : Prop :=
  match o, r with
  | Responded resp, RelayFail (Some st) error (Some details) _ _ =>
      st = r_status resp
      ∧ (∃ label, error = label +:+ JS.showZ (r_status resp) +:+ " "
                          +:+ r_statusText resp)
      ∧ details = match r_text resp with
                  | Ok t => t
                  | Throws _ => "Unable to read error response"
                  end
  | Failed name message, RelayFail None error None _ _ =>
      if isAbort name message
      then error = "BuildShip timeout after "
                   +:+ JS.showZ (BUILDSHIP_TIMEOUT cfg) +:+ "ms"
      else error = "BuildShip request failed: " +:+ message
  | _, _ => False
  end.

(** *** UUID version 4, as RFC 4122 writes it: the generic shape with
    version digit 4 and a variant digit among 8, 9, a, b. *)
Definition uuidV4Regex : JS.regex :=
  JS.icase
    (seqs [JS.rep 8 (JS.Cls hexDigit); JS.chr "-";
           JS.rep 4 (JS.Cls hexDigit); JS.chr "-";
           JS.chr "4"; JS.rep 3 (JS.Cls hexDigit); JS.chr "-";
           JS.Cls (JS.anyOf [Ascii.eqb "8"; Ascii.eqb "9";
                             Ascii.eqb "a"; Ascii.eqb "b"]);
           JS.rep 3 (JS.Cls hexDigit); JS.chr "-";
           JS.rep 12 (JS.Cls hexDigit)]).

Definition isUuidV4 (s : string) : bool := JS.test uuidV4Regex s.

End Webhook.


(** A run of checks, as [(clientIP, now)] pairs in the order of the calls. *)
Definition runChecks (checks : list (string * Z))
    (store : gmap string ClientData) : gmap string ClientData :=
  fold_left (λ st check, (checkRateLimit check.1 check.2 st).2) checks store.

(** The instant the entry of a key was last cleaned, as [checkRateLimit]
    reads it: that of a fresh entry is [now]. *)
Definition cleanedAt (store : gmap string ClientData) (clientIP : string)
    (now : Z) : Z :=
  match store !! clientIP with
  | Some data => lastCleanup data
  | None => now
  end.

Definition isAllowed (r : RateLimitResult) : bool :=
  match r with
  | Allowed => true
  | Denied _ => false
  end.

(** A well-formed webhook payload whose [metadataId] is a version-1 UUID. *)
Definition webhookPayloadV1 : Webhook.Payload := {|
  Webhook.public_url :=
    Some "https://abc.supabase.co/storage/v1/object/public/edge-slips/main/2024-01-15/photo_ab12cd34.jpg";
  Webhook.filename := Some "photo_ab12cd34.jpg";
  Webhook.branch := Some "main";
  Webhook.date := Some "2024-01-15";
  Webhook.metadataId := Some "123e4567-e89b-12d3-a456-426614174000"
|}.

(** ** Sample inputs *)

Definition examplePayload : UploadData :=
  {| branch := Some "main"; date := Some "2024-13-40";
     filename := Some "a.txt"; imageUrl := None |}.

(** A world whose origin answers every request with an HTML challenge
    page. *)
Definition challengePage : Response := {|
  status := 200;
  statusText := "OK";
  resp_url := "https://cdn.example.com/slips/1.png";
  hdr_getSetCookie := Some ["sid=abc; Path=/; HttpOnly"];
  hdr_setCookie := None;
  hdr_location := None;
  hdr_contentType := Some "text/html";
  body :=
    Some (Ok "<!DOCTYPE html><html><body>Checking your browser</body></html>")
|}.

Definition challengeWorld : World := {|
  url_origin := λ _, Ok "https://cdn.example.com";
  url_resolve := λ location _, Ok location;
  net := λ _ _ _, Ok challengePage;
  randomUUID := "123e4567-e89b-42d3-a456-426614174000";
  storage_upload := λ _ _ _, None;
  storage_publicUrl := λ path,
    "https://abc.supabase.co/storage/v1/object/public/edge-slips/" +:+ path
|}.

Definition sampleFile : ImageFile :=
  {| file_data := [Byte.x89; Byte.x50; Byte.x4e; Byte.x47];
     file_type := "image/png"; file_name := "photo.png" |}.

(** A relay that answers 503 to every attempt. *)
Definition busyRelay : Webhook.RelayWorld := {|
  Webhook.relay := λ _ _,
    Webhook.Responded
      {| Webhook.r_status := 503;
         Webhook.r_statusText := "Service Unavailable";
         Webhook.r_text := Ok "busy" |};
  Webhook.elapsed := λ _, 40;
  Webhook.timestampISO := "2024-01-15T00:00:00.000Z"
|}.

Definition sampleImageData : Webhook.ImageData :=
  {| Webhook.base64 := "iVBORw=="; Webhook.contentType := "image/png";
     Webhook.sizeBytes := 4 |}.

(** The store after thirty admitted checks of one key, at the instants
    1..30. *)
Definition busyClient : string := "203.0.113.7".

Definition fullStore : gmap string ClientData :=
  runChecks (List.map (λ i, (busyClient, Z.of_nat i)) (seq 1 30)) ∅.

(** The store after two checks of one key and one of another. *)
Definition sweepStore : gmap string ClientData :=
  runChecks [("198.51.100.2", 0); ("198.51.100.2", 59999);
             ("198.51.100.1", 60000)] ∅.


(** ** Further notions used by the properties below *)

(** That every character class of a pattern lies within [P]. *)
Fixpoint classesWithin (P : ascii → bool) (r : JS.regex) : Prop :=
  match r with
  | JS.Cls p => ∀ c, p c = true → P c = true
  | JS.Seq r1 r2 => classesWithin P r1 ∧ classesWithin P r2
  | JS.Alt r1 r2 => classesWithin P r1 ∧ classesWithin P r2
  | JS.Star r1 => classesWithin P r1
  | JS.Void => True
  | JS.Eps => True
  end.

(** A pattern that visibly matches nothing. *)
Fixpoint dead (r : JS.regex) : bool :=
  match r with
  | JS.Void => true
  | JS.Eps => false
  | JS.Cls _ => false
  | JS.Seq r1 r2 => dead r1 || dead r2
  | JS.Alt r1 r2 => dead r1 && dead r2
  | JS.Star _ => false
  end.

(** [[A-Za-z0-9_.-]], the characters of an accepted filename; the digits and
    the dash of a date; and every character but the slash. *)
Definition isFilenameChar (c : ascii) : bool :=
  JS.isLower c || JS.isUpper c || JS.isDigit c
  || Ascii.eqb c "-" || Ascii.eqb c "_" || Ascii.eqb c ".".

Definition isDateChar (c : ascii) : bool := JS.isDigit c || Ascii.eqb c "-".

Definition isUuidChar (c : ascii) : bool :=
  JS.isDigit c || JS.inRange 97 102 c || JS.inRange 65 70 c || Ascii.eqb c "-".

Definition notSlash (c : ascii) : bool := negb (Ascii.eqb c "/").

(** What the requests of a fetch look like, step by step; a fetch writes
    nothing to storage. *)
Definition requestDiscipline (url : string) (e : Event) : Prop :=
  match e with
  | Fetched OriginVisit req =>
      req_redirect req = Follow ∧ req_cookie req = None
      ∧ req_referer req = None
  | Fetched Probe req => req_url req = url ∧ req_redirect req = Manual
  | Fetched Verification req =>
      req_redirect req = Follow
      ∧ JS.includes "redirect" (req_url req) = true
  | Fetched FinalFetch req =>
      req_url req = url ∧ req_redirect req = Follow
      ∧ ∃ cookies, NoDup cookies
                   ∧ req_cookie req = Some (JS.join "; " cookies)
  | Slept _ => True
  | AttemptStarted _ => True
  | StorageUploaded _ _ _ => False
  end.

(** That an event is no pause other than the one after a verification
    page. *)
Definition noBackoff (e : Event) : Prop :=
  match e with
  | Slept ms => ms = 1500
  | _ => True
  end.

Definition isFetch (e : Event) : bool :=
  match e with Fetched _ _ => true | _ => false end.

Definition isStorageWrite (e : Event) : bool :=
  match e with StorageUploaded _ _ _ => true | _ => false end.

Definition storageWrites (t : list Event) : list Event :=
  List.filter isStorageWrite t.

(** That every entry of the store holds at least one and at most
    [RATE_LIMIT_MAX_REQUESTS] timestamps. *)
Definition boundedStore (store : gmap string ClientData) : Prop :=
  ∀ clientIP data,
    store !! clientIP = Some data →
    (1 <= length (requests data) <= RATE_LIMIT_MAX_REQUESTS)%nat.

(** ** The request handler of [uploadSlip.ts] (lines 401-652) *)

(** [s.substring(n)] for [n >= 0]. *)
Fixpoint substringFrom (n : nat) (s : string) : string :=
  match n, s with
  | S n', String _ s' => substringFrom n' s'
  | _, _ => s
  end.

(** The value of a form field: a file, or text. *)
Inductive FormValue : Type :=
| FileValue (file : ImageFile)
| TextValue (text : string).

(** What [req.formData()] gives, by the fields the handler reads; [branch],
    [date] and [filename] are taken as text fields. *)
Record FormData : Type := {
  form_image : option FormValue;
  form_branch : option string;
  form_date : option string;
  form_filename : option string
}.

(** A request, by what the handler reads of it.  [req_form] and [req_json]
    are what [req.formData()] and [req.json()] would give; [req_json] is
    [Ok None] for a body that parses to [null]. *)
Record HttpRequest : Type := {
  req_method : string;
  req_pathname : string;                (* [new URL(req.url).pathname] *)
  req_queryUrl : option string;         (* [searchParams.get('url')] *)
  req_forwardedFor : option string;     (* header [x-forwarded-for] *)
  req_realIp : option string;           (* header [x-real-ip] *)
  req_authorization : option string;    (* header [Authorization] *)
  req_contentType : option string;      (* header [Content-Type] *)
  req_form : Try FormData;
  req_json : Try (option UploadData)
}.

Record Env : Type := {
  SUPABASE_URL : option string;
  SUPABASE_ANON_KEY : option string;
  SUPABASE_SERVICE_ROLE_KEY : option string;
  UPLOAD_SECRET : option string
}.

(** The response of the origin to the proxy's request. *)
Record ProxyResponse : Type := {
  proxy_status : Z;
  proxy_contentType : option string;
  proxy_contentLength : option string;
  proxy_body : list Byte.byte
}.

Definition proxy_ok (r : ProxyResponse) : bool :=
  (200 <=? proxy_status r) && (proxy_status r <=? 299).

(** What the handler needs beside the world of the upload: the two readings
    of the clock of a rate-limited request, and the origin behind the
    proxy. *)
Record ServeWorld : Type := {
  upload_world : World;
  clock : Z;      (* [Date.now()] inside [checkRateLimit] *)
  clock' : Z;     (* [Date.now()] for the [Retry-After] header *)
  proxy_fetch : string → Try ProxyResponse;
  responseError : Z → string  (* the message of what [new Response] throws
                                 for a status it refuses *)
}.

(** Whether [new Response(body, { status })] accepts [status] for a body
    that is not null: it throws a [RangeError] outside 200..599 and a
    [TypeError] for a null body status. *)
Definition acceptsBody (status : Z) : bool :=
  (200 <=? status) && (status <=? 599)
  && negb ((status =? 204) || (status =? 205) || (status =? 304)).

Inductive Reply : Type :=
| ProxyMissingUrl                             (* 400 *)
| ProxyUpstream (status : Z)                  (* the status of the origin *)
| ProxyImage (contentType : string) (contentLength : option string)
    (content : list Byte.byte)                (* 200 *)
| ProxyError (message : string)               (* 500 *)
| Preflight                                   (* 200, the CORS headers *)
| MethodNotAllowed                            (* 405 *)
| RateLimited (resetTime : Z) (retryAfterSeconds : Z)  (* 429 *)
| ConfigurationError                          (* 500 *)
| Unauthorized (error : string)               (* 401 *)
| ImageRequired                               (* 400 *)
| InvalidJson                                 (* 400 *)
| Uploading (reply : UploadReply)             (* 400, 200 or 500 *)
| InternalServerError (details : string).     (* 500 *)

Definition statusOf (reply : Reply) : Z :=
  match reply with
  | ProxyMissingUrl => 400
  | ProxyUpstream status => status
  | ProxyImage _ _ _ => 200
  | ProxyError _ => 500
  | Preflight => 200
  | MethodNotAllowed => 405
  | RateLimited _ _ => 429
  | ConfigurationError => 500
  | Unauthorized _ => 401
  | ImageRequired => 400
  | InvalidJson => 400
  | Uploading (ValidationFailed _) => 400
  | Uploading (UploadRejected _) => 400
  | Uploading (UploadAccepted _) => 200
  | Uploading (InternalError _) => 500
  | InternalServerError _ => 500
  end.

(** [a || b] on possibly missing strings. *)
Definition orElse (a : option string) (b : string) : string :=
  match a with
  | Some s => if JS.isEmpty s then b else s
  | None => b
  end.

(** [Math.ceil(ms / 1000)]. *)
Definition ceilSeconds (ms : Z) : Z := - ((- ms) / 1000).

(** Lines 404-452: the image proxy.  The reply to a failed fetch is built
    inside the [try], so a status that [new Response] refuses ends in the
    [catch]. *)
Definition imageProxy (sw : ServeWorld) (req : HttpRequest) : Reply :=
  match req_queryUrl req with
  | Some imageUrl =>
      if JS.isEmpty imageUrl then ProxyMissingUrl
      else
        match proxy_fetch sw imageUrl with
        | Ok imageResponse =>
            if proxy_ok imageResponse then
              ProxyImage (orElse (proxy_contentType imageResponse) "image/jpeg")
                (proxy_contentLength imageResponse)
                (proxy_body imageResponse)
            else if acceptsBody (proxy_status imageResponse)
            then ProxyUpstream (proxy_status imageResponse)
            else ProxyError (responseError sw (proxy_status imageResponse))
        | Throws message => ProxyError message
        end
  | None => ProxyMissingUrl
  end.

(** Lines 549-638: the body is read as a form or as JSON, then validated and
    processed. *)
Definition parseAndUpload (sw : ServeWorld) (req : HttpRequest)
    : Reply * list Event :=
  if JS.includes "multipart/form-data" (orElse (req_contentType req) EmptyString)
  then
    match req_form req with
    | Throws message => (InternalServerError message, [])
    | Ok formData =>
        let uploadData :=
          {| branch := form_branch formData; date := form_date formData;
             filename := form_filename formData; imageUrl := None |} in
        match form_image formData with
        | None => (ImageRequired, [])
        | Some (TextValue text) =>
            if JS.isEmpty text then (ImageRequired, [])
            else if (0 <? length (validateUploadData uploadData))%nat
            then (Uploading (ValidationFailed (validateUploadData uploadData)),
                  [])
            else (InternalServerError "imageFile.arrayBuffer is not a function",
                  [])
        | Some (FileValue file) =>
            let '(reply, t) :=
              handleUpload (upload_world sw) uploadData (Some file) in
            (Uploading reply, t)
        end
    end
  else
    match req_json req with
    | Throws _ => (InvalidJson, [])
    | Ok None =>
        (InternalServerError "Cannot read properties of null (reading 'branch')",
         [])
    | Ok (Some uploadData) =>
        let '(reply, t) := handleUpload (upload_world sw) uploadData None in
        (Uploading reply, t)
    end.

(** The key a request is rate-limited under. *)
Definition clientKey (req : HttpRequest) : string :=
  orElse (req_forwardedFor req) (orElse (req_realIp req) "unknown").

(** The handler: the reply, the rate-limit store after the request, and the
    events of the upload. *)
Definition serve (sw : ServeWorld) (env : Env)
    (store : gmap string ClientData) (req : HttpRequest)
    : Reply * gmap string ClientData * list Event :=
  if String.eqb (req_method req) "GET"
     && JS.startsWith "/image-proxy" (req_pathname req)
  then (imageProxy sw req, store, [])
  else if String.eqb (req_method req) "OPTIONS" then (Preflight, store, [])
  else if negb (String.eqb (req_method req) "POST")
  then (MethodNotAllowed, store, [])
  else
    let clientIP := clientKey req in
    let '(rateLimitResult, store') := checkRateLimit clientIP (clock sw) store in
    match rateLimitResult with
    | Denied None =>
        (* [new Date(NaN).toISOString()] throws *)
        (InternalServerError "Invalid time value", store', [])
    | Denied (Some resetTime) =>
        (RateLimited resetTime (ceilSeconds (resetTime - clock' sw)),
         store', [])
    | Allowed =>
        if negb (truthy (SUPABASE_URL env) && truthy (SUPABASE_ANON_KEY env)
                 && truthy (SUPABASE_SERVICE_ROLE_KEY env)
                 && truthy (UPLOAD_SECRET env))
        then (ConfigurationError, store', [])
        else
          match req_authorization req with
          | Some authHeader =>
              if negb (JS.startsWith "Bearer " authHeader)
                 || JS.isEmpty authHeader
              then (Unauthorized "Unauthorized - Bearer token required",
                    store', [])
              else if negb (String.eqb (substringFrom 7 authHeader)
                              (default EmptyString (UPLOAD_SECRET env)))
              then (Unauthorized "Unauthorized - Invalid token", store', [])
              else
                let '(reply, t) := parseAndUpload sw req in
                (reply, store', t)
          | None =>
              (Unauthorized "Unauthorized - Bearer token required", store', [])
          end
    end.


(** The results of a run of checks of one key, with the store after it. *)
Fixpoint checkEach (clientIP : string) (instants : list Z)
    (store : gmap string ClientData)
    : list RateLimitResult * gmap string ClientData :=
  match instants with
  | [] => ([], store)
  | now :: rest =>
      let '(r, store') := checkRateLimit clientIP now store in
      let '(rs, store'') := checkEach clientIP rest store' in
      (r :: rs, store'')
  end.

(** ** The rest of the vision webhook: the download and the handler *)
Module Vision.

Import Webhook.

(** [s.split(sep)] for a separator of several characters.  [fuel] bounds
    the number of steps; the length of [s] is enough. *)
Fixpoint splitOnGo (fuel : nat) (sep cur s : string) : list string :=
  match fuel with
  | O => [JS.rev_onto cur EmptyString]
  | S fuel' =>
      match s with
      | EmptyString => [JS.rev_onto cur EmptyString]
      | String c s' =>
          if JS.startsWith sep s
          then JS.rev_onto cur EmptyString
               :: splitOnGo fuel' sep EmptyString
                    (substringFrom (String.length sep) s)
          else splitOnGo fuel' sep (String c cur) s'
      end
  end.

Definition splitOn (sep s : string) : list string :=
  splitOnGo (String.length s) sep EmptyString s.

Definition publicMarker : string := "/storage/v1/object/public/".

(** The blob a download returns. *)
Record Blob : Type := {
  blob_bytes : Try (list Byte.byte);   (* [arrayBuffer()] *)
  blob_type : string                    (* [type] *)
}.

(** What [supabase.storage.from(bucket).download(filePath)] comes to. *)
Inductive Download : Type :=
| StorageError (message : string)   (* [error] set *)
| NoData                            (* neither [error] nor [data] *)
| Downloaded (data : Blob)
| DownloadThrew (message : string).

Record DownloadWorld : Type := {
  download : nat → string → string → Download;  (* per attempt, bucket, path *)
  btoa : string → Try string
}.

Inductive DownloadEvent : Type :=
| Paused (ms : Z)
| Requested (attempt : nat) (bucket filePath : string).

(** Why a download failed; the messages of the source are in the
    comments. *)
Inductive DownloadFailure : Type :=
| InvalidUrlFormat                 (* 'Invalid public URL format' *)
| StorageFailed (message : string) (* 'Supabase storage error: ...' *)
| NoDataReturned                   (* 'No data returned from storage' *)
| TooLarge (imageSize : Z)         (* 'Image too large: ...' *)
| EmptyDownload                    (* 'Downloaded file is empty' *)
| Base64Failed (message : string)  (* 'Base64 conversion failed: ...' *)
| Threw (message : string)         (* the message of the error *)
| RetriesExceeded.                 (* 'Maximum retries exceeded' *)

Inductive DownloadResult : Type :=
| DownloadOk (imageData : ImageData)
| DownloadFail (error : DownloadFailure) (attempts : option nat).

Definition chunkSize : nat := Z.to_nat 8192.

(** Lines 209-213: the binary string, built chunk by chunk.  [fuel] bounds
    the number of chunks; the number of bytes is enough. *)
Fixpoint binaryStringGo (fuel : nat) (bytes : list Byte.byte) : string :=
  match fuel with
  | O => EmptyString
  | S fuel' =>
      match bytes with
      | [] => EmptyString
      | _ =>
          string_of_list_byte (firstn chunkSize bytes)
          +:+ binaryStringGo fuel' (skipn chunkSize bytes)
      end
  end.

Definition binaryString (bytes : list Byte.byte) : string :=
  binaryStringGo (length bytes) bytes.

(** Lines 181-237: what is done with a downloaded blob. *)
Definition acceptBlob (cfg : Config) (w : DownloadWorld) (data : Blob)
    (attempt : nat) : Try DownloadResult :=
  match blob_bytes data with
  | Throws message => Throws message
  | Ok bytes =>
      let imageSize := Z.of_nat (length bytes) in
      if MAX_IMAGE_SIZE cfg <? imageSize
      then Ok (DownloadFail (TooLarge imageSize) (Some attempt))
      else if imageSize =? 0
      then Ok (DownloadFail EmptyDownload (Some attempt))
      else
        match btoa w (binaryString bytes) with
        | Throws message =>
            Ok (DownloadFail (Base64Failed message) (Some attempt))
        | Ok encoded =>
            Ok (DownloadOk
                  {| base64 := encoded;
                     contentType :=
                       if JS.isEmpty (blob_type data) then "image/jpeg"
                       else blob_type data;
                     sizeBytes := imageSize |})
        end
  end.

(** The [for] loop of [fetchImageWithSupabaseClient] from [attempt] on;
    [remaining] counts the values of [attempt] still within
    [attempt <= CONFIG.MAX_RETRIES]. *)
Fixpoint downloadFrom (cfg : Config) (w : DownloadWorld)
    (bucket filePath : string) (remaining attempt : nat)
    : DownloadResult * list DownloadEvent :=
  match remaining with
  | O => (DownloadFail RetriesExceeded (Some (MAX_RETRIES cfg)), [])
  | S remaining' =>
      let retry :=
        let '(r, t) :=
          downloadFrom cfg w bucket filePath remaining' (S attempt) in
        (r, Requested attempt bucket filePath
            :: Paused (RETRY_DELAY_BASE cfg * Z.of_nat attempt) :: t) in
      let finish (r : DownloadResult) :=
        (r, [Requested attempt bucket filePath]) in
      let giveUpOrRetry (error : DownloadFailure) :=
        if (attempt <? MAX_RETRIES cfg)%nat then retry
        else finish (DownloadFail error (Some attempt)) in
      match download w attempt bucket filePath with
      | StorageError message => giveUpOrRetry (StorageFailed message)
      | NoData => giveUpOrRetry NoDataReturned
      | Downloaded data =>
          match acceptBlob cfg w data attempt with
          | Ok r => finish r
          | Throws message =>
              if (attempt =? MAX_RETRIES cfg)%nat
              then finish (DownloadFail (Threw message) (Some attempt))
              else retry
          end
      | DownloadThrew message =>
          if (attempt =? MAX_RETRIES cfg)%nat
          then finish (DownloadFail (Threw message) (Some attempt))
          else retry
      end
  end.

Definition fetchImageWithSupabaseClient (cfg : Config) (w : DownloadWorld)
    (url : string) : DownloadResult * list DownloadEvent :=
  match splitOn publicMarker url with
  | [_; objectPath] =>
      match JS.split "/" objectPath with
      | bucket :: pathParts =>
          let filePath := JS.join "/" pathParts in
          let '(r, t) :=
            downloadFrom cfg w bucket filePath (MAX_RETRIES cfg) 1 in
          (r, Paused (STORAGE_PROPAGATION_DELAY cfg) :: t)
      | [] => (DownloadFail InvalidUrlFormat None, [])
      end
  | _ => (DownloadFail InvalidUrlFormat None, [])
  end.

Definition requests (t : list DownloadEvent) : list DownloadEvent :=
  List.filter (λ e, match e with Requested _ _ _ => true | _ => false end) t.

(** *** The handler (lines 423-621) *)
Record WebhookRequest : Type := {
  wh_method : string;
  wh_body : Try (option Payload)  (* [JSON.parse(await req.text())];
                                     [Ok None]: not an object *)
}.

Record WebhookEnv : Type := {
  supabaseUrl : option string;
  supabaseAnonKey : option string;
  supabaseServiceKey : option string
}.

Record WebhookWorld : Type := {
  url_valid : string → bool;     (* whether [new URL(s)] returns *)
  storage : DownloadWorld;
  buildShip : RelayWorld
}.

Inductive WebhookReply : Type :=
| WhPreflight                                      (* 200 *)
| WhMethodNotAllowed                               (* 405 *)
| WhConfigurationError                             (* 500 *)
| WhInvalidJson (details : string)                 (* 400 *)
| WhValidationFailed (details : list string)       (* 400 *)
| WhFetchFailed (error : DownloadFailure)          (* 500 *)
| WhRelayFailed (result : RelayResult)             (* 500 *)
| WhProcessed (imageData : ImageData) (result : RelayResult).  (* 200 *)

Definition serve (cfg : Config) (w : WebhookWorld) (env : WebhookEnv)
    (req : WebhookRequest)
    : WebhookReply * list DownloadEvent * list RelayEvent :=
  if String.eqb (wh_method req) "OPTIONS" then (WhPreflight, [], [])
  else if negb (String.eqb (wh_method req) "POST")
  then (WhMethodNotAllowed, [], [])
  else if negb (truthy (supabaseUrl env) && truthy (supabaseAnonKey env)
                && truthy (supabaseServiceKey env))
  then (WhConfigurationError, [], [])
  else
    match wh_body req with
    | Throws message => (WhInvalidJson message, [], [])
    | Ok payload =>
        let validationErrors := validatePayload (url_valid w) payload in
        if (0 <? length validationErrors)%nat
        then (WhValidationFailed validationErrors, [], [])
        else
          match payload with
          | None => (WhValidationFailed validationErrors, [], [])
          | Some payload =>
              let '(fetchResult, downloads) :=
                fetchImageWithSupabaseClient cfg (storage w)
                  (default EmptyString (public_url payload)) in
              match fetchResult with
              | DownloadFail error _ => (WhFetchFailed error, downloads, [])
              | DownloadOk imageData =>
                  let '(buildShipResult, posted) :=
                    sendToBuildShipWith cfg (buildShip w) payload imageData in
                  match buildShipResult with
                  | RelayFail _ _ _ _ _ =>
                      (WhRelayFailed buildShipResult, downloads, posted)
                  | RelayOk _ _ _ _ =>
                      (WhProcessed imageData buildShipResult, downloads,
                       posted)
                  end
              end
          end
    end.

End Vision.
(** ** Further sample inputs *)

(** A world whose origin answers every request with [page]. *)
Definition worldAnswering (page : Response) : World := {|
  url_origin := λ _, Ok "https://cdn.example.com";
  url_resolve := λ location _, Ok location;
  net := λ _ _ _, Ok page;
  randomUUID := "123e4567-e89b-42d3-a456-426614174000";
  storage_upload := λ _ _ _, None;
  storage_publicUrl := λ path,
    "https://abc.supabase.co/storage/v1/object/public/edge-slips/" +:+ path
|}.

Definition unavailablePage : Response := {|
  status := 503;
  statusText := "Service Unavailable";
  resp_url := "https://cdn.example.com/slips/1.png";
  hdr_getSetCookie := None;
  hdr_setCookie := None;
  hdr_location := None;
  hdr_contentType := Some "text/plain";
  body := Some (Ok "upstream unavailable")
|}.

Definition jsonPage : Response := {|
  status := 200;
  statusText := "OK";
  resp_url := "https://cdn.example.com/slips/1.png";
  hdr_getSetCookie := None;
  hdr_setCookie := None;
  hdr_location := None;
  hdr_contentType := Some "application/json";
  body := Some (Ok "{}")
|}.

(** A world in which no URL can be parsed. *)
Definition unparsableWorld : World := {|
  url_origin := λ _, Throws "Invalid URL";
  url_resolve := λ _ _, Throws "Invalid URL";
  net := λ _ _ _, Ok jsonPage;
  randomUUID := "123e4567-e89b-42d3-a456-426614174000";
  storage_upload := λ _ _ _, None;
  storage_publicUrl := λ path, path
|}.

Definition sampleUrl : string := "https://cdn.example.com/slips/1.png".

Definition urlUpload : UploadData :=
  {| branch := Some "main"; date := Some "2024-01-15";
     filename := Some "photo.png"; imageUrl := Some sampleUrl |}.

Definition directUpload : UploadData :=
  {| branch := Some "Main Street"; date := Some "2024-01-15";
     filename := Some "photo.png"; imageUrl := None |}.

(** The entry of [busyClient] in [fullStore]. *)
Definition fullEntry : ClientData :=
  {| requests := List.map Z.of_nat (seq 1 30); lastCleanup := 1 |}.

(** A relay that answers 503 to the first attempt and 200 afterwards. *)
Definition relayAccepted : Webhook.RelayResponse :=
  {| Webhook.r_status := 200; Webhook.r_statusText := "OK";
     Webhook.r_text := Ok "done" |}.

Definition recoveringRelay : Webhook.RelayWorld := {|
  Webhook.relay := λ attempt _,
    if (attempt <? 2)%nat
    then Webhook.Responded
           {| Webhook.r_status := 503;
              Webhook.r_statusText := "Service Unavailable";
              Webhook.r_text := Ok "busy" |}
    else Webhook.Responded relayAccepted;
  Webhook.elapsed := λ _, 40;
  Webhook.timestampISO := "2024-01-15T00:00:00.000Z"
|}.

(** The handler of the upload function at the instant 31, with a proxied
    origin that serves a PNG. *)
Definition sampleServeWorld : ServeWorld := {|
  upload_world := challengeWorld;
  clock := 31;
  clock' := 40;
  proxy_fetch := λ _,
    Ok {| proxy_status := 200; proxy_contentType := Some "image/png";
          proxy_contentLength := Some "4";
          proxy_body := file_data sampleFile |};
  responseError := λ _, "The status provided is not valid"
|}.

Definition sampleEnv : Env := {|
  SUPABASE_URL := Some "https://abc.supabase.co";
  SUPABASE_ANON_KEY := Some "anon";
  SUPABASE_SERVICE_ROLE_KEY := Some "service";
  UPLOAD_SECRET := Some "s3cret"
|}.

Definition emptyEnv : Env := {|
  SUPABASE_URL := None;
  SUPABASE_ANON_KEY := None;
  SUPABASE_SERVICE_ROLE_KEY := None;
  UPLOAD_SECRET := None
|}.

Definition proxyRequest : HttpRequest := {|
  req_method := "GET";
  req_pathname := "/image-proxy";
  req_queryUrl := Some sampleUrl;
  req_forwardedFor := Some busyClient;
  req_realIp := None;
  req_authorization := None;
  req_contentType := None;
  req_form := Throws "Missing content type";
  req_json := Throws "Unexpected end of JSON input"
|}.

(** A [POST] of [busyClient] with the token of [sampleEnv] and a JSON
    body. *)
Definition uploadRequest : HttpRequest := {|
  req_method := "POST";
  req_pathname := "/";
  req_queryUrl := None;
  req_forwardedFor := Some busyClient;
  req_realIp := None;
  req_authorization := Some "Bearer s3cret";
  req_contentType := Some "application/json";
  req_form := Throws "Body can not be decoded as form data";
  req_json := Ok (Some examplePayload)
|}.

(** Storage that returns the bytes of [sampleFile] for every download. *)
Definition sampleStorage : Vision.DownloadWorld := {|
  Vision.download := λ _ _ _,
    Vision.Downloaded
      {| Vision.blob_bytes := Ok (file_data sampleFile);
         Vision.blob_type := "image/png" |};
  Vision.btoa := λ _, Ok "iVBORw=="
|}.

Definition sampleWebhookWorld : Vision.WebhookWorld := {|
  Vision.url_valid := JS.startsWith "https://";
  Vision.storage := sampleStorage;
  Vision.buildShip := busyRelay
|}.

Definition sampleWebhookEnv : Vision.WebhookEnv := {|
  Vision.supabaseUrl := Some "https://abc.supabase.co";
  Vision.supabaseAnonKey := Some "anon";
  Vision.supabaseServiceKey := Some "service"
|}.

Definition sampleWebhookRequest : Vision.WebhookRequest := {|
  Vision.wh_method := "POST";
  Vision.wh_body := Ok (Some webhookPayloadV1)
|}.

Definition sampleObjectUrl : string :=
  "https://abc.supabase.co/storage/v1/object/public/edge-slips/main/2024-01-15/photo_ab12cd34.jpg".

(** * Properties *)

(** ** Characters and strings *)
Section Strings.

Lemma slug_not_space c : isSlugChar c = true → JS.isSpace c = false.
Proof.
  destruct c as [[] [] [] [] [] [] [] []]; vm_compute; congruence.
Qed.

Lemma slug_lower_fixed c : isSlugChar c = true → JS.toLowerChar c = c.
Proof.
  destruct c as [[] [] [] [] [] [] [] []]; vm_compute; congruence.
Qed.

Lemma lower_keeps_space c : JS.isSpace (JS.toLowerChar c) = JS.isSpace c.
Proof.
  destruct c as [[] [] [] [] [] [] [] []]; reflexivity.
Qed.

Lemma sforall_impl (p q : ascii → bool) s :
  (∀ c, p c = true → q c = true) →
  JS.sforall p s = true → JS.sforall q s = true.
Proof.
  intros Hpq. induction s as [|c s IH]; simpl; [done|].
  rewrite !andb_true_iff. intros [Hc Hs]. split; auto.
Qed.

Lemma trimStart_no_space s :
  JS.sforall (λ c, negb (JS.isSpace c)) s = true → JS.trimStart s = s.
Proof.
  destruct s as [|c s]; simpl; [done|].
  rewrite andb_true_iff, negb_true_iff. by intros [-> _].
Qed.

Lemma trimEnd_no_space s :
  JS.sforall (λ c, negb (JS.isSpace c)) s = true → JS.trimEnd s = s.
Proof.
  induction s as [|c s IH]; simpl; [done|].
  rewrite andb_true_iff, negb_true_iff. intros [-> Hs].
  simpl. by rewrite IH.
Qed.

Lemma trim_no_space s :
  JS.sforall (λ c, negb (JS.isSpace c)) s = true → JS.trim s = s.
Proof.
  intros H. unfold JS.trim. rewrite trimStart_no_space by done.
  by apply trimEnd_no_space.
Qed.

Lemma replaceRuns_no_match cls by_ b s :
  JS.sforall (λ c, negb (cls c)) s = true → JS.replaceRuns cls by_ b s = s.
Proof.
  revert b. induction s as [|c s IH]; intros b; simpl; [done|].
  rewrite andb_true_iff, negb_true_iff. intros [-> Hs]. by rewrite IH.
Qed.

Lemma removeAll_no_match cls s :
  JS.sforall (λ c, negb (cls c)) s = true → JS.removeAll cls s = s.
Proof.
  induction s as [|c s IH]; simpl; [done|].
  rewrite andb_true_iff, negb_true_iff. intros [-> Hs]. by rewrite IH.
Qed.

Lemma removeAll_all_match cls s :
  JS.sforall cls s = true → JS.removeAll cls s = EmptyString.
Proof.
  induction s as [|c s IH]; simpl; [done|].
  rewrite andb_true_iff. intros [-> Hs]. by apply IH.
Qed.

Lemma removeAll_rest cls s :
  JS.sforall (λ c, negb (cls c)) (JS.removeAll cls s) = true.
Proof.
  induction s as [|c s IH]; simpl; [done|].
  destruct (cls c) eqn:E; simpl; [done|]. by rewrite E, IH.
Qed.

Lemma toLowerCase_slug s :
  JS.sforall isSlugChar s = true → JS.toLowerCase s = s.
Proof.
  induction s as [|c s IH]; simpl; [done|].
  rewrite andb_true_iff. intros [Hc Hs].
  unfold JS.toLowerCase in *. simpl. by rewrite slug_lower_fixed, IH.
Qed.

Lemma toLowerCase_no_space s :
  JS.sforall (λ c, negb (JS.isSpace c)) s = true →
  JS.sforall (λ c, negb (JS.isSpace c)) (JS.toLowerCase s) = true.
Proof.
  induction s as [|c s IH]; simpl; [done|].
  rewrite !andb_true_iff, lower_keeps_space. intros [Hc Hs]. auto.
Qed.

(** *** The derivative matcher on the patterns met below *)
Lemma test_Void s : JS.test JS.Void s = false.
Proof. induction s; simpl; auto. Qed.

Lemma test_Seq_Void r s : JS.test (JS.Seq JS.Void r) s = false.
Proof. induction s; simpl; auto. Qed.

Lemma test_Alt r1 r2 s :
  JS.test (JS.Alt r1 r2) s = JS.test r1 s || JS.test r2 s.
Proof. revert r1 r2. induction s; intros; simpl; auto. Qed.

Lemma test_Seq_Eps r s : JS.test (JS.Seq JS.Eps r) s = JS.test r s.
Proof.
  destruct s as [|c s]; simpl; [done|].
  by rewrite test_Alt, test_Seq_Void.
Qed.

Lemma test_Star_Cls p s : JS.test (JS.Star (JS.Cls p)) s = JS.sforall p s.
Proof.
  induction s as [|c s IH]; simpl; [done|].
  destruct (p c); simpl.
  - by rewrite test_Seq_Eps.
  - apply test_Seq_Void.
Qed.

End Strings.

(** ** [normalize] *)

Lemma normalize_slug s : JS.sforall isSlugChar (normalize s) = true.
Proof.
  unfold normalize.
  eapply sforall_impl; [|apply removeAll_rest].
  intros c. cbn. by rewrite negb_involutive.
Qed.

Lemma normalize_fixes_slugs s :
  JS.sforall isSlugChar s = true → normalize s = s.
Proof.
  intros Hs.
  assert (Hsp : JS.sforall (λ c, negb (JS.isSpace c)) s = true).
  { eapply sforall_impl; [|exact Hs].
    intros c Hc. by rewrite (slug_not_space c Hc). }
  unfold normalize.
  rewrite trim_no_space, toLowerCase_slug, replaceRuns_no_match by done.
  apply removeAll_no_match.
  eapply sforall_impl; [|exact Hs].
  intros c Hc. cbn. by rewrite Hc.
Qed.

(** C9. [normalize] is idempotent, and every string it returns matches
    [/^[a-z0-9-]*$/]. *)
Theorem normalize_idempotent_slug (s : string) :
  normalize (normalize s) = normalize s
  ∧ JS.test slugRegex (normalize s) = true.
Proof.
  split.
  - apply normalize_fixes_slugs, normalize_slug.
  - unfold slugRegex. rewrite test_Star_Cls. apply normalize_slug.
Qed.


(** C10. A branch that is non-empty, has no whitespace and, once lowercased,
    no character of [[a-z0-9-]] passes validation (with a well-formed date and
    filename) and normalizes to the empty string, so the storage path computed
    for the upload starts with ["/"] followed by the date. *)
Theorem unsluggable_branch_empty_segment (w : World) (b d f : string)
    (url : option string) (file : ImageFile) :
  b ≠ EmptyString →
  JS.sforall (λ c, negb (JS.isSpace c)) b = true →
  JS.sforall (λ c, negb (isSlugChar c)) (JS.toLowerCase b) = true →
  JS.test dateRegex d = true →
  JS.test validFilenamePattern f = true →
  validateImageSize (file_data file) DEFAULT_MAX_SIZE_BYTES = None →
  let uploadData :=
    {| branch := Some b; date := Some d; filename := Some f;
       imageUrl := url |} in
  let storagePath :=
    "/" +:+ d +:+ "/" +:+ generateFinalFilename (randomUUID w) f in
  validateUploadData uploadData = []
  ∧ normalize b = EmptyString
  ∧ (∀ data contentType mode,
       validateImageSize data DEFAULT_MAX_SIZE_BYTES = None →
       (storeImage w uploadData data contentType mode).2
       = [StorageUploaded storagePath data contentType])
  ∧ ∃ contentType,
      (processImageUpload w uploadData (Some file)).2
      = [StorageUploaded storagePath (file_data file) contentType].
Proof.
  intros Hne Hsp Hslug Hd Hf Hsize uploadData storagePath.
  assert (Hnorm : normalize b = EmptyString).
  { unfold normalize. rewrite trim_no_space by done.
    rewrite replaceRuns_no_match by by apply toLowerCase_no_space.
    by apply removeAll_all_match. }
  assert (Hstore : ∀ data contentType mode,
             validateImageSize data DEFAULT_MAX_SIZE_BYTES = None →
             (storeImage w uploadData data contentType mode).2
             = [StorageUploaded storagePath data contentType]).
  { intros data contentType mode Hdata.
    unfold storeImage. rewrite Hdata. cbn. rewrite Hnorm. cbn.
    by destruct (storage_upload w _ _ _). }
  split; [|split; [done|split; [done|]]].
  - subst uploadData.
    destruct b as [|? ?]; [done|].
    destruct d as [|? ?]; [done|].
    destruct f as [|? ?]; [done|].
    unfold validateUploadData, requiredError, patternError.
    cbn [branch date filename truthy JS.isEmpty negb andb].
    by rewrite Hd, Hf.
  - eexists. cbn [processImageUpload]. by apply Hstore.
Qed.

(** C5 (as the code has it).  The payload
    [{branch:"main", date:"2024-13-40", filename:"a.txt"}] is rejected with
    exactly one violation, the one for the filename: its date matches the
    pattern of the validator.  The rejection is returned before anything is
    fetched or stored. *)
Theorem validator_example_one_violation (w : World)
    (imageFile : option ImageFile) :
  validateUploadData examplePayload = [filenameFormatError]
  ∧ handleUpload w examplePayload imageFile
    = (ValidationFailed [filenameFormatError], []).
Proof. split; reflexivity. Qed.

(** C5, the counterexample: on that payload the validator does not return two
    violations, and none of them is about the date. *)
Lemma validator_example_not_two :
  ¬ (2 ≤ length (validateUploadData examplePayload))%nat
  ∧ "Date must be in YYYY-MM-DD format" ∉ validateUploadData examplePayload.
Proof.
  split.
  - vm_compute. lia.
  - intros H. vm_compute in H.
    apply list_elem_of_singleton in H. discriminate H.
Qed.

(** C4, at the failing input.  ["photo.JPG"] matches the accepted pattern,
    and [generateFinalFilename] returns it unchanged: it does not end in
    [".jpg"] and carries no suffix, whatever the random value. *)
Theorem final_filename_uppercase_extension (uuid : string) :
  JS.test validFilenamePattern "photo.JPG" = true
  ∧ generateFinalFilename uuid "photo.JPG" = "photo.JPG"
  ∧ JS.endsWith ".jpg" (generateFinalFilename uuid "photo.JPG") = false.
Proof. repeat split; reflexivity. Qed.

(** For comparison, the lower-case spellings get the suffix. *)
Lemma final_filename_png (uuid : string) :
  generateFinalFilename uuid "photo.png"
  = "photo_" +:+ JS.take 8 uuid +:+ ".jpg".
Proof. reflexivity. Qed.

(** ** Size validation *)

Lemma oversize_rejected (w : World) (uploadData : UploadData)
    (data : list Byte.byte) (contentType mode : string) :
  DEFAULT_MAX_SIZE_BYTES < Z.of_nat (length data) →
  storeImage w uploadData data contentType mode
  = (Ok (UploadFail "Image too large. Maximum size is 10MB" None None), []).
Proof.
  intros H. unfold storeImage, validateImageSize.
  apply Z.ltb_lt in H. by rewrite H.
Qed.

(** C3, at the failing input.  A direct upload of an empty file passes
    [validateImageSize] and is written to storage, while the webhook's size
    checks reject an empty download. *)
Theorem empty_image_is_stored (w : World) :
  let uploadData :=
    {| branch := Some "main"; date := Some "2024-01-15";
       filename := Some "photo.png"; imageUrl := None |} in
  let file :=
    {| file_data := []; file_type := "image/png"; file_name := "photo.png" |} in
  validateUploadData uploadData = []
  ∧ validateImageSize [] DEFAULT_MAX_SIZE_BYTES = None
  ∧ (handleUpload w uploadData (Some file)).2
    = [StorageUploaded
         ("main/2024-01-15/photo_" +:+ JS.take 8 (randomUUID w) +:+ ".jpg")
         [] "image/png"]
  ∧ Webhook.downloadedSizeFailure Webhook.CONFIG 0
    = Some Webhook.DownloadedEmpty.
Proof.
  intros uploadData file.
  assert (Hvalid : validateUploadData uploadData = []) by reflexivity.
  assert (Hsize : validateImageSize [] DEFAULT_MAX_SIZE_BYTES = None)
    by reflexivity.
  assert (Hbranch : normalize "main" = "main") by reflexivity.
  repeat split; try done.
  unfold handleUpload. rewrite Hvalid.
  cbn [length Nat.ltb Nat.leb processImageUpload file file_data file_type
       JS.isEmpty].
  unfold storeImage. rewrite Hsize.
  cbn [uploadData filename branch date required lift bind ret emit default
       app].
  rewrite final_filename_png, Hbranch.
  by destruct (storage_upload w _ _ _).
Qed.


(** ** The rate limiter *)
Section RateLimiter.

Implicit Types (store : gmap string ClientData) (clientIP other : string).

Lemma filter_expired now (timestamps : list Z) :
  (∀ t, In t timestamps → RATE_LIMIT_WINDOW <= now - t) →
  List.filter (inWindow now) timestamps = [].
Proof.
  induction timestamps as [|t ts IH]; intros H; simpl; [done|].
  assert (inWindow now t = false) as ->.
  { unfold inWindow. apply Z.ltb_ge, H. by left. }
  apply IH. intros t' Ht'. apply H. by right.
Qed.

Lemma check_allowed_when_expired store clientIP now :
  (∀ data t, store !! clientIP = Some data → In t (requests data) →
             RATE_LIMIT_WINDOW <= now - t) →
  (checkRateLimit clientIP now store).1 = Allowed.
Proof.
  intros H. unfold checkRateLimit.
  assert (List.filter (inWindow now)
            (requests (default {| requests := []; lastCleanup := now |}
                         (store !! clientIP))) = []) as ->.
  { destruct (store !! clientIP) as [data|] eqn:E; simpl; [|done].
    apply filter_expired. intros t Ht. by apply (H data). }
  cbn [length Nat.leb RATE_LIMIT_MAX_REQUESTS].
  by destruct (RATE_LIMIT_WINDOW <? _).
Qed.

(** What a check does to the entries of the other keys. *)
Lemma check_other_lookup store clientIP now other :
  other ≠ clientIP →
  (checkRateLimit clientIP now store).2 !! other
  = if isAllowed (checkRateLimit clientIP now store).1
       && (RATE_LIMIT_WINDOW <? now - cleanedAt store clientIP now)
    then match store !! other with
         | Some data => if stale now data then None else Some data
         | None => None
         end
    else store !! other.
Proof.
  intros Hne. unfold checkRateLimit, cleanedAt.
  set (clientData := default _ (store !! clientIP)).
  set (kept := List.filter _ _).
  assert (Hlc : lastCleanup clientData
                = match store !! clientIP with
                  | Some data => lastCleanup data
                  | None => now
                  end).
  { subst clientData. by destruct (store !! clientIP). }
  rewrite <- Hlc.
  assert (Hstore1 :
    match store !! clientIP with
    | Some _ =>
        <[clientIP := {| requests := kept;
                         lastCleanup := lastCleanup clientData |}]> store
    | None => store
    end !! other = store !! other).
  { destruct (store !! clientIP); [by rewrite lookup_insert_ne|done]. }
  destruct (RATE_LIMIT_MAX_REQUESTS <=? length kept)%nat.
  { cbn [fst snd isAllowed andb]. exact Hstore1. }
  destruct (RATE_LIMIT_WINDOW <? now - lastCleanup clientData) eqn:Hw;
    cbn [fst snd isAllowed andb].
  - assert (Hfilter : ∀ m : gmap string ClientData,
      filter (λ kv, stale now kv.2 = false) m !! other
      = match m !! other with
        | Some data => if stale now data then None else Some data
        | None => None
        end).
    { intros m. rewrite map_lookup_filter.
      destruct (m !! other) as [data|]; simpl; [|done].
      destruct (stale now data) eqn:Hs.
      - by rewrite option_guard_False.
      - by rewrite option_guard_True. }
    match goal with
    | |- match ?m !! clientIP with _ => _ end !! other = _ =>
        transitivity (m !! other);
          [destruct (m !! clientIP); [by rewrite lookup_insert_ne|done]|]
    end.
    by rewrite Hfilter, lookup_insert_ne, Hstore1.
  - by rewrite lookup_insert_ne, Hstore1.
Qed.

Lemma check_other_kept_or_gone store clientIP now other :
  other ≠ clientIP →
  (checkRateLimit clientIP now store).2 !! other = store !! other
  ∨ (checkRateLimit clientIP now store).2 !! other = None.
Proof.
  intros Hne. rewrite check_other_lookup by done.
  destruct (_ && _); [|by left].
  destruct (store !! other) as [data|]; [|by left].
  destruct (stale now data); [by right|by left].
Qed.

Lemma runChecks_other_kept_or_gone checks store clientIP :
  Forall (λ check, check.1 ≠ clientIP) checks →
  runChecks checks store !! clientIP = store !! clientIP
  ∨ runChecks checks store !! clientIP = None.
Proof.
  intros H. revert store.
  induction H as [|check checks Hc _ IH]; intros store; [by left|].
  unfold runChecks in *. cbn [fold_left].
  destruct (IH (checkRateLimit check.1 check.2 store).2) as [-> | ->];
    [|by right].
  apply check_other_kept_or_gone. congruence.
Qed.

(** The entry of the key after a denied check holds the timestamps that
    were still in the window. *)
Lemma check_denied store clientIP now data :
  store !! clientIP = Some data →
  (RATE_LIMIT_MAX_REQUESTS
     <= length (List.filter (inWindow now) (requests data)))%nat →
  checkRateLimit clientIP now store
  = (Denied ((λ t, t + RATE_LIMIT_WINDOW)
               <$> head (List.filter (inWindow now) (requests data))),
     <[clientIP := {| requests := List.filter (inWindow now) (requests data);
                      lastCleanup := lastCleanup data |}]> store).
Proof.
  intros Hdata Hlen. unfold checkRateLimit. rewrite Hdata.
  cbn [default from_option id].
  apply Nat.leb_le in Hlen. by rewrite Hlen.
Qed.

End RateLimiter.

(** C6. When the entry of a key holds exactly [RATE_LIMIT_MAX_REQUESTS]
    timestamps inside the window ending at [now], the check at [now] is denied
    and the time to wait it reports is positive; and once a window has passed
    since each admission of the key, whatever checks other keys made in
    between, the next check of the key is allowed. *)
Theorem rate_limit_denies_then_recovers
    (store : gmap string ClientData) (clientIP : string) (now : Z)
    (data : ClientData) :
  store !! clientIP = Some data →
  length (List.filter (inWindow now) (requests data)) = RATE_LIMIT_MAX_REQUESTS →
  (∃ resetTime wait,
      (checkRateLimit clientIP now store).1 = Denied (Some resetTime)
      ∧ retryAfter now (checkRateLimit clientIP now store).1 = Some wait
      ∧ 0 < wait)
  ∧ ∀ (others : list (string * Z)) (later : Z),
      Forall (λ check, check.1 ≠ clientIP) others →
      (∀ t, In t (List.filter (inWindow now) (requests data)) →
            RATE_LIMIT_WINDOW <= later - t) →
      (checkRateLimit clientIP later
         (runChecks others (checkRateLimit clientIP now store).2)).1
      = Allowed.
Proof.
  intros Hdata Hlen.
  rewrite (check_denied store clientIP now data Hdata) by lia.
  cbn [fst snd]. split.
  - destruct (List.filter (inWindow now) (requests data)) as [|t kept] eqn:E;
      [discriminate Hlen|].
    assert (Ht : In t (List.filter (inWindow now) (requests data)))
      by (rewrite E; by left).
    apply filter_In in Ht as [_ Ht]. unfold inWindow in Ht.
    apply Z.ltb_lt in Ht.
    exists (t + RATE_LIMIT_WINDOW), (t + RATE_LIMIT_WINDOW - now).
    cbn. repeat split; lia.
  - intros others later Hothers Hlater.
    apply check_allowed_when_expired. intros data' t Hdata' Ht.
    destruct (runChecks_other_kept_or_gone others
                (<[clientIP := {| requests := List.filter (inWindow now)
                                                (requests data);
                                  lastCleanup := lastCleanup data |}]> store)
                clientIP Hothers) as [Heq | Heq];
      rewrite Heq in Hdata'; [|discriminate Hdata'].
    rewrite lookup_insert_eq in Hdata'. injection Hdata' as <-.
    cbn [requests] in Ht. by apply Hlater.
Qed.

(** C7 (as the code has it).  The entry of another key changes only in an
    admitted check whose own entry was last cleaned more than one window
    before; such a check removes exactly the entries last cleaned more than
    two windows before, and leaves the others as they were. *)
Theorem sweep_trigger_and_eviction
    (store : gmap string ClientData) (clientIP other : string) (now : Z) :
  other ≠ clientIP →
  let result := (checkRateLimit clientIP now store).1 in
  let store' := (checkRateLimit clientIP now store).2 in
  (store' !! other ≠ store !! other →
     result = Allowed
     ∧ RATE_LIMIT_WINDOW < now - cleanedAt store clientIP now)
  ∧ (result = Allowed →
     RATE_LIMIT_WINDOW < now - cleanedAt store clientIP now →
     ∀ data, store !! other = Some data →
       (RATE_LIMIT_WINDOW * 2 < now - lastCleanup data → store' !! other = None)
       ∧ (now - lastCleanup data <= RATE_LIMIT_WINDOW * 2 →
          store' !! other = Some data)).
Proof.
  intros Hne result store'. subst result store'.
  rewrite check_other_lookup by done. split.
  - destruct (checkRateLimit clientIP now store).1; cbn [isAllowed andb];
      [|by intros []].
    destruct (Z.ltb_spec RATE_LIMIT_WINDOW (now - cleanedAt store clientIP now));
      [done|by intros []].
  - intros Hres Hw data Hdata. rewrite Hres. cbn [isAllowed andb].
    apply Z.ltb_lt in Hw. rewrite Hw, Hdata. unfold stale.
    split; intros H.
    + apply Z.ltb_lt in H. by rewrite H.
    + apply Z.ltb_ge in H. by rewrite H.
Qed.


(** X17.  The sweep also goes over the entry of the checking key, which still has
    its old [lastCleanup] at that point: when that is more than two windows
    old, the entry just stored is removed again, and the admission is not
    recorded. *)
Lemma sweep_drops_own_entry (store : gmap string ClientData)
    (clientIP : string) (now : Z) (data : ClientData) :
  store !! clientIP = Some data →
  RATE_LIMIT_WINDOW * 2 < now - lastCleanup data →
  (checkRateLimit clientIP now store).1 = Allowed →
  (checkRateLimit clientIP now store).2 !! clientIP = None.
Proof.
  intros Hdata Hold. unfold checkRateLimit. rewrite Hdata.
  cbn [default from_option id].
  destruct (RATE_LIMIT_MAX_REQUESTS <=? _)%nat; [done|].
  assert ((RATE_LIMIT_WINDOW <? now - lastCleanup data) = true) as ->.
  { apply Z.ltb_lt. unfold RATE_LIMIT_WINDOW in *. lia. }
  intros _. cbn [fst snd].
  match goal with
  | |- match ?m !! clientIP with _ => _ end !! clientIP = None =>
      assert (m !! clientIP = None) as Hgone
  end.
  { rewrite map_lookup_filter, lookup_insert_eq. cbn.
    rewrite option_guard_False; [done|]. unfold stale. cbn [lastCleanup].
    apply Z.ltb_lt in Hold. by rewrite Hold. }
  by rewrite Hgone.
Qed.

(** ** The webhook: payload validation *)

Lemma missingField_reported name field :
  truthy field = false →
  "Missing required field: " +:+ name ∈ Webhook.missingField name field.
Proof.
  intros H. unfold Webhook.missingField. rewrite H.
  by apply list_elem_of_singleton.
Qed.

Lemma missingField_nil name field :
  Webhook.missingField name field = [] → truthy field = true.
Proof. unfold Webhook.missingField. by destruct (truthy field). Qed.

Lemma patternError_nil field r msg :
  truthy field = true → patternError field r msg = [] →
  ∃ s, field = Some s ∧ JS.test r s = true.
Proof.
  destruct field as [s|]; [|done]. cbn. intros Hs H.
  exists s. split; [done|]. rewrite Hs in H. cbn in H.
  by destruct (JS.test r s).
Qed.

(** C8 (as the code has it).  [validatePayload] reports a violation for a
    payload that is not an object and for each of [public_url], [filename],
    [branch], [date] and [metadataId] that is missing; and a payload without
    violations has a [metadataId] of the shape 8-4-4-4-12 in hexadecimal
    digits, of whatever version. *)
Theorem payload_required_fields_and_uuid_shape
    (url_valid : string → bool) (payload : Webhook.Payload) :
  let errors := Webhook.validatePayload url_valid (Some payload) in
  Webhook.validatePayload url_valid None ≠ []
  ∧ (truthy (Webhook.public_url payload) = false →
     "Missing required field: public_url" ∈ errors)
  ∧ (truthy (Webhook.filename payload) = false →
     "Missing required field: filename" ∈ errors)
  ∧ (truthy (Webhook.branch payload) = false →
     "Missing required field: branch" ∈ errors)
  ∧ (truthy (Webhook.date payload) = false →
     "Missing required field: date" ∈ errors)
  ∧ (truthy (Webhook.metadataId payload) = false →
     "Missing required field: metadataId" ∈ errors)
  ∧ (errors = [] →
     ∃ id, Webhook.metadataId payload = Some id
           ∧ JS.test Webhook.uuidRegex id = true).
Proof.
  intros errors. subst errors. unfold Webhook.validatePayload.
  split; [done|].
  split; [intros H; rewrite !elem_of_app; left;
          exact (missingField_reported "public_url" _ H)|].
  split; [intros H; rewrite !elem_of_app; right; left;
          exact (missingField_reported "filename" _ H)|].
  split; [intros H; rewrite !elem_of_app; do 2 right; left;
          exact (missingField_reported "branch" _ H)|].
  split; [intros H; rewrite !elem_of_app; do 3 right; left;
          exact (missingField_reported "date" _ H)|].
  split; [intros H; rewrite !elem_of_app; do 4 right; left;
          exact (missingField_reported "metadataId" _ H)|].
  intros H.
  repeat (apply app_eq_nil in H as [? H]).
  eapply patternError_nil; [|exact H].
  eapply missingField_nil; eassumption.
Qed.

(** C8, the counterexample: a payload whose [metadataId] is a version-1 UUID
    passes validation. *)
Lemma version1_uuid_accepted :
  Webhook.validatePayload (JS.startsWith "https://")
    (Some webhookPayloadV1) = []
  ∧ Webhook.metadataId webhookPayloadV1
    = Some "123e4567-e89b-12d3-a456-426614174000"
  ∧ Webhook.isUuidV4 "123e4567-e89b-12d3-a456-426614174000" = false.
Proof. repeat split; reflexivity. Qed.


(** Case analysis on the integer comparisons of a goal. *)
Ltac decide_comparisons :=
  repeat match goal with
         | |- context [?a <=? ?b] => destruct (Z.leb_spec a b); try lia
         | |- context [?a <? ?b] => destruct (Z.ltb_spec a b); try lia
         | |- context [?a =? ?b] => destruct (Z.eqb_spec a b); try lia
         end.

(** ** The webhook: the relay to BuildShip *)
Section Relay.

Import Webhook.

Variables (cfg : Config) (w : RelayWorld) (request : BuildShipPayload).

Lemma terminal_response r :
  terminalFailure (Responded r) →
  r_ok r = false ∧ isClientError (r_status r) = true.
Proof.
  cbn. unfold r_ok, isClientError. intros [[H1 H2] H3].
  by decide_comparisons.
Qed.

Lemma transient_response r :
  transientFailure (Responded r) →
  r_ok r = false ∧ isClientError (r_status r) = false.
Proof.
  cbn. unfold r_ok, isClientError. intros H.
  by decide_comparisons.
Qed.

(** A terminal failure ends the loop at the attempt that met it. *)
Lemma relayFrom_terminal remaining attempt :
  terminalFailure (relay w attempt request) →
  let run := relayFrom cfg w request (S remaining) attempt in
  isFailure run.1 ∧ attemptsOf run.1 = attempt
  ∧ run.2 = [Posted attempt request].
Proof.
  intros H. cbn [relayFrom].
  destruct (relay w attempt request) as [r|name message]; [|done].
  destruct (terminal_response r H) as [-> ->]. by cbn.
Qed.

(** Transient failures keep the loop going up to the last attempt. *)
Lemma relayFrom_transient remaining attempt :
  (attempt + remaining = MAX_RETRIES cfg)%nat →
  (∀ a, (attempt <= a <= MAX_RETRIES cfg)%nat →
        transientFailure (relay w a request)) →
  let run := relayFrom cfg w request (S remaining) attempt in
  posts run.2 = S remaining
  ∧ isFailure run.1
  ∧ attemptsOf run.1 = MAX_RETRIES cfg
  ∧ carriesError cfg (relay w (MAX_RETRIES cfg) request) run.1.
Proof.
  revert attempt.
  induction remaining as [|remaining IH]; intros attempt Hsum Hall.
  - assert (attempt = MAX_RETRIES cfg) as Hlast by lia.
    specialize (Hall attempt ltac:(lia)). cbn [relayFrom].
    rewrite <- Hlast.
    rewrite Nat.ltb_irrefl, Nat.eqb_refl.
    destruct (relay w attempt request) as [r|name message].
    + destruct (transient_response r Hall) as [-> ->]. cbn.
      repeat split; eauto.
    + destruct (isAbort name message) eqn:E; cbn; by rewrite E.
  - assert (attempt < MAX_RETRIES cfg)%nat as Hlt by lia.
    pose proof (Hall attempt ltac:(lia)) as Hnow.
    specialize (IH (S attempt) ltac:(lia)
                  (λ a Ha, Hall a ltac:(lia))).
    cbn zeta in IH. remember (S remaining) as n eqn:Hn.
    cbn [relayFrom].
    assert ((attempt <? MAX_RETRIES cfg)%nat = true) as ->
      by by apply Nat.ltb_lt.
    assert ((attempt =? MAX_RETRIES cfg)%nat = false) as ->
      by (apply Nat.eqb_neq; lia).
    destruct (relayFrom cfg w request n (S attempt)) as [res t].
    cbn [fst snd] in IH. destruct IH as (Hposts & Hfail & Hatt & Hcarry).
    assert (∀ delay,
      posts (Posted attempt request :: Waited delay :: t) = S n)
      as Hcount by (intros; cbn; unfold posts in Hposts; lia).
    destruct (relay w attempt request) as [r|name message].
    + destruct (transient_response r Hnow) as [-> ->]. by cbn [fst snd].
    + by destruct (isAbort name message); cbn [fst snd].
Qed.

End Relay.

(** C2. With at least one attempt configured: when the first attempt meets a
    terminal failure (a 4xx other than 429) the relay is called once and the
    failure reports one attempt; when every attempt meets a transient failure
    (429, a 5xx, or a thrown transport error or abort) the relay is called
    [MAX_RETRIES] times and the failure returned reports [MAX_RETRIES]
    attempts and the error of the last one. *)
Theorem relay_retry_policy (cfg : Webhook.Config) (w : Webhook.RelayWorld)
    (payload : Webhook.Payload) (imageData : Webhook.ImageData) :
  (1 <= Webhook.MAX_RETRIES cfg)%nat →
  let request := Webhook.buildShipPayload w payload imageData in
  let run := Webhook.sendToBuildShipWith cfg w payload imageData in
  (Webhook.terminalFailure (Webhook.relay w 1%nat request) →
     Webhook.isFailure run.1
     ∧ Webhook.attemptsOf run.1 = 1%nat
     ∧ Webhook.posts run.2 = 1%nat)
  ∧ ((∀ attempt, (1 <= attempt <= Webhook.MAX_RETRIES cfg)%nat →
        Webhook.transientFailure (Webhook.relay w attempt request)) →
     Webhook.posts run.2 = Webhook.MAX_RETRIES cfg
     ∧ Webhook.isFailure run.1
     ∧ Webhook.attemptsOf run.1 = Webhook.MAX_RETRIES cfg
     ∧ Webhook.carriesError cfg
         (Webhook.relay w (Webhook.MAX_RETRIES cfg) request) run.1).
Proof.
  intros Hmax request run. subst run. unfold Webhook.sendToBuildShipWith.
  fold request.
  destruct (Webhook.MAX_RETRIES cfg) as [|n] eqn:Hn; [lia|]. split.
  - intros H.
    destruct (relayFrom_terminal cfg w request n 1 H) as (? & ? & ->).
    by repeat split.
  - intros H.
    pose proof (relayFrom_transient cfg w request n 1 ltac:(lia)) as Hrun.
    rewrite Hn in Hrun. apply Hrun. intros a Ha. apply H. lia.
Qed.


(** ** The session fetcher *)
Section SessionFetcher.

Variables (w : World) (url : string) (maxRetries : nat).

Lemma attemptsMade_app t1 t2 :
  attemptsMade (t1 ++ t2) = (attemptsMade t1 + attemptsMade t2)%nat.
Proof. unfold attemptsMade. by rewrite List.filter_app, length_app. Qed.

(** Traces without the start of an attempt compose. *)
Lemma bind_quiet {A B} (m : M A) (f : A → M B) :
  attemptsMade m.2 = 0%nat →
  (∀ a, attemptsMade (f a).2 = 0%nat) →
  attemptsMade (bind m f).2 = 0%nat.
Proof.
  destruct m as [[a|e] t]; cbn [bind fst snd]; intros Hm Hf; [|done].
  specialize (Hf a). destruct (f a) as [r t']. cbn [fst snd] in *.
  rewrite attemptsMade_app. lia.
Qed.

Lemma fetch_quiet attempt step req :
  attemptsMade (fetch w attempt step req).2 = 0%nat.
Proof. unfold fetch. by destruct (net w attempt step req). Qed.

Lemma sessionSteps_quiet attempt :
  attemptsMade (sessionSteps w url attempt).2 = 0%nat.
Proof.
  unfold sessionSteps.
  repeat first
    [ apply fetch_quiet
    | reflexivity
    | apply bind_quiet; [|intros ?]
    | match goal with
      | |- context [if ?b then _ else _] => destruct b
      | |- context [match ?o with Some _ => _ | None => _ end] => destruct o
      end ].
Qed.

Lemma handleFinal_silent finalResponse attempt :
  (handleFinal finalResponse attempt maxRetries).2 = [].
Proof.
  unfold handleFinal, bind, lift, ret.
  repeat match goal with
         | |- context [if ?b then _ else _] => destruct b
         | |- context [match ?o with Ok _ => _ | Throws _ => _ end] =>
             destruct o
         end; reflexivity.
Qed.

Lemma runAttempt_trace attempt :
  (runAttempt w url attempt maxRetries).2
  = AttemptStarted attempt :: (sessionSteps w url attempt).2.
Proof.
  unfold runAttempt. cbn [emit bind].
  destruct (sessionSteps w url attempt) as [[r|e] t]; cbn; [|done].
  pose proof (handleFinal_silent r attempt) as H.
  destruct (handleFinal r attempt maxRetries) as [[flow|e] t'];
    cbn in *; subst; by rewrite app_nil_r.
Qed.

Lemma runAttempt_flow attempt :
  (runAttempt w url attempt maxRetries).1
  = match (sessionSteps w url attempt).1 with
    | Ok finalResponse =>
        match (handleFinal finalResponse attempt maxRetries).1 with
        | Ok flow => flow
        | Throws message => caught attempt maxRetries message
        end
    | Throws message => caught attempt maxRetries message
    end.
Proof.
  unfold runAttempt. cbn [emit bind].
  destruct (sessionSteps w url attempt) as [[r|e] t]; cbn; [|done].
  by destruct (handleFinal r attempt maxRetries) as [[flow|e] t'].
Qed.

Lemma runAttempt_one_attempt attempt :
  attemptsMade (runAttempt w url attempt maxRetries).2 = 1%nat.
Proof.
  rewrite runAttempt_trace.
  change (AttemptStarted attempt :: ?t) with ([AttemptStarted attempt] ++ t).
  rewrite attemptsMade_app, sessionSteps_quiet. reflexivity.
Qed.

(** What the final response decides. *)
Lemma handleFinal_image r attempt data :
  ok r = true → isImageType (hdr_contentType r) = true →
  readBody r = Ok data →
  ∃ contentType,
    hdr_contentType r = Some contentType
    ∧ (handleFinal r attempt maxRetries).1
      = Ok (Return (FetchOk (list_byte_of_string data) contentType)).
Proof.
  intros Hok Himg Hbody. unfold handleFinal.
  rewrite Hok, Himg, Hbody. cbn.
  destruct (hdr_contentType r) as [ct|]; [|discriminate Himg].
  by exists ct.
Qed.

Lemma handleFinal_html r attempt text :
  ok r = true → isImageType (hdr_contentType r) = false →
  readBody r = Ok text → looksLikeHtml text = true →
  (handleFinal r attempt maxRetries).1
  = Ok (if (attempt =? maxRetries)%nat
        then Return (FetchFail botProtectionError (JS.take 300 text)
                       (Some (maskSensitiveData (resp_url r))))
        else Continue).
Proof.
  intros Hok Himg Hbody Hhtml. unfold handleFinal.
  rewrite Hok, Himg, Hbody. cbn. rewrite Hhtml.
  by destruct (attempt =? maxRetries)%nat.
Qed.

(** A failure is returned by the last attempt only. *)
Lemma handleFinal_fail_last r attempt error details finalUrl :
  (handleFinal r attempt maxRetries).1
  = Ok (Return (FetchFail error details finalUrl)) →
  attempt = maxRetries.
Proof.
  unfold handleFinal, bind, lift, ret.
  destruct (attempt =? maxRetries)%nat eqn:E;
    [intros _; by apply Nat.eqb_eq|].
  repeat match goal with
         | |- context [if ?b then _ else _] => destruct b
         | |- context [match ?o with Ok _ => _ | Throws _ => _ end] =>
             destruct o
         end; cbn; congruence.
Qed.

Lemma runAttempt_fail_last attempt error details finalUrl :
  (runAttempt w url attempt maxRetries).1
  = Return (FetchFail error details finalUrl) →
  attempt = maxRetries.
Proof.
  rewrite runAttempt_flow. unfold caught.
  destruct (sessionSteps w url attempt).1 as [r|e].
  - destruct (handleFinal r attempt maxRetries).1 as [flow|e] eqn:E.
    + intros ->. by eapply handleFinal_fail_last.
    + destruct (attempt =? maxRetries)%nat eqn:E'; [|done].
      intros _. by apply Nat.eqb_eq.
  - destruct (attempt =? maxRetries)%nat eqn:E'; [|done].
    intros _. by apply Nat.eqb_eq.
Qed.

(** The loop, one step at a time. *)
Lemma attemptsFrom_return remaining attempt r :
  (runAttempt w url attempt maxRetries).1 = Return r →
  attemptsFrom w url maxRetries (S remaining) attempt
  = (Some r, (runAttempt w url attempt maxRetries).2).
Proof.
  intros H. cbn [attemptsFrom].
  destruct (runAttempt w url attempt maxRetries) as [flow t].
  cbn in H. by subst.
Qed.

Lemma attemptsFrom_next remaining attempt :
  (∀ r, (runAttempt w url attempt maxRetries).1 ≠ Return r) →
  (attemptsFrom w url maxRetries (S remaining) attempt).1
  = (attemptsFrom w url maxRetries remaining (S attempt)).1
  ∧ attemptsMade (attemptsFrom w url maxRetries (S remaining) attempt).2
    = S (attemptsMade
           (attemptsFrom w url maxRetries remaining (S attempt)).2).
Proof.
  intros H. cbn [attemptsFrom].
  pose proof (runAttempt_one_attempt attempt) as Hone.
  destruct (runAttempt w url attempt maxRetries) as [flow t].
  cbn [fst snd] in *.
  destruct (attemptsFrom w url maxRetries remaining (S attempt)) as [res t'].
  destruct flow as [r| |]; [by destruct (H r)| |]; cbn [fst snd].
  - rewrite attemptsMade_app. split; [done|lia].
  - rewrite !attemptsMade_app.
    split; [done|]. by destruct (attempt <? maxRetries)%nat; cbn; lia.
Qed.

(** Failures use up the attempts. *)
Lemma attemptsFrom_fail_uses_all remaining attempt error details finalUrl :
  (attempt + remaining = S maxRetries)%nat →
  (attemptsFrom w url maxRetries remaining attempt).1
  = Some (FetchFail error details finalUrl) →
  attemptsMade (attemptsFrom w url maxRetries remaining attempt).2
  = remaining.
Proof.
  revert attempt.
  induction remaining as [|remaining IH]; intros attempt Hsum; [done|].
  destruct (runAttempt w url attempt maxRetries).1 as [r| |] eqn:E.
  - rewrite (attemptsFrom_return _ _ r E). cbn [fst snd].
    intros [= ->]. apply runAttempt_fail_last in E.
    rewrite runAttempt_one_attempt. lia.
  - destruct (attemptsFrom_next remaining attempt) as [-> ->];
      [by rewrite E|].
    intros H. f_equal. apply IH; [lia|done].
  - destruct (attemptsFrom_next remaining attempt) as [-> ->];
      [by rewrite E|].
    intros H. f_equal. apply IH; [lia|done].
Qed.

(** The first attempt that returns decides the result. *)
Lemma attemptsFrom_first_return before attempt k remaining r :
  (attempt + before = k)%nat →
  (∀ a, (attempt <= a < k)%nat →
        ∀ r', (runAttempt w url a maxRetries).1 ≠ Return r') →
  (runAttempt w url k maxRetries).1 = Return r →
  (attemptsFrom w url maxRetries (S (before + remaining)) attempt).1 = Some r
  ∧ attemptsMade
      (attemptsFrom w url maxRetries (S (before + remaining)) attempt).2
    = S before.
Proof.
  revert attempt.
  induction before as [|before IH]; intros attempt Hsum Hprior Hk.
  - assert (attempt = k) as -> by lia.
    rewrite (attemptsFrom_return _ _ r Hk). cbn [fst snd].
    by rewrite runAttempt_one_attempt.
  - destruct (attemptsFrom_next (S (before + remaining)) attempt)
      as [Hres Hcount]; [apply Hprior; lia|].
    cbn [Nat.add]. rewrite Hres, Hcount.
    destruct (IH (S attempt)) as [-> ->]; [lia| |done|done].
    intros a Ha. apply Hprior. lia.
Qed.

End SessionFetcher.

(** C1. With at least one attempt allowed: (1) an attempt whose final
    response has a 2xx status, a [Content-Type] starting with [image/] and a
    readable body returns success with that body and type, whatever the
    world answered to the requests before it, cookies included, provided no
    earlier attempt returned; (2) a failure, the bot-protection one among
    them, is only ever returned after [maxRetries] attempts; (3) when the
    final response of every attempt is a 2xx non-image response whose body
    contains ['<!DOCTYPE html'] or ['<html'], the result is the bot-protection
    failure, after exactly [maxRetries] attempts. *)
Theorem session_fetch_outcomes (w : World) (url : string) (maxRetries : nat) :
  (1 <= maxRetries)%nat →
  let run := fetchImageWithSessionHandling w url maxRetries in
  (∀ k r data,
     (1 <= k <= maxRetries)%nat →
     (∀ a, (1 <= a < k)%nat →
           ∀ r', (runAttempt w url a maxRetries).1 ≠ Return r') →
     (sessionSteps w url k).1 = Ok r →
     ok r = true → isImageType (hdr_contentType r) = true →
     readBody r = Ok data →
     ∃ contentType,
       hdr_contentType r = Some contentType
       ∧ run.1 = Some (FetchOk (list_byte_of_string data) contentType))
  ∧ (∀ details finalUrl,
       run.1 = Some (FetchFail botProtectionError details finalUrl) →
       attemptsMade run.2 = maxRetries)
  ∧ ((∀ a, (1 <= a <= maxRetries)%nat →
        ∃ r text,
          (sessionSteps w url a).1 = Ok r
          ∧ ok r = true ∧ isImageType (hdr_contentType r) = false
          ∧ readBody r = Ok text ∧ looksLikeHtml text = true) →
     (∃ details finalUrl,
        run.1 = Some (FetchFail botProtectionError details finalUrl))
     ∧ attemptsMade run.2 = maxRetries).
Proof.
  intros Hmax run. subst run. unfold fetchImageWithSessionHandling.
  split; [|split].
  - intros k r data Hk Hprior Hfinal Hok Himg Hbody.
    destruct (handleFinal_image maxRetries r k data Hok Himg Hbody)
      as (ct & Hct & Hflow).
    exists ct. split; [done|].
    assert (Hret : (runAttempt w url k maxRetries).1
                   = Return (FetchOk (list_byte_of_string data) ct)).
    { by rewrite runAttempt_flow, Hfinal, Hflow. }
    destruct (attemptsFrom_first_return w url maxRetries (k - 1) 1 k
                (maxRetries - k) _ ltac:(lia) Hprior Hret) as [H _].
    replace (S (k - 1 + (maxRetries - k))) with maxRetries in H by lia.
    exact H.
  - intros details finalUrl H.
    eapply attemptsFrom_fail_uses_all; [lia|exact H].
  - intros Hall.
    assert (Hflow : ∀ a, (1 <= a <= maxRetries)%nat →
      ∃ text r,
        (runAttempt w url a maxRetries).1
        = if (a =? maxRetries)%nat
          then Return (FetchFail botProtectionError (JS.take 300 text)
                         (Some (maskSensitiveData (resp_url r))))
          else Continue).
    { intros a Ha. destruct (Hall a Ha) as (r & text & H1 & H2 & H3 & H4 & H5).
      exists text, r. rewrite runAttempt_flow, H1.
      by rewrite (handleFinal_html maxRetries r a text). }
    destruct (Hflow maxRetries ltac:(lia)) as (text & r & Hlast).
    rewrite Nat.eqb_refl in Hlast.
    assert (Hprior : ∀ a, (1 <= a < maxRetries)%nat →
              ∀ r', (runAttempt w url a maxRetries).1 ≠ Return r').
    { intros a Ha r' Hr'. destruct (Hflow a ltac:(lia)) as (t' & r0 & Ha').
      assert ((a =? maxRetries)%nat = false) as E
        by (apply Nat.eqb_neq; lia).
      rewrite E in Ha'. congruence. }
    destruct (attemptsFrom_first_return w url maxRetries (maxRetries - 1) 1
                maxRetries 0 _ ltac:(lia) Hprior Hlast) as [H1 H2].
    replace (S (maxRetries - 1 + 0)) with maxRetries in H1, H2 by lia.
    split; [eauto|]. rewrite H2. lia.
Qed.

(** The branch ["!!!"], in a direct upload. *)
Lemma unsluggable_branch_witness :
  validateUploadData
    {| branch := Some "!!!"; date := Some "2024-01-15";
       filename := Some "photo.png"; imageUrl := None |} = []
  ∧ normalize "!!!" = EmptyString
  ∧ ∃ contentType,
      (processImageUpload challengeWorld
         {| branch := Some "!!!"; date := Some "2024-01-15";
            filename := Some "photo.png"; imageUrl := None |}
         (Some sampleFile)).2
      = [StorageUploaded
           ("/" +:+ "2024-01-15" +:+ "/"
            +:+ generateFinalFilename (randomUUID challengeWorld) "photo.png")
           (file_data sampleFile) contentType].
Proof.
  destruct (unsluggable_branch_empty_segment challengeWorld "!!!" "2024-01-15"
              "photo.png" None sampleFile)
    as (H1 & H2 & _ & H4);
    [discriminate | reflexivity | reflexivity | reflexivity | reflexivity
    | reflexivity |].
  exact (conj H1 (conj H2 H4)).
Defined.

(** Thirty admissions at 1..30: denied at 1000, admitted again at 60030. *)
Lemma rate_limit_witness :
  (∃ resetTime wait,
      (checkRateLimit busyClient 1000 fullStore).1 = Denied (Some resetTime)
      ∧ retryAfter 1000 (checkRateLimit busyClient 1000 fullStore).1 = Some wait
      ∧ 0 < wait)
  ∧ (checkRateLimit busyClient 60030
       (runChecks [("198.51.100.1", 2000)]
          (checkRateLimit busyClient 1000 fullStore).2)).1 = Allowed.
Proof.
  destruct (rate_limit_denies_then_recovers fullStore busyClient 1000
              {| requests := List.map Z.of_nat (seq 1 30); lastCleanup := 1 |})
    as [H1 H2]; [vm_compute; reflexivity | vm_compute; reflexivity |].
  split; [exact H1|].
  apply (H2 [("198.51.100.1", 2000)] 60030).
  - repeat constructor; discriminate.
  - intros t Ht. vm_compute in Ht.
    repeat (destruct Ht as [<- | Ht]; [vm_compute; discriminate|]).
    destruct Ht.
Defined.

(** The sweep of the check at 120001 on [sweepStore]. *)
Lemma sweep_witness :
  (checkRateLimit "198.51.100.1" 120001 sweepStore).2 !! "198.51.100.2" = None.
Proof.
  destruct (sweep_trigger_and_eviction sweepStore "198.51.100.1"
              "198.51.100.2" 120001) as [_ H]; [discriminate|].
  destruct (H ltac:(vm_compute; reflexivity) ltac:(vm_compute; reflexivity)
              {| requests := [0; 59999]; lastCleanup := 0 |}
              ltac:(vm_compute; reflexivity)) as [Hgone _].
  apply Hgone. vm_compute. reflexivity.
Defined.

(** C7, the counterexample.  After checks of one key at 0 and 59999 and of
    another at 60000, a check of the latter at 120001 removes the entry of the
    former: the checking key was cleaned 60001 ms before, which is not over
    twice the window, and the latest admission of the removed entry, 59999,
    does not predate 120001 less twice the window. *)
Lemma sweep_counterexample :
  sweepStore !! "198.51.100.1"
    = Some {| requests := [60000]; lastCleanup := 60000 |}
  ∧ sweepStore !! "198.51.100.2"
    = Some {| requests := [0; 59999]; lastCleanup := 0 |}
  ∧ (checkRateLimit "198.51.100.1" 120001 sweepStore).2 !! "198.51.100.2"
    = None
  ∧ ¬ (RATE_LIMIT_WINDOW * 2 < 120001 - 60000)
  ∧ ¬ (59999 < 120001 - RATE_LIMIT_WINDOW * 2).
Proof.
  repeat split; try (vm_compute; reflexivity); vm_compute; discriminate.
Qed.

(** A payload without [metadataId], and one with a well-shaped one. *)
Lemma payload_validation_witness :
  "Missing required field: metadataId"
  ∈ Webhook.validatePayload (JS.startsWith "https://")
      (Some {| Webhook.public_url := Webhook.public_url webhookPayloadV1;
               Webhook.filename := Some "photo_ab12cd34.jpg";
               Webhook.branch := Some "main";
               Webhook.date := Some "2024-01-15";
               Webhook.metadataId := None |})
  ∧ ∃ id, Webhook.metadataId webhookPayloadV1 = Some id
          ∧ JS.test Webhook.uuidRegex id = true.
Proof.
  split.
  - apply (payload_required_fields_and_uuid_shape (JS.startsWith "https://")).
    reflexivity.
  - apply (payload_required_fields_and_uuid_shape (JS.startsWith "https://")
             webhookPayloadV1).
    reflexivity.
Defined.

(** A relay answering 503 is called twice, the configured maximum. *)
Lemma relay_retry_witness :
  Webhook.posts
    (Webhook.sendToBuildShip busyRelay webhookPayloadV1 sampleImageData).2
  = 2%nat
  ∧ Webhook.attemptsOf
      (Webhook.sendToBuildShip busyRelay webhookPayloadV1 sampleImageData).1
    = 2%nat.
Proof.
  destruct (relay_retry_policy Webhook.CONFIG busyRelay webhookPayloadV1
              sampleImageData) as [_ H]; [vm_compute; lia|].
  destruct H as (H1 & _ & H3 & _).
  - intros attempt _. right. vm_compute. split; discriminate.
  - exact (conj H1 H3).
Defined.

(** A challenge page on every attempt, with the default of three attempts. *)
Lemma session_fetch_witness :
  (∃ details finalUrl,
      (fetchImageWithSessionHandling challengeWorld
         "https://cdn.example.com/slips/1.png" DEFAULT_MAX_RETRIES).1
      = Some (FetchFail botProtectionError details finalUrl))
  ∧ attemptsMade
      (fetchImageWithSessionHandling challengeWorld
         "https://cdn.example.com/slips/1.png" DEFAULT_MAX_RETRIES).2
    = DEFAULT_MAX_RETRIES.
Proof.
  destruct (session_fetch_outcomes challengeWorld
              "https://cdn.example.com/slips/1.png" DEFAULT_MAX_RETRIES)
    as (_ & _ & H); [vm_compute; lia|].
  apply H. intros a _.
  exists challengePage,
    "<!DOCTYPE html><html><body>Checking your browser</body></html>".
  repeat split; reflexivity.
Defined.

(** * Further properties *)

(** ** Patterns and the strings they accept *)
Section Patterns.

Variable P : ascii → bool.

Lemma dead_not_nullable r : dead r = true → JS.nullable r = false.
Proof.
  induction r; cbn; try done.
  - rewrite orb_true_iff. intros [H|H]; [rewrite IHr1|rewrite IHr2]; try done.
    apply andb_false_r.
  - rewrite andb_true_iff. intros [H1 H2]. by rewrite IHr1, IHr2.
Qed.

Lemma dead_deriv c r : dead r = true → dead (JS.deriv c r) = true.
Proof.
  induction r; cbn; try done.
  - rewrite orb_true_iff. intros [H|H].
    + rewrite (dead_not_nullable r1 H). cbn. by rewrite IHr1.
    + destruct (JS.nullable r1); cbn; rewrite ?IHr2, ?H by done;
        by rewrite ?orb_true_r.
  - rewrite !andb_true_iff. intros [H1 H2]. auto.
Qed.

Lemma dead_test r s : dead r = true → JS.test r s = false.
Proof.
  revert r. induction s as [|c s IH]; intros r H; cbn.
  - by apply dead_not_nullable.
  - by apply IH, dead_deriv.
Qed.

Lemma deriv_rejected c r :
  classesWithin P r → P c = false → dead (JS.deriv c r) = true.
Proof.
  intros Hr Hc. induction r; cbn in *; try done.
  - destruct (p c) eqn:E; [|done]. apply Hr in E. congruence.
  - destruct Hr as [H1 H2].
    destruct (JS.nullable r1); cbn; by rewrite IHr1, ?IHr2.
  - destruct Hr as [H1 H2]. by rewrite IHr1, IHr2.
  - by rewrite IHr.
Qed.

Lemma classesWithin_deriv c r :
  classesWithin P r → classesWithin P (JS.deriv c r).
Proof.
  induction r; cbn; try done.
  - intros _. by destruct (p c).
  - intros [H1 H2]. destruct (JS.nullable r1); cbn; auto.
  - intros [H1 H2]. auto.
  - intros H. auto.
Qed.

(** A string matched by a pattern is made of characters of its classes. *)
Lemma test_within r s :
  classesWithin P r → JS.test r s = true → JS.sforall P s = true.
Proof.
  revert r. induction s as [|c s IH]; intros r Hr Ht; cbn in *; [done|].
  rewrite (IH _ (classesWithin_deriv c r Hr) Ht), andb_true_r.
  destruct (P c) eqn:E; [done|].
  by rewrite (dead_test _ s (deriv_rejected c r Hr E)) in Ht.
Qed.

End Patterns.

Ltac all_characters :=
  let c := fresh "c" in
  intros c; destruct c as [[] [] [] [] [] [] [] []]; vm_compute; congruence.

Lemma filename_classes : classesWithin isFilenameChar validFilenamePattern.
Proof. cbn. repeat split; all_characters. Qed.

Lemma date_classes : classesWithin isDateChar dateRegex.
Proof. cbn. repeat split; all_characters. Qed.

Lemma uuid_classes : classesWithin isUuidChar Webhook.uuidRegex.
Proof. cbn. repeat split; all_characters. Qed.

(** ** Strings: append, suffixes and replacement at the end *)
Section Appending.

Lemma append_cons x a b : String x a +:+ b = String x (a +:+ b).
Proof. reflexivity. Qed.

Lemma append_nil_l b : EmptyString +:+ b = b.
Proof. reflexivity. Qed.

Lemma append_nil_r s : s +:+ EmptyString = s.
Proof.
  induction s as [|c s IH]; [done|]. by rewrite append_cons, IH.
Qed.

Lemma append_assoc a b c : (a +:+ b) +:+ c = a +:+ (b +:+ c).
Proof.
  induction a as [|x a IH]; [done|]. by rewrite !append_cons, IH.
Qed.

Lemma length_append a b :
  String.length (a +:+ b) = (String.length a + String.length b)%nat.
Proof.
  induction a as [|x a IH]; [done|]. rewrite append_cons. cbn. by rewrite IH.
Qed.

Lemma append_cancel_l a b c : a +:+ b = a +:+ c → b = c.
Proof.
  induction a as [|x a IH]; [done|]. rewrite !append_cons.
  intros [= H]. auto.
Qed.

Lemma append_cancel_r a b t : a +:+ t = b +:+ t → a = b.
Proof.
  revert b. induction a as [|x a IH]; intros [|y b] H.
  - done.
  - rewrite ?append_nil_l, ?append_cons in H.
    apply (f_equal String.length) in H.
    cbn [String.length] in H. rewrite length_append in H. lia.
  - rewrite ?append_nil_l, ?append_cons in H.
    apply (f_equal String.length) in H.
    cbn [String.length] in H. rewrite length_append in H. lia.
  - rewrite !append_cons in H. injection H as -> H. f_equal. by apply IH.
Qed.

Lemma sforall_append p a b :
  JS.sforall p (a +:+ b) = JS.sforall p a && JS.sforall p b.
Proof.
  induction a as [|x a IH]; [done|].
  rewrite append_cons. cbn. by rewrite IH, andb_assoc.
Qed.

Lemma smap_append f a b : JS.smap f (a +:+ b) = JS.smap f a +:+ JS.smap f b.
Proof.
  induction a as [|x a IH]; [done|]. rewrite append_cons. cbn.
  by rewrite IH.
Qed.

Lemma sforall_take p n s :
  JS.sforall p s = true → JS.sforall p (JS.take n s) = true.
Proof.
  revert s. induction n as [|n IH]; intros [|c s]; cbn; try done.
  rewrite !andb_true_iff. intros [Hc Hs]. auto.
Qed.

Lemma length_take n s : (String.length (JS.take n s) <= n)%nat.
Proof.
  revert s. induction n as [|n IH]; intros [|c s]; cbn; try lia.
  specialize (IH s). lia.
Qed.

Lemma endsWith_append p a : JS.endsWith p (a +:+ p) = true.
Proof.
  induction a as [|c a IH].
  - rewrite append_nil_l.
    destruct p; cbn [JS.endsWith]; by rewrite String.eqb_refl.
  - rewrite append_cons. cbn [JS.endsWith]. rewrite IH. apply orb_true_r.
Qed.

Lemma endsWith_split p s :
  JS.endsWith p s = true → ∃ stem, s = stem +:+ p.
Proof.
  induction s as [|c s IH]; cbn.
  - rewrite orb_false_r. intros H%String.eqb_eq. by exists EmptyString.
  - rewrite orb_true_iff. intros [H%String.eqb_eq | H].
    + exists EmptyString. by subst.
    + destruct (IH H) as [stem ->]. by exists (String c stem).
Qed.

Lemma test_lit p s : JS.test (JS.lit p) s = String.eqb p s.
Proof.
  revert s. induction p as [|a p IH]; intros [|c s]; cbn; try done.
  - apply test_Void.
  - unfold JS.chr. cbn. destruct (Ascii.eqb_spec a c) as [->|Hne].
    + by rewrite test_Seq_Eps, IH.
    + apply test_Seq_Void.
Qed.

(** Replacing [/p$/] in a string that ends in [p], and in one that does
    not. *)
Lemma replaceAtEnd_lit_suffix p by_ stem :
  JS.replaceAtEnd (JS.lit p) by_ (stem +:+ p) = stem +:+ by_.
Proof.
  induction stem as [|c stem IH].
  - rewrite !append_nil_l.
    destruct p as [|a p]; [done|].
    cbn [JS.replaceAtEnd]. by rewrite test_lit, String.eqb_refl.
  - rewrite !append_cons.
    cbn [JS.replaceAtEnd]. rewrite test_lit.
    destruct (String.eqb_spec p (String c (stem +:+ p))) as [H|_].
    + apply (f_equal String.length) in H. cbn in H.
      rewrite length_append in H. lia.
    + by rewrite IH.
Qed.

Lemma replaceAtEnd_lit_none p by_ s :
  JS.endsWith p s = false → JS.replaceAtEnd (JS.lit p) by_ s = s.
Proof.
  induction s as [|c s IH]; cbn [JS.endsWith JS.replaceAtEnd];
    rewrite test_lit, orb_false_iff; intros [-> H]; [done|].
  by rewrite IH.
Qed.

Lemma replaceAtEnd_within P r by_ s :
  JS.sforall P s = true → JS.sforall P by_ = true →
  JS.sforall P (JS.replaceAtEnd r by_ s) = true.
Proof.
  intros Hs Hby. induction s as [|c s IH]; cbn [JS.replaceAtEnd].
  - by destruct (JS.test r EmptyString).
  - destruct (JS.test r (String c s)); [done|].
    cbn in *. apply andb_true_iff in Hs as [-> Hs]. by apply IH.
Qed.

End Appending.

(** ** [generateFinalFilename] *)

(** X1.  What [generateFinalFilename] returns, by the spelling of the extension:
    a name that does not end in [.jpg] in any case has its last extension
    replaced and the suffix inserted; a name ending in [.jpg] has the suffix
    inserted; a name ending in another spelling of [.jpg] is returned as it
    is. *)
Theorem generateFinalFilename_cases (uuid name : string) :
  let suffix := "_" +:+ JS.take 8 uuid +:+ ".jpg" in
  (JS.endsWith ".jpg" (JS.toLowerCase name) = false →
     generateFinalFilename uuid name
     = JS.replaceAtEnd extensionRegex EmptyString name +:+ suffix)
  ∧ (∀ stem, name = stem +:+ ".jpg" →
       generateFinalFilename uuid name = stem +:+ suffix)
  ∧ (JS.endsWith ".jpg" (JS.toLowerCase name) = true →
     JS.endsWith ".jpg" name = false →
     generateFinalFilename uuid name = name).
Proof.
  intros suffix. unfold generateFinalFilename, dotJpgRegex.
  split; [|split].
  - intros ->. cbn [negb]. apply replaceAtEnd_lit_suffix.
  - intros stem ->.
    assert (JS.endsWith ".jpg" (JS.toLowerCase (stem +:+ ".jpg")) = true)
      as ->.
    { unfold JS.toLowerCase. rewrite smap_append. apply endsWith_append. }
    cbn [negb]. apply replaceAtEnd_lit_suffix.
  - intros -> H. cbn [negb]. by apply replaceAtEnd_lit_none.
Qed.

Lemma generateFinalFilename_suffixed (name : string) :
  JS.endsWith ".jpg" (JS.toLowerCase name) = false
  ∨ JS.endsWith ".jpg" name = true →
  ∃ stem, ∀ uuid,
    generateFinalFilename uuid name
    = stem +:+ "_" +:+ JS.take 8 uuid +:+ ".jpg".
Proof.
  intros [H|H].
  - exists (JS.replaceAtEnd extensionRegex EmptyString name). intros uuid.
    unfold generateFinalFilename, dotJpgRegex. rewrite H. cbn [negb].
    apply replaceAtEnd_lit_suffix.
  - destruct (endsWith_split _ _ H) as [stem ->]. exists stem. intros uuid.
    unfold generateFinalFilename, dotJpgRegex.
    assert (JS.endsWith ".jpg" (JS.toLowerCase (stem +:+ ".jpg")) = true)
      as ->.
    { unfold JS.toLowerCase. rewrite smap_append. apply endsWith_append. }
    cbn [negb]. apply replaceAtEnd_lit_suffix.
Qed.

(** X2.  Two calls on the same name return the same final name only when the
    first eight characters of their random values agree, unless the name
    ends in a spelling of [.jpg] that is not all lower case. *)
Theorem generateFinalFilename_distinct (uuid1 uuid2 name : string) :
  JS.endsWith ".jpg" (JS.toLowerCase name) = false
  ∨ JS.endsWith ".jpg" name = true →
  generateFinalFilename uuid1 name = generateFinalFilename uuid2 name →
  JS.take 8 uuid1 = JS.take 8 uuid2.
Proof.
  intros Hname Heq.
  destruct (generateFinalFilename_suffixed name Hname) as [stem Hstem].
  rewrite !Hstem in Heq.
  do 2 apply append_cancel_l in Heq.
  by apply append_cancel_r in Heq.
Qed.

(** ** [maskSensitiveData] and [extractCookies] *)

(** X3.  A masked value is never longer than 50 characters, and one that mentions
    [Bearer] or [http] is cut to at most 13 or 33. *)
Theorem maskSensitiveData_bounded (data : string) :
  (String.length (maskSensitiveData data) <= 50)%nat
  ∧ (JS.includes "Bearer" data = true →
     (String.length (maskSensitiveData data) <= 13)%nat)
  ∧ (JS.includes "http" data = true →
     (String.length (maskSensitiveData data) <= 33)%nat).
Proof.
  unfold maskSensitiveData.
  pose proof (length_take 10 data). pose proof (length_take 30 data).
  pose proof (length_take 20 data).
  destruct (JS.includes "Bearer" data), (JS.includes "http" data);
    repeat split; intros; try done;
    rewrite ?length_append; cbn [String.length]; try lia.
  all: destruct (Nat.ltb_spec 50 (String.length data));
    rewrite ?length_append; cbn [String.length]; lia.
Qed.

Lemma sforall_rev_onto p acc s :
  JS.sforall p (JS.rev_onto acc s) = JS.sforall p acc && JS.sforall p s.
Proof.
  revert s. induction acc as [|c acc IH]; intros s; cbn; [done|].
  rewrite IH. cbn. destruct (p c), (JS.sforall p acc); cbn; try done.
Qed.

Lemma splitGo_first sep cur s :
  JS.sforall (λ c, negb (Ascii.eqb c sep)) cur = true →
  match JS.splitGo sep cur s with
  | piece :: _ => JS.sforall (λ c, negb (Ascii.eqb c sep)) piece = true
  | [] => False
  end.
Proof.
  revert cur. induction s as [|c s IH]; intros cur Hcur; cbn.
  - by rewrite sforall_rev_onto, Hcur.
  - destruct (Ascii.eqb c sep) eqn:E.
    + by rewrite sforall_rev_onto, Hcur.
    + apply IH. cbn. by rewrite E, Hcur.
Qed.



(** ** The session fetcher: requests, pauses and results *)
Section FetcherTraces.

Variables (w : World) (url : string) (maxRetries : nat).

Lemma bind_Forall {A B} (P : Event → Prop) (m : M A) (f : A → M B) :
  Forall P m.2 → (∀ a, Forall P (f a).2) → Forall P (bind m f).2.
Proof.
  destruct m as [[a|e] t]; cbn [bind fst snd]; intros Hm Hf; [|done].
  specialize (Hf a). destruct (f a) as [r t']. cbn [fst snd] in *.
  by apply Forall_app.
Qed.

Lemma fetch_Forall (P : Event → Prop) attempt step req :
  P (Fetched step req) → Forall P (fetch w attempt step req).2.
Proof.
  intros H. unfold fetch. cbn. destruct (net w attempt step req); cbn; auto.
Qed.

Lemma startsWith_split p s :
  JS.startsWith p s = true → ∃ rest, s = p +:+ rest.
Proof.
  revert s. induction p as [|a p IH]; intros s; [by exists s|].
  destruct s as [|c s]; cbn [JS.startsWith]; [done|].
  rewrite andb_true_iff. intros [->%Ascii.eqb_eq H].
  destruct (IH s H) as [rest ->]. by exists rest.
Qed.

Lemma startsWith_append p rest : JS.startsWith p (p +:+ rest) = true.
Proof.
  induction p as [|a p IH]; [done|].
  rewrite append_cons. cbn [JS.startsWith]. by rewrite Ascii.eqb_refl, IH.
Qed.

Lemma includes_startsWith p s :
  JS.startsWith p s = true → JS.includes p s = true.
Proof. destruct s; cbn [JS.includes]; by intros ->. Qed.

Lemma includes_append_l p a t :
  JS.includes p t = true → JS.includes p (a +:+ t) = true.
Proof.
  intros H. induction a as [|c a IH]; [done|].
  rewrite append_cons. cbn [JS.includes]. rewrite IH. apply orb_true_r.
Qed.

Lemma includes_split p s :
  JS.includes p s = true → ∃ a rest, s = a +:+ p +:+ rest.
Proof.
  induction s as [|c s IH]; cbn [JS.includes]; rewrite orb_true_iff.
  - intros [H|H]; [|done].
    destruct (startsWith_split _ _ H) as [rest ->]. by exists EmptyString, rest.
  - intros [H|H].
    + destruct (startsWith_split _ _ H) as [rest ->].
      by exists EmptyString, rest.
    + destruct (IH H) as (a & rest & ->). by exists (String c a), rest.
Qed.

Lemma includes_redirect s :
  JS.includes "gog/redirect" s || JS.includes "redirect" s = true →
  JS.includes "redirect" s = true.
Proof.
  rewrite orb_true_iff. intros [H|H]; [|done].
  destruct (includes_split _ _ H) as (a & rest & ->).
  apply includes_append_l.
  change ("gog/redirect" +:+ rest) with ("gog/" +:+ ("redirect" +:+ rest)).
  apply includes_append_l, includes_startsWith, startsWith_append.
Qed.

Lemma existsb_eqb_In x (seen : list string) :
  existsb (String.eqb x) seen = true ↔ In x seen.
Proof.
  rewrite existsb_exists. split.
  - intros (y & Hy & ->%String.eqb_eq). done.
  - intros H. exists x. by rewrite String.eqb_refl.
Qed.

Lemma dedupeGo_spec seen xs :
  NoDup (JS.dedupeGo seen xs)
  ∧ ∀ x, In x (JS.dedupeGo seen xs) → ¬ In x seen ∧ In x xs.
Proof.
  revert seen. induction xs as [|y xs IH]; intros seen; cbn.
  - split; [constructor|done].
  - destruct (existsb (String.eqb y) seen) eqn:E.
    + destruct (IH seen) as [H1 H2]. split; [done|].
      intros x Hx. destruct (H2 x Hx). auto.
    + destruct (IH (y :: seen)) as [H1 H2]. split.
      * constructor; [|done]. rewrite list_elem_of_In. intros Hy.
        destruct (H2 y Hy) as [Hn _]. apply Hn. by left.
      * intros x [<-|Hx].
        -- split; [|by left]. rewrite <- existsb_eqb_In. by rewrite E.
        -- destruct (H2 x Hx) as [Hn Hin]. split; [|by right].
           intros Hs. apply Hn. by right.
Qed.

Lemma dedupe_NoDup xs : NoDup (JS.dedupe xs).
Proof. apply dedupeGo_spec. Qed.

Lemma sessionSteps_discipline attempt :
  Forall (requestDiscipline url) (sessionSteps w url attempt).2.
Proof.
  unfold sessionSteps.
  apply bind_Forall; [by constructor|intros baseDomain].
  apply bind_Forall; [by apply fetch_Forall|intros domainResponse].
  apply bind_Forall; [by apply fetch_Forall|intros initialResponse].
  apply bind_Forall.
  - destruct (_ || _); [|by constructor].
    destruct (hdr_location initialResponse) as [location|]; [|by constructor].
    destruct (JS.isEmpty location); [by constructor|].
    apply bind_Forall.
    { destruct (JS.startsWith "http" location); [by constructor|].
      by constructor. }
    intros targetUrl.
    destruct (_ || _) eqn:E; [|by constructor].
    apply bind_Forall.
    { apply fetch_Forall. split; [done|]. by apply includes_redirect. }
    intros verificationResponse.
    apply bind_Forall; [by repeat constructor|intros _; by constructor].
  - intros allCookies. apply fetch_Forall.
    repeat split. eexists. split; [apply dedupe_NoDup|done].
Qed.

Lemma sessionSteps_pauses attempt :
  Forall noBackoff (sessionSteps w url attempt).2.
Proof.
  unfold sessionSteps.
  repeat first
    [ by apply fetch_Forall
    | by repeat constructor
    | apply bind_Forall; [|intros ?]
    | match goal with
      | |- context [if ?b then _ else _] => destruct b
      | |- context [match ?o with Some _ => _ | None => _ end] => destruct o
      end ].
Qed.

(** The events of a run, from those of its attempts. *)
Lemma attemptsFrom_Forall (P : Event → Prop) remaining attempt :
  (∀ a, (attempt <= a)%nat → Forall P (runAttempt w url a maxRetries).2) →
  (∀ a, (attempt <= a < maxRetries)%nat →
        (runAttempt w url a maxRetries).1 = EndOfBody →
        P (Slept (1000 * Z.of_nat a))) →
  Forall P (attemptsFrom w url maxRetries remaining attempt).2.
Proof.
  revert attempt.
  induction remaining as [|remaining IH]; intros attempt Hrun Hwait;
    [by constructor|].
  cbn [attemptsFrom].
  pose proof (Hrun attempt ltac:(lia)) as Hnow.
  pose proof (Hwait attempt) as Hpause.
  specialize (IH (S attempt) (λ a Ha, Hrun a ltac:(lia))
                (λ a Ha, Hwait a ltac:(lia))).
  destruct (runAttempt w url attempt maxRetries) as [flow t].
  destruct (attemptsFrom w url maxRetries remaining (S attempt)) as [r t'].
  cbn [fst snd] in *.
  destruct flow; cbn [fst snd]; [done| |].
  - by apply Forall_app.
  - apply Forall_app. split; [done|]. apply Forall_app. split; [|done].
    destruct (Nat.ltb_spec attempt maxRetries); [|by constructor].
    repeat constructor. apply Hpause; [lia|done].
Qed.

(** The pauses between attempts that end without a result. *)
Lemma attemptsFrom_backoff before attempt k remaining a :
  (attempt + before = k)%nat → (k <= maxRetries)%nat →
  (∀ b, (attempt <= b < k)%nat →
        (runAttempt w url b maxRetries).1 = EndOfBody) →
  (attempt <= a < k)%nat →
  In (Slept (1000 * Z.of_nat a))
    (attemptsFrom w url maxRetries (before + remaining) attempt).2.
Proof.
  revert attempt.
  induction before as [|before IH]; intros attempt Hsum Hk Hflow Ha; [lia|].
  cbn [Nat.add attemptsFrom].
  pose proof (Hflow attempt ltac:(lia)) as Hnow.
  specialize (IH (S attempt) ltac:(lia) Hk (λ b Hb, Hflow b ltac:(lia))).
  destruct (runAttempt w url attempt maxRetries) as [flow t].
  destruct (attemptsFrom w url maxRetries (before + remaining) (S attempt))
    as [r t'].
  cbn [fst snd] in *. subst flow. cbn [fst snd].
  assert ((attempt <? maxRetries)%nat = true) as -> by (apply Nat.ltb_lt; lia).
  apply in_or_app. right. apply in_or_app.
  destruct (decide (a = attempt)) as [->|Hne]; [left; by left|].
  right. apply IH. lia.
Qed.

Lemma runAttempt_Forall (P : Event → Prop) attempt :
  P (AttemptStarted attempt) →
  Forall P (sessionSteps w url attempt).2 →
  Forall P (runAttempt w url attempt maxRetries).2.
Proof. rewrite runAttempt_trace. by constructor. Qed.




End FetcherTraces.



(** X7.  An upstream that answers every attempt with a status outside 2xx: the
    fetcher pauses 1000 ms times the attempt number after each attempt but
    the last, and returns the failure built from the last response. *)
Theorem fetch_upstream_failure (w : World) (url : string) (maxRetries : nat) :
  (1 <= maxRetries)%nat →
  (∀ a, (1 <= a <= maxRetries)%nat →
        ∃ r, (sessionSteps w url a).1 = Ok r ∧ ok r = false) →
  let run := fetchImageWithSessionHandling w url maxRetries in
  (∃ r, (sessionSteps w url maxRetries).1 = Ok r
        ∧ run.1
          = Some (FetchFail
                    ("Failed to fetch image: " +:+ JS.showZ (status r) +:+ " "
                     +:+ statusText r)
                    (JS.take 300
                       match readBody r with
                       | Ok t => t
                       | Throws _ => "Unable to read response body"
                       end)
                    (Some (maskSensitiveData (resp_url r)))))
  ∧ attemptsMade run.2 = maxRetries
  ∧ ∀ a, (1 <= a < maxRetries)%nat → In (Slept (1000 * Z.of_nat a)) run.2.
Proof.
  intros Hmax Hall run. subst run. unfold fetchImageWithSessionHandling.
  assert (Hflow : ∀ a, (1 <= a <= maxRetries)%nat →
    ∃ r, (sessionSteps w url a).1 = Ok r
         ∧ (runAttempt w url a maxRetries).1
           = if (a =? maxRetries)%nat
             then Return (FetchFail
                    ("Failed to fetch image: " +:+ JS.showZ (status r) +:+ " "
                     +:+ statusText r)
                    (JS.take 300
                       match readBody r with
                       | Ok t => t
                       | Throws _ => "Unable to read response body"
                       end)
                    (Some (maskSensitiveData (resp_url r))))
             else EndOfBody).
  { intros a Ha. destruct (Hall a Ha) as (r & H1 & H2). exists r.
    split; [done|]. rewrite runAttempt_flow, H1. unfold handleFinal.
    rewrite H2. by destruct (a =? maxRetries)%nat. }
  assert (Hearly : ∀ a, (1 <= a < maxRetries)%nat →
            (runAttempt w url a maxRetries).1 = EndOfBody).
  { intros a Ha. destruct (Hflow a ltac:(lia)) as (r & _ & ->).
    by assert ((a =? maxRetries)%nat = false) as -> by (apply Nat.eqb_neq; lia). }
  destruct (Hflow maxRetries ltac:(lia)) as (r & Hr & Hlast).
  rewrite Nat.eqb_refl in Hlast.
  destruct (attemptsFrom_first_return w url maxRetries (maxRetries - 1) 1
              maxRetries 0 _ ltac:(lia)
              (λ a Ha r' Hr', ltac:(rewrite (Hearly a Ha) in Hr'; done))
              Hlast) as [H1 H2].
  replace (S (maxRetries - 1 + 0)) with maxRetries in H1, H2 by lia.
  split; [eauto|]. split; [lia|].
  intros a Ha.
  pose proof (attemptsFrom_backoff w url maxRetries (maxRetries - 1) 1
                (maxRetries) 1 a ltac:(lia) ltac:(lia)) as Hb.
  replace (maxRetries - 1 + 1)%nat with maxRetries in Hb by lia.
  apply Hb; [|lia]. intros b Hb'. apply Hearly. lia.
Qed.

(** X8.  A URL that cannot be parsed: no request is ever sent, yet the default
    three attempts are made with their pauses, and the result is the network
    error with the message of the parser. *)
Theorem fetch_unparsable_url (w : World) (url message : string) :
  url_origin w url = Throws message →
  fetchImageWithSessionHandling w url DEFAULT_MAX_RETRIES
  = (Some (FetchFail networkError message None),
     [AttemptStarted 1; Slept 1000; AttemptStarted 2; Slept 2000;
      AttemptStarted 3]).
Proof.
  intros H.
  assert (Hrun : ∀ a,
            runAttempt w url a DEFAULT_MAX_RETRIES
            = (caught a DEFAULT_MAX_RETRIES message, [AttemptStarted a])).
  { intros a. unfold runAttempt, sessionSteps. by rewrite H. }
  unfold fetchImageWithSessionHandling, DEFAULT_MAX_RETRIES in *.
  cbn [attemptsFrom]. by rewrite !Hrun.
Qed.

(** X9.  An origin that answers every attempt with an HTML page: the attempts
    follow one another without any backoff pause; the only pauses are the
    1500 ms after a verification page. *)
Theorem fetch_challenge_no_backoff (w : World) (url : string)
    (maxRetries : nat) :
  (∀ a, (1 <= a <= maxRetries)%nat →
        ∃ r text,
          (sessionSteps w url a).1 = Ok r
          ∧ ok r = true ∧ isImageType (hdr_contentType r) = false
          ∧ readBody r = Ok text ∧ looksLikeHtml text = true) →
  Forall noBackoff (fetchImageWithSessionHandling w url maxRetries).2.
Proof.
  intros Hall. unfold fetchImageWithSessionHandling.
  apply attemptsFrom_Forall.
  - intros a _. apply runAttempt_Forall; [done|]. apply sessionSteps_pauses.
  - intros a Ha Hflow. exfalso.
    destruct (Hall a ltac:(lia)) as (r & text & H1 & H2 & H3 & H4 & H5).
    rewrite runAttempt_flow, H1 in Hflow.
    rewrite (handleFinal_html maxRetries r a text) in Hflow by done.
    by destruct (a =? maxRetries)%nat.
Qed.

(** X10.  An origin that answers every attempt with a 2xx response that is neither
    an image nor an HTML page and has a body: the body, already read as text,
    cannot be read again, and the result is the network error. *)
Theorem fetch_other_content_fails (w : World) (url : string)
    (maxRetries : nat) :
  (1 <= maxRetries)%nat →
  (∀ a, (1 <= a <= maxRetries)%nat →
        ∃ r text,
          (sessionSteps w url a).1 = Ok r
          ∧ ok r = true ∧ isImageType (hdr_contentType r) = false
          ∧ body r = Some (Ok text) ∧ looksLikeHtml text = false) →
  let run := fetchImageWithSessionHandling w url maxRetries in
  run.1 = Some (FetchFail networkError bodyUsedMessage None)
  ∧ attemptsMade run.2 = maxRetries.
Proof.
  intros Hmax Hall run. subst run. unfold fetchImageWithSessionHandling.
  assert (Hflow : ∀ a, (1 <= a <= maxRetries)%nat →
            (runAttempt w url a maxRetries).1
            = caught a maxRetries bodyUsedMessage).
  { intros a Ha. destruct (Hall a Ha) as (r & text & H1 & H2 & H3 & H4 & H5).
    assert (Hread : readBody r = Ok text) by (unfold readBody; by rewrite H4).
    assert (Hagain : readBodyAgain r = Throws bodyUsedMessage)
      by (unfold readBodyAgain; by rewrite H4).
    rewrite runAttempt_flow, H1. unfold handleFinal.
    rewrite H2, H3, Hread. cbn. rewrite H5. cbn. by rewrite Hagain. }
  assert (Hlast := Hflow maxRetries ltac:(lia)).
  unfold caught in Hlast. rewrite Nat.eqb_refl in Hlast.
  destruct (attemptsFrom_first_return w url maxRetries (maxRetries - 1) 1
              maxRetries 0 (FetchFail networkError bodyUsedMessage None)
              ltac:(lia)) as [H1 H2]; [|done|].
  { intros a Ha r' Hr'. rewrite (Hflow a ltac:(lia)) in Hr'.
    unfold caught in Hr'.
    assert ((a =? maxRetries)%nat = false) as E by (apply Nat.eqb_neq; lia).
    by rewrite E in Hr'. }
  replace (S (maxRetries - 1 + 0)) with maxRetries in H1, H2 by lia.
  split; [done|lia].
Qed.

(** ** The upload: what reaches storage *)
Section Upload.

Variable w : World.

Lemma storeImage_trace uploadData data contentType mode :
  (storeImage w uploadData data contentType mode).2 = []
  ∨ (validateImageSize data DEFAULT_MAX_SIZE_BYTES = None
     ∧ ∃ name rawBranch,
         filename uploadData = Some name ∧ branch uploadData = Some rawBranch
         ∧ (storeImage w uploadData data contentType mode).2
           = [StorageUploaded
                (normalize rawBranch +:+ "/"
                 +:+ default "undefined" (date uploadData) +:+ "/"
                 +:+ generateFinalFilename (randomUUID w) name)
                data contentType]).
Proof.
  unfold storeImage.
  destruct (validateImageSize data DEFAULT_MAX_SIZE_BYTES); [by left|].
  destruct (filename uploadData) as [name|]; [|by left].
  destruct (branch uploadData) as [rawBranch|]; [|by left].
  right. split; [done|]. exists name, rawBranch. repeat split.
  cbn. by destruct (storage_upload w _ _ _).
Qed.

Lemma discipline_no_storage url t :
  Forall (requestDiscipline url) t → storageWrites t = [].
Proof.
  induction 1 as [|e t He _ IH]; [done|].
  unfold storageWrites in *. cbn. rewrite IH. by destruct e.
Qed.

Lemma storageWrites_app t1 t2 :
  storageWrites (t1 ++ t2) = storageWrites t1 ++ storageWrites t2.
Proof. apply List.filter_app. Qed.

Lemma In_storageWrites e t :
  In e t → isStorageWrite e = true → In e (storageWrites t).
Proof. intros. apply filter_In. auto. Qed.

(** The events of an upload: those of the fetch, if any, then those of the
    storage step. *)
Lemma processImageUpload_trace uploadData imageFile :
  ∃ fetched stored,
    (processImageUpload w uploadData imageFile).2 = fetched ++ stored
    ∧ storageWrites fetched = []
    ∧ (imageFile ≠ None → fetched = [])
    ∧ (stored = []
       ∨ ∃ data contentType mode,
           stored = (storeImage w uploadData data contentType mode).2
           ∧ (∀ file, imageFile = Some file →
                data = file_data file
                ∧ contentType
                  = (if JS.isEmpty (file_type file)
                     then "application/octet-stream" else file_type file))).
Proof.
  unfold processImageUpload. destruct imageFile as [file|].
  - exists [], (storeImage w uploadData (file_data file)
                  (if JS.isEmpty (file_type file)
                   then "application/octet-stream" else file_type file)
                  "direct-upload").2.
    repeat split; try done. right. do 3 eexists. split; [done|].
    by intros ? [= <-].
  - destruct (truthy (imageUrl uploadData)).
    2: { exists [], []. split; [done|]. split; [done|].
         split; [by intros []|]. by left. }
    set (url := default EmptyString (imageUrl uploadData)).
    assert (Hd : Forall (requestDiscipline url)
                   (fetchImageWithSessionHandling w url
                      DEFAULT_MAX_RETRIES).2).
    { apply attemptsFrom_Forall; [|done].
      intros a _. apply runAttempt_Forall; [done|].
      apply sessionSteps_discipline. }
    apply discipline_no_storage in Hd.
    destruct (fetchImageWithSessionHandling w _ DEFAULT_MAX_RETRIES)
      as [[[data ct|error details finalUrl]|] t]; cbn [required bind fst snd] in *.
    + destruct (storeImage w uploadData data ct "url-upload") as [r t'] eqn:E.
      exists t, t'. cbn [fst snd].
      split; [done|]. split; [done|]. split; [by intros []|].
      right. exists data, ct, "url-upload". rewrite E. split; [done|].
      by intros file [=].
    + exists t, [].
      split; [by destruct (looksLikeHtml details); cbn; rewrite app_nil_r|].
      split; [done|]. split; [by intros []|]. by left.
    + exists t, []. rewrite app_nil_r.
      split; [done|]. split; [done|]. split; [by intros []|]. by left.
Qed.

End Upload.

(** X11.  Whatever the world and the request, an upload writes to storage at most
    once, and never more than 10 MiB. *)
Theorem upload_storage_bound (w : World) (uploadData : UploadData)
    (imageFile : option ImageFile) :
  let trace := (processImageUpload w uploadData imageFile).2 in
  (length (storageWrites trace) <= 1)%nat
  ∧ ∀ path data contentType,
      In (StorageUploaded path data contentType) trace →
      Z.of_nat (length data) <= DEFAULT_MAX_SIZE_BYTES.
Proof.
  intros trace. subst trace.
  destruct (processImageUpload_trace w uploadData imageFile)
    as (fetched & stored & -> & Hf & _ & Hs).
  rewrite storageWrites_app, Hf. cbn [app].
  destruct Hs as [-> | (data & ct & mode & -> & _)].
  { split; [cbn; lia|]. intros path data ct Hin. rewrite app_nil_r in Hin.
    apply In_storageWrites with (t := fetched) in Hin; [|done].
    by rewrite Hf in Hin. }
  destruct (storeImage_trace w uploadData data ct mode)
    as [-> | (Hsize & name & rawBranch & _ & _ & ->)].
  { split; [cbn; lia|]. intros path data' ct' Hin. rewrite app_nil_r in Hin.
    apply In_storageWrites with (t := fetched) in Hin; [|done].
    by rewrite Hf in Hin. }
  split; [cbn; lia|]. intros path data' ct' Hin.
  apply in_app_or in Hin as [Hin | [Hin | []]].
  - apply In_storageWrites with (t := fetched) in Hin; [|done].
    by rewrite Hf in Hin.
  - injection Hin as _ <- _. unfold validateImageSize in Hsize.
    destruct (Z.ltb_spec DEFAULT_MAX_SIZE_BYTES (Z.of_nat (length data)));
      [done|lia].
Qed.

(** X12.  A direct upload sends no request and makes no pause: all it does is at
    most one storage write, of the bytes of the file under the type of the
    file, or [application/octet-stream] when the file declares none. *)
Theorem direct_upload_events (w : World) (uploadData : UploadData)
    (file : ImageFile) :
  let trace := (processImageUpload w uploadData (Some file)).2 in
  trace = []
  ∨ ∃ path,
      trace = [StorageUploaded path (file_data file)
                 (if JS.isEmpty (file_type file)
                  then "application/octet-stream" else file_type file)].
Proof.
  cbn [processImageUpload].
  destruct (storeImage_trace w uploadData (file_data file)
              (if JS.isEmpty (file_type file)
               then "application/octet-stream" else file_type file)
              "direct-upload") as [H | (_ & name & rawBranch & _ & _ & H)];
    rewrite H; eauto.
Qed.

Lemma fetch_challenge_result (w : World) (url : string) (maxRetries : nat) :
  (1 <= maxRetries)%nat →
  (∀ a, (1 <= a <= maxRetries)%nat →
        ∃ r text,
          (sessionSteps w url a).1 = Ok r
          ∧ ok r = true ∧ isImageType (hdr_contentType r) = false
          ∧ readBody r = Ok text ∧ looksLikeHtml text = true) →
  ∃ r text,
    (sessionSteps w url maxRetries).1 = Ok r ∧ readBody r = Ok text
    ∧ (fetchImageWithSessionHandling w url maxRetries).1
      = Some (FetchFail botProtectionError (JS.take 300 text)
                (Some (maskSensitiveData (resp_url r)))).
Proof.
  intros Hmax Hall. unfold fetchImageWithSessionHandling.
  assert (Hflow : ∀ a, (1 <= a <= maxRetries)%nat →
    ∃ r text,
      (sessionSteps w url a).1 = Ok r ∧ readBody r = Ok text
      ∧ (runAttempt w url a maxRetries).1
        = if (a =? maxRetries)%nat
          then Return (FetchFail botProtectionError (JS.take 300 text)
                         (Some (maskSensitiveData (resp_url r))))
          else Continue).
  { intros a Ha. destruct (Hall a Ha) as (r & text & H1 & H2 & H3 & H4 & H5).
    exists r, text. rewrite runAttempt_flow, H1.
    by rewrite (handleFinal_html maxRetries r a text). }
  destruct (Hflow maxRetries ltac:(lia)) as (r & text & Hr & Ht & Hlast).
  rewrite Nat.eqb_refl in Hlast.
  assert (Hprior : ∀ a, (1 <= a < maxRetries)%nat →
            ∀ r', (runAttempt w url a maxRetries).1 ≠ Return r').
  { intros a Ha r' Hr'.
    destruct (Hflow a ltac:(lia)) as (r0 & t0 & _ & _ & Ha').
    assert ((a =? maxRetries)%nat = false) as E by (apply Nat.eqb_neq; lia).
    rewrite E in Ha'. congruence. }
  destruct (attemptsFrom_first_return w url maxRetries (maxRetries - 1) 1
              maxRetries 0 _ ltac:(lia) Hprior Hlast) as [H1 _].
  replace (S (maxRetries - 1 + 0)) with maxRetries in H1 by lia.
  exists r, text. auto.
Qed.

(** X13.  A URL upload whose origin answers every attempt with an HTML page
    stores nothing.  It is reported as bot protection when the first 300
    characters of the last page hold one of the HTML markers, and as the
    fetcher's own failure when the marker comes later in the page. *)
Theorem upload_challenge_report (w : World) (uploadData : UploadData)
    (url : string) :
  imageUrl uploadData = Some url → url ≠ EmptyString →
  (∀ a, (1 <= a <= DEFAULT_MAX_RETRIES)%nat →
        ∃ r text,
          (sessionSteps w url a).1 = Ok r
          ∧ ok r = true ∧ isImageType (hdr_contentType r) = false
          ∧ readBody r = Ok text ∧ looksLikeHtml text = true) →
  ∃ r text,
    (sessionSteps w url DEFAULT_MAX_RETRIES).1 = Ok r ∧ readBody r = Ok text
    ∧ (processImageUpload w uploadData None).1
      = Ok (if looksLikeHtml (JS.take 300 text)
            then UploadBotProtection botProtectionError
            else UploadFail botProtectionError (Some (JS.take 300 text))
                   (Some (maskSensitiveData (resp_url r))))
    ∧ storageWrites (processImageUpload w uploadData None).2 = [].
Proof.
  intros Hurl Hne Hall.
  destruct (fetch_challenge_result w url DEFAULT_MAX_RETRIES
              ltac:(unfold DEFAULT_MAX_RETRIES; lia) Hall)
    as (r & text & Hr & Ht & Hres).
  exists r, text. split; [done|]. split; [done|].
  assert (Hd : Forall (requestDiscipline url)
               (fetchImageWithSessionHandling w url DEFAULT_MAX_RETRIES).2).
  { apply attemptsFrom_Forall; [|done].
    intros a _. apply runAttempt_Forall; [done|].
    apply sessionSteps_discipline. }
  apply discipline_no_storage in Hd.
  unfold processImageUpload. rewrite Hurl. cbn [truthy default from_option id].
  assert (JS.isEmpty url = false) as -> by by destruct url.
  cbn [negb].
  destruct (fetchImageWithSessionHandling w url DEFAULT_MAX_RETRIES)
    as [res t]. cbn [fst snd] in *. subst res. cbn [required bind].
  destruct (looksLikeHtml (JS.take 300 text)); cbn; by rewrite app_nil_r.
Qed.

(** ** The storage path of a validated request *)

Lemma requiredError_nil field msg :
  requiredError field msg = [] → truthy field = true.
Proof. unfold requiredError. by destruct (truthy field). Qed.

Lemma validateUploadData_nil uploadData :
  validateUploadData uploadData = [] →
  ∃ b d f,
    branch uploadData = Some b ∧ date uploadData = Some d
    ∧ filename uploadData = Some f
    ∧ JS.test dateRegex d = true ∧ JS.test validFilenamePattern f = true.
Proof.
  unfold validateUploadData. intros H.
  repeat (apply app_eq_nil in H as [? H]).
  repeat match goal with
         | H : requiredError _ _ = [] |- _ => apply requiredError_nil in H
         end.
  destruct (patternError_nil _ _ _ ltac:(eassumption) H) as (f & Hf & Hft).
  destruct (patternError_nil (date uploadData) dateRegex _
              ltac:(eassumption) ltac:(eassumption)) as (d & Hd & Hdt).
  destruct (branch uploadData) as [b|]; [|done].
  by exists b, d, f.
Qed.


Lemma generateFinalFilename_within (P : ascii → bool) uuid name :
  JS.sforall P name = true → JS.sforall P (JS.take 8 uuid) = true →
  JS.sforall P "_.jpg" = true →
  JS.sforall P (generateFinalFilename uuid name) = true.
Proof.
  intros Hname Huuid Hfixed. cbn in Hfixed.
  repeat (apply andb_true_iff in Hfixed as [? Hfixed]).
  unfold generateFinalFilename.
  apply replaceAtEnd_within.
  - destruct (negb _); [|done].
    rewrite sforall_append. rewrite replaceAtEnd_within by done.
    cbn. by repeat (apply andb_true_iff; split).
  - rewrite !sforall_append, Huuid. cbn.
    by repeat (apply andb_true_iff; split).
Qed.

(** X14.  For a request that passed validation, with a random value of the UUID
    shape, anything written to storage goes to a path of exactly three
    segments, the normalized branch, the date and the final filename, none
    of which contains a slash. *)
Theorem storage_path_three_segments (w : World) (uploadData : UploadData)
    (imageFile : option ImageFile) (path : string) (data : list Byte.byte)
    (contentType : string) :
  validateUploadData uploadData = [] →
  JS.test Webhook.uuidRegex (randomUUID w) = true →
  In (StorageUploaded path data contentType)
    (processImageUpload w uploadData imageFile).2 →
  ∃ b d f,
    branch uploadData = Some b ∧ date uploadData = Some d
    ∧ filename uploadData = Some f
    ∧ path = normalize b +:+ "/" +:+ d +:+ "/"
             +:+ generateFinalFilename (randomUUID w) f
    ∧ JS.sforall notSlash (normalize b) = true
    ∧ JS.sforall notSlash d = true
    ∧ JS.sforall notSlash (generateFinalFilename (randomUUID w) f) = true.
Proof.
  intros Hvalid Huuid Hin.
  destruct (validateUploadData_nil _ Hvalid)
    as (b & d & f & Hb & Hd & Hf & Hdt & Hft).
  exists b, d, f. do 3 (split; [done|]).
  assert (Hpath : path = normalize b +:+ "/" +:+ d +:+ "/"
                         +:+ generateFinalFilename (randomUUID w) f).
  { destruct (processImageUpload_trace w uploadData imageFile)
      as (fetched & stored & Ht & Hfetched & _ & Hs).
    rewrite Ht in Hin. apply in_app_or in Hin as [Hin|Hin].
    { apply In_storageWrites in Hin; [|done]. by rewrite Hfetched in Hin. }
    destruct Hs as [-> | (data' & ct & mode & -> & _)]; [done|].
    destruct (storeImage_trace w uploadData data' ct mode)
      as [H | (_ & name & rawBranch & Hn & Hr & H)];
      rewrite H in Hin; [done|].
    destruct Hin as [[= <- _ _]|[]].
    rewrite Hd. cbn [default from_option id]. congruence. }
  split; [done|].
  split.
  { eapply sforall_impl; [|apply normalize_slug]. all_characters. }
  split.
  { eapply sforall_impl; [|apply (test_within _ _ _ date_classes Hdt)].
    all_characters. }
  apply generateFinalFilename_within; [| |done].
  - eapply sforall_impl;
      [|apply (test_within _ _ _ filename_classes Hft)].
    all_characters.
  - apply sforall_take.
    eapply sforall_impl; [|apply (test_within _ _ _ uuid_classes Huuid)].
    all_characters.
Qed.

(** ** The rate limiter: what the store holds *)

Lemma checkRateLimit_own_entry (store : gmap string ClientData)
    (clientIP : string) (now : Z) (data' : ClientData) :
  (checkRateLimit clientIP now store).2 !! clientIP = Some data' →
  let kept :=
    List.filter (inWindow now)
      (requests (default {| requests := []; lastCleanup := now |}
                   (store !! clientIP))) in
  (requests data' = kept
   ∧ (RATE_LIMIT_MAX_REQUESTS <= length kept)%nat
   ∧ is_Some (store !! clientIP))
  ∨ (requests data' = kept ++ [now]
     ∧ (length kept < RATE_LIMIT_MAX_REQUESTS)%nat).
Proof.
  unfold checkRateLimit.
  set (clientData := default _ (store !! clientIP)).
  set (kept := List.filter _ _). cbn zeta.
  destruct (Nat.leb_spec RATE_LIMIT_MAX_REQUESTS (length kept)) as [Hfull|Hroom];
    cbn [fst snd].
  - destruct (store !! clientIP) as [data|] eqn:E.
    + rewrite lookup_insert_eq. intros [= <-]. left. eauto.
    + rewrite E. done.
  - destruct (RATE_LIMIT_WINDOW <? now - lastCleanup clientData);
      cbn [fst snd].
    + match goal with
      | |- match ?m !! clientIP with _ => _ end !! clientIP = _ → _ =>
          destruct (m !! clientIP) eqn:E
      end.
      * rewrite lookup_insert_eq. intros [= <-]. right. eauto.
      * rewrite E. done.
    + rewrite lookup_insert_eq. intros [= <-]. right. eauto.
Qed.

Lemma boundedStore_check (store : gmap string ClientData)
    (clientIP : string) (now : Z) :
  boundedStore store → boundedStore (checkRateLimit clientIP now store).2.
Proof.
  intros Hb other data' Hdata'.
  destruct (decide (other = clientIP)) as [->|Hne].
  - apply checkRateLimit_own_entry in Hdata'. cbn zeta in Hdata'.
    destruct Hdata' as [(-> & Hfull & [data Hdata]) | (-> & Hroom)].
    + rewrite Hdata in *. cbn [default from_option id] in *.
      pose proof (List.filter_length_le (inWindow now) (requests data)).
      specialize (Hb _ _ Hdata). unfold RATE_LIMIT_MAX_REQUESTS in *. lia.
    + rewrite length_app. cbn [length]. lia.
  - destruct (check_other_kept_or_gone store clientIP now other Hne)
      as [H|H]; rewrite H in Hdata'; [|done].
    by apply (Hb other).
Qed.

(** X15.  Starting from the empty store, whatever checks are made, every entry
    holds at least one and at most thirty timestamps. *)
Theorem rate_limit_store_bounded (checks : list (string * Z)) :
  boundedStore (runChecks checks ∅).
Proof.
  assert (H : ∀ store, boundedStore store →
                boundedStore (runChecks checks store)).
  { induction checks as [|check checks IH]; intros store Hb; [done|].
    unfold runChecks in *. cbn [fold_left].
    by apply IH, boundedStore_check. }
  apply H. intros clientIP data Hdata. by rewrite lookup_empty in Hdata.
Qed.

(** X16.  A key that is denied and asks again at the reset time it was given, or
    later, is admitted, whatever checks other keys made in between. *)
Theorem denied_then_allowed_at_reset
    (store : gmap string ClientData) (clientIP : string) (now : Z)
    (data : ClientData) (resetTime : Z) :
  store !! clientIP = Some data →
  (length (requests data) <= RATE_LIMIT_MAX_REQUESTS)%nat →
  (checkRateLimit clientIP now store).1 = Denied (Some resetTime) →
  ∀ (others : list (string * Z)) (later : Z),
    Forall (λ check, check.1 ≠ clientIP) others →
    resetTime <= later →
    (checkRateLimit clientIP later
       (runChecks others (checkRateLimit clientIP now store).2)).1 = Allowed.
Proof.
  intros Hdata Hlen Hdenied others later Hothers Hlater.
  set (kept := List.filter (inWindow now) (requests data)).
  assert (Hfull : (RATE_LIMIT_MAX_REQUESTS <= length kept)%nat).
  { destruct (Nat.leb_spec RATE_LIMIT_MAX_REQUESTS (length kept)) as [H|H];
      [done|].
    exfalso. revert Hdenied. unfold checkRateLimit. rewrite Hdata.
    cbn [default from_option id]. fold kept.
    apply Nat.leb_gt in H. rewrite H.
    by destruct (RATE_LIMIT_WINDOW <? _). }
  rewrite (check_denied store clientIP now data Hdata Hfull) in *.
  cbn [fst snd] in *. fold kept in Hdenied |- *.
  pose proof (List.filter_length_le (inWindow now) (requests data)) as Hle.
  fold kept in Hle.
  destruct kept as [|t0 rest] eqn:Hkept;
    [unfold RATE_LIMIT_MAX_REQUESTS in Hfull; cbn in Hfull; lia|].
  cbn in Hdenied. injection Hdenied as <-.
  destruct (runChecks_other_kept_or_gone others
              (<[clientIP := {| requests := t0 :: rest;
                                lastCleanup := lastCleanup data |}]> store)
              clientIP Hothers) as [Heq | Heq].
  - unfold checkRateLimit. rewrite Heq, lookup_insert_eq.
    cbn [default from_option id requests List.filter].
    assert (inWindow later t0 = false) as ->.
    { unfold inWindow. apply Z.ltb_ge. lia. }
    pose proof (List.filter_length_le (inWindow later) rest) as Hrest.
    assert ((RATE_LIMIT_MAX_REQUESTS
               <=? length (List.filter (inWindow later) rest))%nat = false)
      as ->.
    { apply Nat.leb_gt. cbn [length] in Hle. lia. }
    by destruct (RATE_LIMIT_WINDOW <? _).
  - apply check_allowed_when_expired. intros data' t Hd. by rewrite Heq in Hd.
Qed.

(** ** The relay: attempts and calls *)
Section RelayCounts.

Import Webhook.

Variables (cfg : Config) (w : RelayWorld) (request : BuildShipPayload).

Lemma relayFrom_counts remaining attempt :
  (attempt + remaining = MAX_RETRIES cfg)%nat →
  let run := relayFrom cfg w request (S remaining) attempt in
  (posts run.2 + attempt = attemptsOf run.1 + 1)%nat
  ∧ (attempt <= attemptsOf run.1 <= MAX_RETRIES cfg)%nat.
Proof.
  revert attempt. induction remaining as [|remaining IH]; intros attempt Hsum.
  - assert (attempt = MAX_RETRIES cfg) as Hlast by lia.
    cbn [relayFrom]. rewrite <- Hlast. rewrite Nat.ltb_irrefl, Nat.eqb_refl.
    destruct (relay w attempt request) as [r|name message].
    + destruct (r_ok r); [cbn; lia|].
      destruct (isClientError (r_status r)); cbn; lia.
    + destruct (isAbort name message); cbn; lia.
  - specialize (IH (S attempt) ltac:(lia)). cbn zeta in IH.
    remember (S remaining) as n eqn:Hn. cbn [relayFrom].
    assert ((attempt <? MAX_RETRIES cfg)%nat = true) as ->
      by (apply Nat.ltb_lt; lia).
    assert ((attempt =? MAX_RETRIES cfg)%nat = false) as ->
      by (apply Nat.eqb_neq; lia).
    destruct (relayFrom cfg w request n (S attempt)) as [res t].
    cbn [fst snd] in IH.
    assert (∀ delay,
      posts (Posted attempt request :: Waited delay :: t) = S (posts t))
      as Hcount by done.
    destruct (relay w attempt request) as [r|name message].
    + destruct (r_ok r); [cbn; lia|].
      destruct (isClientError (r_status r)); cbn [fst snd];
        [cbn; lia|]. rewrite Hcount. lia.
    + destruct (isAbort name message); cbn [fst snd]; rewrite Hcount; lia.
Qed.

(** A success after failures that were retried. *)
Lemma relayFrom_success before attempt k remaining r :
  (attempt + before = k)%nat → (k + remaining = MAX_RETRIES cfg)%nat →
  (∀ a, (attempt <= a < k)%nat → transientFailure (relay w a request)) →
  relay w k request = Responded r → r_ok r = true →
  let run := relayFrom cfg w request (S (before + remaining)) attempt in
  run.1 = RelayOk (r_status r)
            match r_text r with
            | Ok t => t
            | Throws _ => "Unable to read response body"
            end k (elapsed w k)
  ∧ posts run.2 = S before.
Proof.
  revert attempt. induction before as [|before IH];
    intros attempt Hsum Hmax Hearly Hk Hok.
  - assert (attempt = k) as -> by lia. cbn [relayFrom Nat.add].
    by rewrite Hk, Hok.
  - specialize (IH (S attempt) ltac:(lia) Hmax
                  (λ a Ha, Hearly a ltac:(lia)) Hk Hok).
    cbn zeta in IH. cbn [Nat.add].
    remember (S (before + remaining)) as n eqn:Hn. cbn [relayFrom].
    assert ((attempt <? MAX_RETRIES cfg)%nat = true) as ->
      by (apply Nat.ltb_lt; lia).
    assert ((attempt =? MAX_RETRIES cfg)%nat = false) as ->
      by (apply Nat.eqb_neq; lia).
    pose proof (Hearly attempt ltac:(lia)) as Hnow.
    destruct (relayFrom cfg w request n (S attempt)) as [res t].
    cbn [fst snd] in IH. destruct IH as [-> Hposts].
    assert (∀ delay,
      posts (Posted attempt request :: Waited delay :: t) = S (S before))
      as Hcount by (intros; unfold posts in *; cbn; lia).
    destruct (relay w attempt request) as [r0|name message].
    + destruct (transient_response r0 Hnow) as [-> ->]. by cbn [fst snd].
    + by destruct (isAbort name message); cbn [fst snd].
Qed.

End RelayCounts.

(** X19.  With at least one attempt configured, the attempt count a relay result
    reports is the number of calls that were made, between one and
    [MAX_RETRIES], whatever the relay answered. *)
Theorem relay_attempts_are_calls (cfg : Webhook.Config)
    (w : Webhook.RelayWorld) (payload : Webhook.Payload)
    (imageData : Webhook.ImageData) :
  (1 <= Webhook.MAX_RETRIES cfg)%nat →
  let run := Webhook.sendToBuildShipWith cfg w payload imageData in
  Webhook.posts run.2 = Webhook.attemptsOf run.1
  ∧ (1 <= Webhook.attemptsOf run.1 <= Webhook.MAX_RETRIES cfg)%nat.
Proof.
  intros Hmax run. subst run. unfold Webhook.sendToBuildShipWith.
  destruct (Webhook.MAX_RETRIES cfg) as [|n] eqn:Hn; [lia|].
  pose proof (relayFrom_counts cfg w
                (Webhook.buildShipPayload w payload imageData) n 1
                ltac:(lia)) as H.
  cbn zeta in H. rewrite Hn in H. lia.
Qed.

(** X20.  When the attempts before the [k]-th meet transient failures and the
    [k]-th is answered with a 2xx status, the relay succeeds with the status
    and body of that answer, reports [k] attempts, and has made [k] calls. *)
Theorem relay_succeeds_after_retries (cfg : Webhook.Config)
    (w : Webhook.RelayWorld) (payload : Webhook.Payload)
    (imageData : Webhook.ImageData) (k : nat) (r : Webhook.RelayResponse) :
  (1 <= k <= Webhook.MAX_RETRIES cfg)%nat →
  let request := Webhook.buildShipPayload w payload imageData in
  (∀ a, (1 <= a < k)%nat →
        Webhook.transientFailure (Webhook.relay w a request)) →
  Webhook.relay w k request = Webhook.Responded r →
  Webhook.r_ok r = true →
  let run := Webhook.sendToBuildShipWith cfg w payload imageData in
  run.1 = Webhook.RelayOk (Webhook.r_status r)
            match Webhook.r_text r with
            | Ok t => t
            | Throws _ => "Unable to read response body"
            end k (Webhook.elapsed w k)
  ∧ Webhook.posts run.2 = k.
Proof.
  intros Hk request Hearly Hresp Hok run. subst run.
  unfold Webhook.sendToBuildShipWith. fold request.
  pose proof (relayFrom_success cfg w request (k - 1) 1 k
                (Webhook.MAX_RETRIES cfg - k) r ltac:(lia) ltac:(lia)
                Hearly Hresp Hok) as H.
  cbn zeta in H.
  replace (S (k - 1 + (Webhook.MAX_RETRIES cfg - k)))
    with (Webhook.MAX_RETRIES cfg) in H by lia.
  destruct H as [-> ->]. split; [done|lia].
Qed.

(** ** The request handler of the upload function *)


(** X21.  The image proxy answers a [GET] under [/image-proxy] from the [url]
    parameter alone: the reply is the same whatever the [Authorization]
    header, the environment and the state of the rate limiter, and the
    rate-limit store is left as it was. *)
Theorem image_proxy_unguarded (sw : ServeWorld) (env env' : Env)
    (store store' : gmap string ClientData) (req req' : HttpRequest) :
  req_method req = "GET" → req_method req' = "GET" →
  JS.startsWith "/image-proxy" (req_pathname req) = true →
  JS.startsWith "/image-proxy" (req_pathname req') = true →
  req_queryUrl req = req_queryUrl req' →
  (serve sw env store req).1.1 = (serve sw env' store' req').1.1
  ∧ (serve sw env store req).1.2 = store
  ∧ (serve sw env store req).2 = [].
Proof.
  intros Hm Hm' Hp Hp' Hq. unfold serve.
  rewrite Hm, Hm', Hp, Hp'. cbn. unfold imageProxy. by rewrite Hq.
Qed.


(** X23.  The rate limiter comes first: a [POST] of a key that already holds
    thirty timestamps inside the window is answered 429, whatever its token
    and body, and nothing else happens.  The reset time lies after the
    check, and the [Retry-After] header is at least one second when it is
    computed before the reset time. *)
Theorem rate_limit_precedes_token (sw : ServeWorld) (env : Env)
    (store : gmap string ClientData) (req : HttpRequest)
    (data : ClientData) :
  req_method req = "POST" →
  store !! clientKey req = Some data →
  (RATE_LIMIT_MAX_REQUESTS
     <= length (List.filter (inWindow (clock sw)) (requests data)))%nat →
  ∃ resetTime,
    (serve sw env store req).1.1
    = RateLimited resetTime (ceilSeconds (resetTime - clock' sw))
    ∧ (serve sw env store req).2 = []
    ∧ clock sw < resetTime
    ∧ (clock' sw < resetTime → 1 <= ceilSeconds (resetTime - clock' sw)).
Proof.
  intros Hpost Hdata Hfull. unfold serve. rewrite Hpost. cbn.
  rewrite (check_denied store (clientKey req) (clock sw) data Hdata Hfull).
  destruct (List.filter (inWindow (clock sw)) (requests data))
    as [|t kept] eqn:E;
    [unfold RATE_LIMIT_MAX_REQUESTS in Hfull; cbn in Hfull; lia|].
  assert (Ht : In t (List.filter (inWindow (clock sw)) (requests data)))
    by (rewrite E; by left).
  apply filter_In in Ht as [_ Ht]. unfold inWindow in Ht.
  apply Z.ltb_lt in Ht.
  exists (t + RATE_LIMIT_WINDOW). cbn. unfold RATE_LIMIT_WINDOW in *.
  repeat split; [lia|].
  intros H. unfold ceilSeconds.
  assert (- (t + 60000 - clock' sw) / 1000 < 0); [|lia].
  apply Z.div_lt_upper_bound; lia.
Qed.

(** X24.  Every [POST] is counted by the rate limiter before its configuration,
    token and body are looked at: the store after the request is the store
    after the check, whatever the reply; any other request leaves the store
    as it was. *)
Theorem serve_counts_every_post (sw : ServeWorld) (env : Env)
    (store : gmap string ClientData) (req : HttpRequest) :
  (serve sw env store req).1.2
  = if String.eqb (req_method req) "POST"
    then (checkRateLimit (clientKey req) (clock sw) store).2
    else store.
Proof.
  unfold serve.
  destruct (String.eqb_spec (req_method req) "POST") as [Hpost|Hne].
  - rewrite Hpost. cbn.
    destruct (checkRateLimit (clientKey req) (clock sw) store)
      as [[|[resetTime|]] store1]; cbn [fst snd]; try done.
    destruct (negb _); [done|].
    destruct (req_authorization req) as [authHeader|]; [|done].
    destruct (_ || _); [done|]. destruct (negb _); [done|].
    by destruct (parseAndUpload sw req).
  - destruct (_ && _); [done|].
    by destruct (String.eqb (req_method req) "OPTIONS").
Qed.

(** X25.  Every reply of the handler has a status [new Response] accepts, between
    200 and 599: a status of the proxied origin is passed on only when it is
    one. *)
Theorem serve_status_valid (sw : ServeWorld) (env : Env)
    (store : gmap string ClientData) (req : HttpRequest) :
  200 <= statusOf (serve sw env store req).1.1 <= 599.
Proof.
  unfold serve.
  destruct (_ && _).
  { cbn [fst]. unfold imageProxy.
    destruct (req_queryUrl req) as [u|]; [|cbn; lia].
    destruct (JS.isEmpty u); [cbn; lia|].
    destruct (proxy_fetch sw u) as [r|]; [|cbn; lia].
    destruct (proxy_ok r); [cbn; lia|].
    destruct (acceptsBody (proxy_status r)) eqn:E; [|cbn; lia].
    cbn [statusOf]. unfold acceptsBody in E. lia. }
  destruct (String.eqb (req_method req) "OPTIONS"); [cbn; lia|].
  destruct (negb _); [cbn; lia|].
  destruct (checkRateLimit (clientKey req) (clock sw) store)
    as [[|[resetTime|]] store1]; [|cbn; lia..].
  destruct (negb _); [cbn; lia|].
  destruct (req_authorization req) as [authHeader|]; [|cbn; lia].
  destruct (_ || _); [cbn; lia|]. destruct (negb _); [cbn; lia|].
  unfold parseAndUpload.
  destruct (JS.includes _ _).
  - destruct (req_form req) as [formData|]; [|cbn; lia].
    destruct (form_image formData) as [[file|text]|]; [| |cbn; lia].
    + destruct (handleUpload _ _ _) as [[| | |] t]; cbn; lia.
    + destruct (JS.isEmpty text); [cbn; lia|].
      destruct (0 <? _)%nat; cbn; lia.
  - destruct (req_json req) as [[uploadData|]|]; [|cbn; lia..].
    destruct (handleUpload _ _ _) as [[| | |] t]; cbn; lia.
Qed.


(** ** The quota of one window *)

Lemma filter_all {A} (p : A → bool) (l : list A) :
  (∀ x, In x l → p x = true) → List.filter p l = l.
Proof.
  induction l as [|x l IH]; intros H; cbn; [done|].
  rewrite (H x) by by left. f_equal. apply IH. intros y Hy. apply H. by right.
Qed.

Lemma check_allowed_within_window (store : gmap string ClientData)
    (clientIP : string) (now t0 : Z) (data : ClientData) :
  store !! clientIP = Some data →
  (length (requests data) < RATE_LIMIT_MAX_REQUESTS)%nat →
  (∀ t, In t (requests data) → t0 <= t < t0 + RATE_LIMIT_WINDOW) →
  t0 <= lastCleanup data →
  t0 <= now < t0 + RATE_LIMIT_WINDOW →
  checkRateLimit clientIP now store
  = (Allowed,
     <[clientIP := {| requests := requests data ++ [now];
                      lastCleanup := lastCleanup data |}]> store).
Proof.
  intros Hdata Hlen Hin Hlc Hnow. unfold checkRateLimit. rewrite Hdata.
  cbn [default from_option id].
  rewrite filter_all.
  2: { intros t Ht. unfold inWindow. apply Z.ltb_lt.
       specialize (Hin t Ht). lia. }
  apply Nat.leb_gt in Hlen. rewrite Hlen.
  assert ((RATE_LIMIT_WINDOW <? now - lastCleanup data) = false) as ->
    by (apply Z.ltb_ge; lia).
  by rewrite insert_insert_eq.
Qed.

Lemma checkEach_within_window (clientIP : string) (t0 : Z)
    (instants : list Z) :
  ∀ (store : gmap string ClientData) (data : ClientData),
    store !! clientIP = Some data →
    (length (requests data) + length instants
       <= RATE_LIMIT_MAX_REQUESTS)%nat →
    (∀ t, In t (requests data ++ instants) →
          t0 <= t < t0 + RATE_LIMIT_WINDOW) →
    t0 <= lastCleanup data →
    Forall (λ r, r = Allowed) (checkEach clientIP instants store).1
    ∧ (checkEach clientIP instants store).2 !! clientIP
      = Some {| requests := requests data ++ instants;
                lastCleanup := lastCleanup data |}.
Proof.
  induction instants as [|now rest IH]; intros store data Hdata Hlen Hin Hlc.
  - cbn. rewrite app_nil_r. split; [done|]. by destruct data.
  - cbn [checkEach].
    rewrite (check_allowed_within_window store clientIP now t0 data);
      try done.
    2: { cbn [length] in Hlen. lia. }
    2: { intros t Ht. apply Hin, in_or_app. by left. }
    2: { apply Hin, in_or_app. right. by left. }
    specialize (IH (<[clientIP := {| requests := requests data ++ [now];
                                     lastCleanup := lastCleanup data |}]> store)
                  {| requests := requests data ++ [now];
                     lastCleanup := lastCleanup data |}).
    cbn [requests lastCleanup] in IH. rewrite <- app_assoc in IH.
    destruct IH as [H1 H2]; try done.
    { apply lookup_insert_eq. }
    { rewrite length_app. cbn [length] in *. lia. }
    destruct (checkEach clientIP rest _) as [rs store''].
    cbn [fst snd] in *. split; [by constructor|done].
Qed.

(** X18.  Thirty checks of a new key at instants of one window are all admitted,
    and a further check inside that window is denied. *)
Theorem window_quota (store : gmap string ClientData) (clientIP : string)
    (t0 : Z) (instants : list Z) (next : Z) :
  store !! clientIP = None →
  length instants = RATE_LIMIT_MAX_REQUESTS →
  (∀ t, In t (instants ++ [next]) → t0 <= t < t0 + RATE_LIMIT_WINDOW) →
  Forall (λ r, r = Allowed) (checkEach clientIP instants store).1
  ∧ ∃ resetTime,
      (checkRateLimit clientIP next (checkEach clientIP instants store).2).1
      = Denied (Some resetTime).
Proof.
  intros Hnew Hlen Hin.
  destruct instants as [|first rest]; [discriminate Hlen|].
  cbn [checkEach].
  assert (Hfirst : checkRateLimit clientIP first store
                   = (Allowed,
                      <[clientIP := {| requests := [first];
                                       lastCleanup := first |}]> store)).
  { unfold checkRateLimit. rewrite Hnew. cbn.
    assert ((RATE_LIMIT_WINDOW <? first - first) = false) as ->
      by (apply Z.ltb_ge; unfold RATE_LIMIT_WINDOW; lia).
    done. }
  rewrite Hfirst.
  assert (Hfirst_in : t0 <= first < t0 + RATE_LIMIT_WINDOW)
    by (apply Hin; by left).
  destruct (checkEach_within_window clientIP t0 rest
              (<[clientIP := {| requests := [first];
                                lastCleanup := first |}]> store)
              {| requests := [first]; lastCleanup := first |})
    as [H1 H2].
  { apply lookup_insert_eq. }
  { cbn [requests length] in *. lia. }
  { intros t Ht. apply Hin. cbn [requests app] in Ht.
    destruct Ht as [<-|Ht]; [by left|]. right. apply in_or_app. by left. }
  { cbn. lia. }
  cbn [requests lastCleanup app] in H2.
  destruct (checkEach clientIP rest _) as [rs store''].
  cbn [fst snd] in *. split; [by constructor|].
  exists (first + RATE_LIMIT_WINDOW).
  rewrite (check_denied store'' clientIP next _ H2); cbn [requests].
  - rewrite filter_all; [done|].
    intros t Ht. unfold inWindow. apply Z.ltb_lt.
    assert (t0 <= t < t0 + RATE_LIMIT_WINDOW).
    { apply Hin. apply in_or_app. by left. }
    assert (t0 <= next < t0 + RATE_LIMIT_WINDOW).
    { apply Hin. apply in_or_app. right. by left. }
    lia.
  - rewrite filter_all; [lia|].
    intros t Ht. unfold inWindow. apply Z.ltb_lt.
    assert (t0 <= t < t0 + RATE_LIMIT_WINDOW).
    { apply Hin. apply in_or_app. by left. }
    assert (t0 <= next < t0 + RATE_LIMIT_WINDOW).
    { apply Hin. apply in_or_app. right. by left. }
    lia.
Qed.

(** ** The vision webhook: download and relay *)
Section VisionDownload.

Import Webhook Vision.

Lemma rev_onto_append cur s :
  JS.rev_onto cur s = JS.rev_onto cur EmptyString +:+ s.
Proof.
  revert s. induction cur as [|c cur IH]; intros s; [done|].
  cbn [JS.rev_onto]. rewrite (IH (String c s)), (IH (String c EmptyString)).
  by rewrite append_assoc.
Qed.

Lemma length_substringFrom_prefix p rest :
  substringFrom (String.length p) (p +:+ rest) = rest.
Proof. induction p as [|a p IH]; [by destruct rest|]. done. Qed.

Lemma splitOnGo_nonempty fuel sep cur s : splitOnGo fuel sep cur s ≠ [].
Proof.
  revert cur s. induction fuel as [|fuel IH]; intros cur s; [done|].
  cbn [splitOnGo]. destruct s as [|c s]; [done|].
  destruct (JS.startsWith sep (String c s)); [done|]. apply IH.
Qed.

Lemma join_cons sep x xs :
  xs ≠ [] → JS.join sep (x :: xs) = x +:+ sep +:+ JS.join sep xs.
Proof. by destruct xs. Qed.

(** Joining the pieces of a split gives the string back. *)
Lemma join_splitOnGo fuel sep cur s :
  sep ≠ EmptyString → (String.length s <= fuel)%nat →
  JS.join sep (splitOnGo fuel sep cur s) = JS.rev_onto cur s.
Proof.
  intros Hsep. revert cur s.
  induction fuel as [|fuel IH]; intros cur s Hlen.
  - destruct s; [done|]. cbn in Hlen. lia.
  - cbn [splitOnGo]. destruct s as [|c s]; [done|].
    destruct (JS.startsWith sep (String c s)) eqn:E.
    + destruct (startsWith_split _ _ E) as [rest Hrest].
      rewrite Hrest, length_substringFrom_prefix.
      rewrite join_cons by apply splitOnGo_nonempty.
      rewrite IH.
      * cbn [JS.rev_onto]. by rewrite (rev_onto_append cur (sep +:+ rest)).
      * rewrite Hrest, length_append in Hlen.
        destruct sep; [done|]. cbn [String.length] in Hlen. lia.
    + rewrite IH; [done|]. cbn [String.length] in Hlen. lia.
Qed.

Lemma splitGo_nonempty sep cur s : JS.splitGo sep cur s ≠ [].
Proof.
  revert cur. induction s as [|c s IH]; intros cur; cbn; [done|].
  destruct (Ascii.eqb c sep); [done|]. apply IH.
Qed.

Lemma join_splitGo sep cur s :
  JS.join (String sep EmptyString) (JS.splitGo sep cur s) = JS.rev_onto cur s.
Proof.
  revert cur. induction s as [|c s IH]; intros cur; cbn [JS.splitGo]; [done|].
  destruct (Ascii.eqb_spec c sep) as [->|Hne].
  - rewrite join_cons by apply splitGo_nonempty. rewrite IH.
    cbn [JS.rev_onto]. by rewrite (rev_onto_append cur (String sep s)).
  - by rewrite IH.
Qed.

(** A string without the separator is one piece. *)
Lemma splitOnGo_without fuel sep cur s :
  JS.includes sep s = false → ∃ piece, splitOnGo fuel sep cur s = [piece].
Proof.
  revert cur s. induction fuel as [|fuel IH]; intros cur s H; [by eexists|].
  cbn [splitOnGo]. destruct s as [|c s]; [by eexists|].
  cbn [JS.includes] in H. apply orb_false_iff in H as [-> H]. by apply IH.
Qed.

Lemma string_of_list_byte_app a b :
  string_of_list_byte (a ++ b)
  = string_of_list_byte a +:+ string_of_list_byte b.
Proof.
  unfold string_of_list_byte.
  induction a as [|x a IH]; [done|].
  cbn [app List.map string_of_list_ascii]. by rewrite append_cons, IH.
Qed.

Lemma chunkSize_positive : (1 <= chunkSize)%nat.
Proof. unfold chunkSize. lia. Qed.

(** Building the binary string chunk by chunk gives the string of the
    bytes. *)
Lemma binaryStringGo_all fuel bytes :
  (length bytes <= fuel)%nat →
  binaryStringGo fuel bytes = string_of_list_byte bytes.
Proof.
  revert bytes. induction fuel as [|fuel IH]; intros bytes Hlen.
  - by destruct bytes; [|cbn in Hlen; lia].
  - cbn [binaryStringGo]. destruct bytes as [|b bytes]; [done|].
    pose proof chunkSize_positive.
    rewrite IH.
    + by rewrite <- string_of_list_byte_app, firstn_skipn.
    + rewrite length_skipn. cbn [length] in *. lia.
Qed.

Variables (cfg : Config) (w : DownloadWorld) (bucket filePath : string).

Lemma downloadFrom_requests remaining attempt e :
  In e (downloadFrom cfg w bucket filePath remaining attempt).2 →
  match e with
  | Requested _ b p => b = bucket ∧ p = filePath
  | Paused _ => True
  end.
Proof.
  revert attempt. induction remaining as [|remaining IH]; intros attempt;
    [done|].
  cbn [downloadFrom]. specialize (IH (S attempt)).
  destruct (downloadFrom cfg w bucket filePath remaining (S attempt))
    as [r t]. cbn [snd] in IH.
  assert (Hretry : In e (Requested attempt bucket filePath
                           :: Paused (RETRY_DELAY_BASE cfg * Z.of_nat attempt)
                           :: t) →
                   match e with
                   | Requested _ b p => b = bucket ∧ p = filePath
                   | Paused _ => True
                   end).
  { intros [<-|[<-|H]]; [by split|done|by apply IH]. }
  assert (Hfinish : In e [Requested attempt bucket filePath] →
                    match e with
                    | Requested _ b p => b = bucket ∧ p = filePath
                    | Paused _ => True
                    end).
  { intros [<-|[]]. by split. }
  destruct (download w attempt bucket filePath) as [m| |data|m];
    repeat match goal with
           | |- context [if ?b then _ else _] => destruct b
           | |- context [match acceptBlob ?a ?b ?c ?d with _ => _ end] =>
               destruct (acceptBlob a b c d)
           end; cbn [snd]; auto.
Qed.

Lemma downloadFrom_success remaining attempt imageData :
  (downloadFrom cfg w bucket filePath remaining attempt).1
  = DownloadOk imageData →
  ∃ a data,
    (attempt <= a)%nat
    ∧ In (Requested a bucket filePath)
        (downloadFrom cfg w bucket filePath remaining attempt).2
    ∧ download w a bucket filePath = Downloaded data
    ∧ acceptBlob cfg w data a = Ok (DownloadOk imageData).
Proof.
  revert attempt. induction remaining as [|remaining IH]; intros attempt;
    [done|].
  cbn [downloadFrom]. specialize (IH (S attempt)).
  destruct (downloadFrom cfg w bucket filePath remaining (S attempt))
    as [r t]. cbn [fst snd] in IH.
  assert (Hretry : r = DownloadOk imageData →
    ∃ a data,
      (attempt <= a)%nat
      ∧ In (Requested a bucket filePath)
          (Requested attempt bucket filePath
             :: Paused (RETRY_DELAY_BASE cfg * Z.of_nat attempt) :: t)
      ∧ download w a bucket filePath = Downloaded data
      ∧ acceptBlob cfg w data a = Ok (DownloadOk imageData)).
  { intros H. destruct (IH H) as (a & data & Ha & Hin & Hd & Hacc).
    exists a, data. split; [lia|]. split; [by do 2 right|done]. }
  destruct (download w attempt bucket filePath) as [m| |data|m] eqn:Hdl.
  - destruct (attempt <? MAX_RETRIES cfg)%nat; cbn [fst snd]; [done|done].
  - destruct (attempt <? MAX_RETRIES cfg)%nat; cbn [fst snd]; [done|done].
  - destruct (acceptBlob cfg w data attempt) as [res|m] eqn:Hacc.
    + cbn [fst snd]. intros ->. exists attempt, data.
      split; [lia|]. split; [by left|done].
    + destruct (attempt =? MAX_RETRIES cfg)%nat; cbn [fst snd]; [done|done].
  - destruct (attempt =? MAX_RETRIES cfg)%nat; cbn [fst snd]; [done|done].
Qed.

End VisionDownload.

Lemma acceptBlob_success (cfg : Webhook.Config) (w : Vision.DownloadWorld)
    (data : Vision.Blob) (attempt : nat) (imageData : Webhook.ImageData) :
  Vision.acceptBlob cfg w data attempt = Ok (Vision.DownloadOk imageData) →
  ∃ bytes,
    Vision.blob_bytes data = Ok bytes
    ∧ 0 < Z.of_nat (length bytes) <= Webhook.MAX_IMAGE_SIZE cfg
    ∧ Webhook.sizeBytes imageData = Z.of_nat (length bytes)
    ∧ Vision.btoa w (string_of_list_byte bytes)
      = Ok (Webhook.base64 imageData).
Proof.
  unfold Vision.acceptBlob.
  destruct (Vision.blob_bytes data) as [bytes|]; [|done].
  destruct (Z.ltb_spec (Webhook.MAX_IMAGE_SIZE cfg) (Z.of_nat (length bytes)));
    [done|].
  destruct (Z.eqb_spec (Z.of_nat (length bytes)) 0); [done|].
  unfold Vision.binaryString. rewrite binaryStringGo_all by lia.
  destruct (Vision.btoa w (string_of_list_byte bytes)) as [encoded|] eqn:E;
    [|done].
  intros [= <-]. exists bytes. cbn. repeat split; try done; lia.
Qed.

(** X26.  A download that succeeds comes from a blob that storage returned for
    the bucket and path of the URL: its size is that of the blob, more than
    zero and at most [MAX_IMAGE_SIZE], and its base64 text is the encoding of
    exactly the bytes of the blob, however they were cut into chunks. *)
Theorem download_success_sound (cfg : Webhook.Config)
    (w : Vision.DownloadWorld) (url : string)
    (imageData : Webhook.ImageData) :
  (Vision.fetchImageWithSupabaseClient cfg w url).1
  = Vision.DownloadOk imageData →
  0 < Webhook.sizeBytes imageData <= Webhook.MAX_IMAGE_SIZE cfg
  ∧ ∃ attempt bucket filePath data bytes,
      In (Vision.Requested attempt bucket filePath)
        (Vision.fetchImageWithSupabaseClient cfg w url).2
      ∧ Vision.download w attempt bucket filePath = Vision.Downloaded data
      ∧ Vision.blob_bytes data = Ok bytes
      ∧ Webhook.sizeBytes imageData = Z.of_nat (length bytes)
      ∧ Vision.btoa w (string_of_list_byte bytes)
        = Ok (Webhook.base64 imageData).
Proof.
  unfold Vision.fetchImageWithSupabaseClient.
  destruct (Vision.splitOn Vision.publicMarker url)
    as [|prefix [|objectPath [|]]]; try done.
  destruct (JS.split "/" objectPath) as [|bucket pathParts]; [done|].
  pose proof (downloadFrom_success cfg w bucket (JS.join "/" pathParts)
                (Webhook.MAX_RETRIES cfg) 1 imageData) as H.
  destruct (Vision.downloadFrom cfg w bucket (JS.join "/" pathParts)
              (Webhook.MAX_RETRIES cfg) 1) as [r t].
  cbn [fst snd] in *. intros Hr.
  destruct (H Hr) as (a & data & _ & Hin & Hdl & Hacc).
  destruct (acceptBlob_success cfg w data a imageData Hacc)
    as (bytes & Hb & Hsize & Hs & Henc).
  split; [lia|].
  exists a, bucket, (JS.join "/" pathParts), data, bytes.
  split; [by right|done].
Qed.

(** X27.  A URL that does not contain [/storage/v1/object/public/] is refused at
    once: no pause, no download. *)
Theorem download_refuses_other_urls (cfg : Webhook.Config)
    (w : Vision.DownloadWorld) (url : string) :
  JS.includes Vision.publicMarker url = false →
  Vision.fetchImageWithSupabaseClient cfg w url
  = (Vision.DownloadFail Vision.InvalidUrlFormat None, []).
Proof.
  intros H. unfold Vision.fetchImageWithSupabaseClient, Vision.splitOn.
  by destruct (splitOnGo_without (String.length url) Vision.publicMarker
                 EmptyString url H) as [piece ->].
Qed.

(** X28.  Whatever is asked of storage is what the URL names: the URL is some
    prefix, the marker [/storage/v1/object/public/], the bucket, and, after a
    slash, the path asked for; the bucket contains no slash. *)
Theorem download_location_sound (cfg : Webhook.Config)
    (w : Vision.DownloadWorld) (url : string) (attempt : nat)
    (bucket filePath : string) :
  In (Vision.Requested attempt bucket filePath)
    (Vision.fetchImageWithSupabaseClient cfg w url).2 →
  JS.sforall notSlash bucket = true
  ∧ ∃ prefix,
      url = prefix +:+ Vision.publicMarker +:+ bucket +:+ "/" +:+ filePath
      ∨ (filePath = EmptyString
         ∧ url = prefix +:+ Vision.publicMarker +:+ bucket).
Proof.
  unfold Vision.fetchImageWithSupabaseClient.
  pose proof (join_splitOnGo (String.length url) Vision.publicMarker
                EmptyString url ltac:(done) ltac:(lia)) as Hurl.
  fold (Vision.splitOn Vision.publicMarker url) in Hurl.
  destruct (Vision.splitOn Vision.publicMarker url)
    as [|prefix [|objectPath [|]]]; try done.
  pose proof (join_splitGo "/" EmptyString objectPath) as Hpath.
  pose proof (splitGo_first "/" EmptyString objectPath eq_refl) as Hbucket.
  fold (JS.split "/" objectPath) in Hpath, Hbucket.
  destruct (JS.split "/" objectPath) as [|b pathParts]; [done|].
  pose proof (downloadFrom_requests cfg w b (JS.join "/" pathParts)
                (Webhook.MAX_RETRIES cfg) 1
                (Vision.Requested attempt bucket filePath)) as H.
  destruct (Vision.downloadFrom cfg w b (JS.join "/" pathParts)
              (Webhook.MAX_RETRIES cfg) 1) as [r t].
  cbn [fst snd] in *. intros [Hin|Hin]; [done|].
  destruct (H Hin) as [-> ->]. split; [done|].
  exists prefix. cbn [JS.rev_onto JS.join] in Hurl. rewrite <- Hurl.
  cbn [JS.rev_onto] in Hpath. rewrite <- Hpath.
  destruct pathParts as [|p ps]; [right; by split|left].
  by rewrite join_cons.
Qed.

(** ** The webhook handler *)

Lemma relayFrom_posted (cfg : Webhook.Config) (w : Webhook.RelayWorld)
    (request : Webhook.BuildShipPayload) (remaining attempt : nat)
    (a : nat) (request' : Webhook.BuildShipPayload) :
  In (Webhook.Posted a request')
    (Webhook.relayFrom cfg w request remaining attempt).2 →
  request' = request.
Proof.
  revert attempt. induction remaining as [|remaining IH]; intros attempt;
    [done|].
  cbn [Webhook.relayFrom]. specialize (IH (S attempt)).
  destruct (Webhook.relayFrom cfg w request remaining (S attempt)) as [r t].
  cbn [snd] in IH.
  destruct (Webhook.relay w attempt request) as [resp|name message];
    repeat match goal with
           | |- context [if ?b then _ else _] => destruct b
           end; cbn [snd];
    intros [[= _ <-]|H]; try done; destruct H as [[=]|H]; auto.
Qed.

Lemma download_success_size (cfg : Webhook.Config)
    (w : Vision.DownloadWorld) (url : string)
    (imageData : Webhook.ImageData) :
  (Vision.fetchImageWithSupabaseClient cfg w url).1
  = Vision.DownloadOk imageData →
  0 < Webhook.sizeBytes imageData <= Webhook.MAX_IMAGE_SIZE cfg.
Proof.
  unfold Vision.fetchImageWithSupabaseClient.
  destruct (Vision.splitOn Vision.publicMarker url)
    as [|prefix [|objectPath [|]]]; try done.
  destruct (JS.split "/" objectPath) as [|bucket pathParts]; [done|].
  pose proof (downloadFrom_success cfg w bucket (JS.join "/" pathParts)
                (Webhook.MAX_RETRIES cfg) 1 imageData) as H.
  destruct (Vision.downloadFrom cfg w bucket (JS.join "/" pathParts)
              (Webhook.MAX_RETRIES cfg) 1) as [r t].
  cbn [fst snd] in *. intros Hr.
  destruct (H Hr) as (a & data & _ & _ & _ & Hacc).
  destruct (acceptBlob_success cfg w data a imageData Hacc)
    as (bytes & _ & Hsize & Hs & _).
  lia.
Qed.

(** X29.  The relay is called only for a [POST] whose payload passed validation
    and whose image was downloaded with a size above zero and within the
    limit; what is posted is built from that payload and that image. *)
Theorem webhook_relay_guard (cfg : Webhook.Config) (w : Vision.WebhookWorld)
    (env : Vision.WebhookEnv) (req : Vision.WebhookRequest)
    (attempt : nat) (request : Webhook.BuildShipPayload) :
  In (Webhook.Posted attempt request) (Vision.serve cfg w env req).2 →
  Vision.wh_method req = "POST"
  ∧ ∃ payload imageData,
      Vision.wh_body req = Ok (Some payload)
      ∧ Webhook.validatePayload (Vision.url_valid w) (Some payload) = []
      ∧ (Vision.fetchImageWithSupabaseClient cfg (Vision.storage w)
           (default EmptyString (Webhook.public_url payload))).1
        = Vision.DownloadOk imageData
      ∧ 0 < Webhook.sizeBytes imageData <= Webhook.MAX_IMAGE_SIZE cfg
      ∧ request
        = Webhook.buildShipPayload (Vision.buildShip w) payload imageData.
Proof.
  unfold Vision.serve.
  destruct (String.eqb (Vision.wh_method req) "OPTIONS"); [done|].
  destruct (String.eqb_spec (Vision.wh_method req) "POST") as [Hpost|];
    [|done].
  cbn [negb]. destruct (negb _); [done|].
  destruct (Vision.wh_body req) as [[payload|]|]; try done.
  destruct (Webhook.validatePayload (Vision.url_valid w) (Some payload))
    as [|e errors] eqn:Hvalid; [|done].
  cbn [length Nat.ltb Nat.leb].
  pose proof (download_success_size cfg (Vision.storage w)
                (default EmptyString (Webhook.public_url payload))) as Hdl.
  destruct (Vision.fetchImageWithSupabaseClient cfg (Vision.storage w)
              (default EmptyString (Webhook.public_url payload)))
    as [[imageData|error attempts] downloads] eqn:Hfetch; [|done].
  cbn [fst] in Hdl. pose proof (Hdl imageData eq_refl) as Hsize.
  pose proof (relayFrom_posted cfg (Vision.buildShip w)
                (Webhook.buildShipPayload (Vision.buildShip w) payload
                   imageData)
                (Webhook.MAX_RETRIES cfg) 1 attempt request) as Hposted.
  unfold Webhook.sendToBuildShipWith.
  destruct (Webhook.relayFrom cfg (Vision.buildShip w) _
              (Webhook.MAX_RETRIES cfg) 1) as [result posted].
  cbn [snd] in Hposted.
  intros Hin.
  assert (Hin' : In (Webhook.Posted attempt request) posted)
    by by destruct result.
  split; [done|]. exists payload, imageData.
  split; [done|]. split; [done|]. split; [by rewrite Hfetch|].
  split; [lia|]. by apply Hposted.
Qed.
(** ** The properties above at sample inputs *)

Lemma generateFinalFilename_cases_witness :
  generateFinalFilename "123e4567-e89b-42d3-a456-426614174000" "photo.jpg"
  = "photo_123e4567.jpg".
Proof.
  pose proof (generateFinalFilename_cases
                "123e4567-e89b-42d3-a456-426614174000" "photo.jpg") as H.
  cbv zeta in H. destruct H as (_ & H & _).
  apply (H "photo"). reflexivity.
Defined.

Lemma generateFinalFilename_distinct_witness :
  JS.take 8 "123e4567-e89b-42d3-a456-426614174000"
  = JS.take 8 "123e4567-0000-4000-8000-000000000000".
Proof.
  apply (generateFinalFilename_distinct _ _ "photo.png");
    [left|]; reflexivity.
Defined.

Lemma maskSensitiveData_bounded_witness :
  (String.length (maskSensitiveData "Authorization: Bearer abcdef") <= 13)%nat.
Proof.
  destruct (maskSensitiveData_bounded "Authorization: Bearer abcdef")
    as (_ & H & _).
  apply H. reflexivity.
Defined.



(** A 503 on every attempt: three attempts, with pauses of one and two
    seconds. *)
Lemma fetch_upstream_failure_witness :
  attemptsMade
    (fetchImageWithSessionHandling (worldAnswering unavailablePage)
       sampleUrl 3).2 = 3%nat
  ∧ In (Slept 1000)
      (fetchImageWithSessionHandling (worldAnswering unavailablePage)
         sampleUrl 3).2
  ∧ In (Slept 2000)
      (fetchImageWithSessionHandling (worldAnswering unavailablePage)
         sampleUrl 3).2.
Proof.
  pose proof (fetch_upstream_failure (worldAnswering unavailablePage)
                sampleUrl 3 ltac:(lia)) as H.
  cbv zeta in H. destruct H as (_ & H2 & H3).
  { intros a _. exists unavailablePage. split; reflexivity. }
  split; [exact H2|].
  split; [apply (H3 1%nat); lia | apply (H3 2%nat); lia].
Defined.

Lemma fetch_unparsable_url_witness :
  fetchImageWithSessionHandling unparsableWorld "slips/1.png"
    DEFAULT_MAX_RETRIES
  = (Some (FetchFail networkError "Invalid URL" None),
     [AttemptStarted 1; Slept 1000; AttemptStarted 2; Slept 2000;
      AttemptStarted 3]).
Proof. apply (fetch_unparsable_url unparsableWorld). reflexivity. Defined.

Lemma fetch_challenge_no_backoff_witness :
  Forall noBackoff
    (fetchImageWithSessionHandling challengeWorld sampleUrl 3).2.
Proof.
  apply (fetch_challenge_no_backoff challengeWorld sampleUrl 3).
  intros a _.
  exists challengePage,
    "<!DOCTYPE html><html><body>Checking your browser</body></html>".
  repeat split; reflexivity.
Defined.

Lemma fetch_other_content_fails_witness :
  (fetchImageWithSessionHandling (worldAnswering jsonPage) sampleUrl 3).1
  = Some (FetchFail networkError bodyUsedMessage None)
  ∧ attemptsMade
      (fetchImageWithSessionHandling (worldAnswering jsonPage) sampleUrl 3).2
    = 3%nat.
Proof.
  apply (fetch_other_content_fails (worldAnswering jsonPage) sampleUrl 3);
    [lia|].
  intros a _. exists jsonPage, "{}". repeat split; reflexivity.
Defined.

Lemma upload_storage_bound_witness :
  Z.of_nat (length (file_data sampleFile)) <= DEFAULT_MAX_SIZE_BYTES.
Proof.
  pose proof (upload_storage_bound challengeWorld directUpload
                (Some sampleFile)) as H.
  cbv zeta in H. destruct H as [_ H].
  apply (H "main-street/2024-01-15/photo_123e4567.jpg" (file_data sampleFile)
           "image/png").
  vm_compute. left. reflexivity.
Defined.

Lemma upload_challenge_report_witness :
  ∃ r text,
    (sessionSteps challengeWorld sampleUrl DEFAULT_MAX_RETRIES).1 = Ok r
    ∧ readBody r = Ok text
    ∧ (processImageUpload challengeWorld urlUpload None).1
      = Ok (if looksLikeHtml (JS.take 300 text)
            then UploadBotProtection botProtectionError
            else UploadFail botProtectionError (Some (JS.take 300 text))
                   (Some (maskSensitiveData (resp_url r))))
    ∧ storageWrites (processImageUpload challengeWorld urlUpload None).2 = [].
Proof.
  apply (upload_challenge_report challengeWorld urlUpload sampleUrl);
    [reflexivity | discriminate |].
  intros a _.
  exists challengePage,
    "<!DOCTYPE html><html><body>Checking your browser</body></html>".
  repeat split; reflexivity.
Defined.

Lemma storage_path_three_segments_witness :
  ∃ b d f,
    branch directUpload = Some b ∧ date directUpload = Some d
    ∧ filename directUpload = Some f
    ∧ "main-street/2024-01-15/photo_123e4567.jpg"
      = normalize b +:+ "/" +:+ d +:+ "/"
        +:+ generateFinalFilename (randomUUID challengeWorld) f
    ∧ JS.sforall notSlash (normalize b) = true
    ∧ JS.sforall notSlash d = true
    ∧ JS.sforall notSlash (generateFinalFilename (randomUUID challengeWorld) f)
      = true.
Proof.
  apply (storage_path_three_segments challengeWorld directUpload
           (Some sampleFile) _ (file_data sampleFile) "image/png");
    [reflexivity | reflexivity |].
  vm_compute. left. reflexivity.
Defined.

(** Denied at 1000 with the reset time 60001, admitted at 60001. *)
Lemma denied_then_allowed_at_reset_witness :
  (checkRateLimit busyClient 60001
     (runChecks [("198.51.100.1", 2000)]
        (checkRateLimit busyClient 1000 fullStore).2)).1 = Allowed.
Proof.
  apply (denied_then_allowed_at_reset fullStore busyClient 1000 fullEntry
           60001);
    [vm_compute; reflexivity | vm_compute; lia | vm_compute; reflexivity
    | repeat constructor; discriminate | lia].
Defined.

(** In [sweepStore] the entry of 198.51.100.2 was last cleaned at 0: its
    check at 120001 is admitted and leaves no entry. *)
Lemma sweep_drops_own_entry_witness :
  (checkRateLimit "198.51.100.2" 120001 sweepStore).2 !! "198.51.100.2" = None.
Proof.
  apply (sweep_drops_own_entry sweepStore "198.51.100.2" 120001
           {| requests := [0; 59999]; lastCleanup := 0 |});
    [vm_compute; reflexivity | vm_compute; reflexivity
    | vm_compute; reflexivity].
Defined.

Lemma relay_attempts_are_calls_witness :
  Webhook.posts
    (Webhook.sendToBuildShipWith Webhook.CONFIG busyRelay webhookPayloadV1
       sampleImageData).2
  = Webhook.attemptsOf
      (Webhook.sendToBuildShipWith Webhook.CONFIG busyRelay webhookPayloadV1
         sampleImageData).1
  ∧ (1 <= Webhook.attemptsOf
            (Webhook.sendToBuildShipWith Webhook.CONFIG busyRelay
               webhookPayloadV1 sampleImageData).1
       <= Webhook.MAX_RETRIES Webhook.CONFIG)%nat.
Proof.
  apply (relay_attempts_are_calls Webhook.CONFIG busyRelay webhookPayloadV1
           sampleImageData).
  vm_compute. lia.
Defined.

(** A 503, then a 200: success at the second attempt. *)
Lemma relay_succeeds_after_retries_witness :
  (Webhook.sendToBuildShipWith Webhook.CONFIG recoveringRelay
     webhookPayloadV1 sampleImageData).1
  = Webhook.RelayOk 200 "done" 2 40
  ∧ Webhook.posts
      (Webhook.sendToBuildShipWith Webhook.CONFIG recoveringRelay
         webhookPayloadV1 sampleImageData).2 = 2%nat.
Proof.
  pose proof (relay_succeeds_after_retries Webhook.CONFIG recoveringRelay
                webhookPayloadV1 sampleImageData 2 relayAccepted
                ltac:(vm_compute; lia)) as H.
  cbv zeta in H. apply H.
  - intros a Ha. assert (a = 1%nat) as -> by lia.
    right. vm_compute. split; discriminate.
  - reflexivity.
  - reflexivity.
Defined.

(** The proxy answers the same without configuration and for a client the
    rate limiter would deny. *)
Lemma image_proxy_unguarded_witness :
  (serve sampleServeWorld sampleEnv ∅ proxyRequest).1.1
  = (serve sampleServeWorld emptyEnv fullStore proxyRequest).1.1
  ∧ (serve sampleServeWorld sampleEnv ∅ proxyRequest).1.2 = ∅
  ∧ (serve sampleServeWorld sampleEnv ∅ proxyRequest).2 = [].
Proof.
  apply (image_proxy_unguarded sampleServeWorld sampleEnv emptyEnv ∅ fullStore
           proxyRequest proxyRequest); reflexivity.
Defined.


(** The same request once [busyClient] has used its quota. *)
Lemma rate_limit_precedes_token_witness :
  ∃ resetTime,
    (serve sampleServeWorld sampleEnv fullStore uploadRequest).1.1
    = RateLimited resetTime (ceilSeconds (resetTime - clock' sampleServeWorld))
    ∧ (serve sampleServeWorld sampleEnv fullStore uploadRequest).2 = []
    ∧ clock sampleServeWorld < resetTime
    ∧ (clock' sampleServeWorld < resetTime →
       1 <= ceilSeconds (resetTime - clock' sampleServeWorld)).
Proof.
  apply (rate_limit_precedes_token sampleServeWorld sampleEnv fullStore
           uploadRequest fullEntry);
    [reflexivity | vm_compute; reflexivity | vm_compute; lia].
Defined.

(** Thirty checks at 1..30 and one at 31. *)
Lemma window_quota_witness :
  Forall (λ r, r = Allowed)
    (checkEach busyClient (List.map Z.of_nat (seq 1 30)) ∅).1
  ∧ ∃ resetTime,
      (checkRateLimit busyClient 31
         (checkEach busyClient (List.map Z.of_nat (seq 1 30)) ∅).2).1
      = Denied (Some resetTime).
Proof.
  apply (window_quota ∅ busyClient 0 (List.map Z.of_nat (seq 1 30)) 31);
    [reflexivity | reflexivity |].
  intros t Ht. vm_compute in Ht.
  repeat (destruct Ht as [<- | Ht]; [unfold RATE_LIMIT_WINDOW; lia|]).
  destruct Ht.
Defined.

Lemma download_success_sound_witness :
  0 < Webhook.sizeBytes sampleImageData
    <= Webhook.MAX_IMAGE_SIZE Webhook.CONFIG
  ∧ ∃ attempt bucket filePath data bytes,
      In (Vision.Requested attempt bucket filePath)
        (Vision.fetchImageWithSupabaseClient Webhook.CONFIG sampleStorage
           sampleObjectUrl).2
      ∧ Vision.download sampleStorage attempt bucket filePath
        = Vision.Downloaded data
      ∧ Vision.blob_bytes data = Ok bytes
      ∧ Webhook.sizeBytes sampleImageData = Z.of_nat (length bytes)
      ∧ Vision.btoa sampleStorage (string_of_list_byte bytes)
        = Ok (Webhook.base64 sampleImageData).
Proof.
  apply (download_success_sound Webhook.CONFIG sampleStorage sampleObjectUrl
           sampleImageData).
  vm_compute. reflexivity.
Defined.

Lemma download_refuses_other_urls_witness :
  Vision.fetchImageWithSupabaseClient Webhook.CONFIG sampleStorage sampleUrl
  = (Vision.DownloadFail Vision.InvalidUrlFormat None, []).
Proof.
  apply (download_refuses_other_urls Webhook.CONFIG sampleStorage sampleUrl).
  reflexivity.
Defined.

Lemma download_location_sound_witness :
  JS.sforall notSlash "edge-slips" = true
  ∧ ∃ prefix,
      sampleObjectUrl
      = prefix +:+ Vision.publicMarker +:+ "edge-slips" +:+ "/"
        +:+ "main/2024-01-15/photo_ab12cd34.jpg"
      ∨ ("main/2024-01-15/photo_ab12cd34.jpg" = EmptyString
         ∧ sampleObjectUrl
           = prefix +:+ Vision.publicMarker +:+ "edge-slips").
Proof.
  apply (download_location_sound Webhook.CONFIG sampleStorage sampleObjectUrl
           1 "edge-slips" "main/2024-01-15/photo_ab12cd34.jpg").
  vm_compute. right. left. reflexivity.
Defined.

Lemma webhook_relay_guard_witness :
  Vision.wh_method sampleWebhookRequest = "POST"
  ∧ ∃ payload imageData,
      Vision.wh_body sampleWebhookRequest = Ok (Some payload)
      ∧ Webhook.validatePayload (Vision.url_valid sampleWebhookWorld)
          (Some payload) = []
      ∧ (Vision.fetchImageWithSupabaseClient Webhook.CONFIG
           (Vision.storage sampleWebhookWorld)
           (default EmptyString (Webhook.public_url payload))).1
        = Vision.DownloadOk imageData
      ∧ 0 < Webhook.sizeBytes imageData
          <= Webhook.MAX_IMAGE_SIZE Webhook.CONFIG
      ∧ Webhook.buildShipPayload busyRelay webhookPayloadV1 sampleImageData
        = Webhook.buildShipPayload (Vision.buildShip sampleWebhookWorld)
            payload imageData.
Proof.
  apply (webhook_relay_guard Webhook.CONFIG sampleWebhookWorld
           sampleWebhookEnv sampleWebhookRequest 1
           (Webhook.buildShipPayload busyRelay webhookPayloadV1
              sampleImageData)).
  vm_compute. left. reflexivity.
Defined.
